(** * psd-mcp-server: a shallow embedding of [src/index.ts]

    The development follows the source file top to bottom: the ECMAScript
    runtime operations the program relies on ([Js]), the decoded document
    as the [ag-psd] reader hands it over ([Psd]), the canonical [LayerInfo]
    tree and its builder, the vector exporter, the colour harvester, the
    layer index and the hero classifier.

    Numbers are IEEE 754 binary64 values, as in ECMAScript, and are
    represented by the primitive [float] type; every arithmetic operator
    of the source is the corresponding primitive operation. *)

From Stdlib Require Import ZArith Floats String Ascii List Bool Lia.
From Stdlib Require Import Sorted Permutation.
Import ListNotations.

Set Warnings "-inexact-float,-register-all".

Local Open Scope string_scope.
Local Open Scope Z_scope.

(* ================================================================== *)
(** * The ECMAScript runtime *)
(* ================================================================== *)

Module Js.

(** ** Numbers *)

(** [undefined] read as a number is [NaN]: a missing field that enters an
    arithmetic expression poisons it. *)
Definition ToNumber (v : option float) : float :=
  match v with
  | Some x => x
  | None => nan
  end.

(** The mantissa with its sign. *)
Definition signed (s : bool) (m : positive) : Z :=
  if s then Z.neg m else Z.pos m.

(** The float that represents an integer (exact whenever the integer is
    representable, which holds for every use below). *)
Definition of_Z (z : Z) : float :=
  SF2Prim (binary_normalize prec emax z 0 false).

(** The integral Numbers: what [Math.round] returns.  A value of this
    type is a Number known to be an integer, or one of the three
    non-finite Numbers.  The sign of a zero is not recorded: none of the
    consumers below ([Math.min], [Math.max], [toString]) observes it. *)
Inductive integral : Type :=
| INaN
| IInf (negative : bool)
| IInt (z : Z).

(** [Math.round(x)]: the integer closest to [x], ties towards [+∞]. *)
Definition Math_round (x : float) : integral :=
  match Prim2SF x with
  | S754_nan => INaN
  | S754_infinity s => IInf s
  | S754_zero _ => IInt 0
  | S754_finite s m e =>
      if 0 <=? e then IInt (signed s m * 2 ^ e)
      else IInt ((2 * signed s m + 2 ^ (- e)) / 2 ^ (- e + 1))
  end.

(** [Math.floor(x)], as a Number again (it re-enters arithmetic in the
    HSB conversion).  An integral, zero or non-finite argument is
    returned unchanged. *)
Definition Math_floor (x : float) : float :=
  match Prim2SF x with
  | S754_finite s m e =>
      if 0 <=? e then x else of_Z (signed s m / 2 ^ (- e))
  | _ => x
  end.

(** The integer value of a Number, when it is a finite integer. *)
Definition integer_value (x : float) : option Z :=
  match Prim2SF x with
  | S754_zero _ => Some 0
  | S754_finite s m e =>
      if 0 <=? e then Some (signed s m * 2 ^ e)
      else if (Z.pos m mod 2 ^ (- e)) =? 0
           then Some (signed s m / 2 ^ (- e))
           else None
  | _ => None
  end.

(** [i % n] for an integral [i] and a positive integer literal [n]: the
    remainder takes the sign of the dividend; [NaN % n] and [±∞ % n] are
    [NaN], written [None]. *)
Definition rem (i : float) (n : Z) : option Z :=
  match integer_value i with
  | Some z => Some (Z.rem z n)
  | None => None
  end.

Definition is_neg_zero (x : float) : bool :=
  match Prim2SF x with
  | S754_zero true => true
  | _ => false
  end.

(** [Math.min] and [Math.max] on two Numbers: [NaN] if either is [NaN],
    and [-0] is smaller than [+0]. *)
Definition Math_min (a b : float) : float :=
  if (is_nan a || is_nan b)%bool then nan
  else if (a <? b)%float then a
  else if (b <? a)%float then b
  else if is_neg_zero a then a else b.

Definition Math_max (a b : float) : float :=
  if (is_nan a || is_nan b)%bool then nan
  else if (a <? b)%float then b
  else if (b <? a)%float then a
  else if is_neg_zero a then b else a.

(** The same two functions on integral Numbers. *)
Module Integral.

Definition min (a b : integral) : integral :=
    match a, b with
    | INaN, _ | _, INaN => INaN
    | IInf true, _ | _, IInf true => IInf true
    | IInf false, y => y
    | x, IInf false => x
    | IInt x, IInt y => IInt (Z.min x y)
    end.

Definition max (a b : integral) : integral :=
    match a, b with
    | INaN, _ | _, INaN => INaN
    | IInf false, _ | _, IInf false => IInf false
    | IInf true, y => y
    | x, IInf true => x
    | IInt x, IInt y => IInt (Z.max x y)
    end.

End Integral.

(** ** Strings *)

Definition dquote : string := String (ascii_of_nat 34) EmptyString.

Definition digit_char (d : N) : ascii :=
  if (d <? 10)%N then ascii_of_N (48 + d) else ascii_of_N (87 + d).

Fixpoint radix_digits (base : N) (fuel : nat) (n : N) (acc : string) : string :=
  match fuel with
  | O => acc
  | S fuel' =>
      let acc' := String (digit_char (n mod base)) acc in
      if (n / base =? 0)%N then acc'
      else radix_digits base fuel' (n / base) acc'
  end.

(** The digits of a natural number in radix 10 or 16 (lowercase). *)
Definition N_toString (base n : N) : string :=
  radix_digits base (S (N.to_nat (N.log2 n))) n "".

Definition Z_toString (base : N) (z : Z) : string :=
  match z with
  | Z.neg p => "-" ++ N_toString base (N.pos p)
  | _ => N_toString base (Z.to_N z)
  end.

(** [n.toString(16)] for an integral Number. *)
Definition toString16 (n : integral) : string :=
  match n with
  | INaN => "NaN"
  | IInf false => "Infinity"
  | IInf true => "-Infinity"
  | IInt z => Z_toString 16 z
  end.

Fixpoint repeat_char (c : ascii) (n : nat) : string :=
  match n with
  | O => ""
  | S n' => String c (repeat_char c n')
  end.

(** [s.padStart(n, "0")]. *)
Definition padStart0 (n : nat) (s : string) : string :=
  repeat_char "0" (n - String.length s) ++ s.

Definition upper_char (c : ascii) : ascii :=
  let n := N_of_ascii c in
  if ((97 <=? n) && (n <=? 122))%N%bool then ascii_of_N (n - 32) else c.

(** The lowercase form of a code unit.  Strings are sequences of 8-bit
    code units, the characters U+0000 to U+00FF.  Those with a lowercase
    form are [A]-[Z] and the accented capitals U+00C0 to U+00DE, the
    multiplication sign U+00D7 excepted; the lowercase form is 32 code
    units further on. *)
Definition lower_char (c : ascii) : ascii :=
  let n := N_of_ascii c in
  if (((65 <=? n) && (n <=? 90))
      || ((192 <=? n) && (n <=? 222) && negb (n =? 215)))%N%bool
  then ascii_of_N (n + 32) else c.

Fixpoint map_string (f : ascii -> ascii) (s : string) : string :=
  match s with
  | EmptyString => EmptyString
  | String c s' => String (f c) (map_string f s')
  end.

(** Case mapping.  [toUpperCase] is applied by the program to the hex
    digits and the spellings of the non-finite Numbers only, where the
    letters [a]-[z] are the ones that change; [toLowerCase] is applied to
    layer names and queries. *)
Definition toUpperCase : string -> string := map_string upper_char.
Definition toLowerCase : string -> string := map_string lower_char.

(** [sep]-separated concatenation: [parts.join(sep)]. *)
Definition join (sep : string) (parts : list string) : string :=
  String.concat sep parts.

(** [x || 0] for a Number that may be missing. *)
Definition or_zero (v : option float) : float :=
  match v with
  | Some x => if (is_nan x || is_zero x)%bool then 0%float else x
  | None => 0%float
  end.

(** [s || d] for a string that may be missing. *)
Definition or_string (v : option string) (d : string) : string :=
  match v with
  | Some EmptyString | None => d
  | Some s => s
  end.

(** Truthiness of a string that may be missing. *)
Definition truthy_string (v : option string) : bool :=
  match v with
  | Some EmptyString | None => false
  | Some _ => true
  end.

(** ** Number formatting *)

Section Formatting.

(** [Number::toString] in radix 10 for the Numbers whose rendering needs
    the shortest round-trip digit generation of the engine: the finite
    non-integers and the magnitudes from [2^53] on, where the digits
    printed are no longer those of the exact value.  The program never
    inspects these strings; they are a parameter of the development. *)
Variable dtoa : float -> string.

Definition sign_prefix (s : bool) : string := if s then "-" else "".

(** [2^53]: below it every integer is a Number, and is printed with
    all its digits. *)
Definition exact_limit : Z := 2 ^ 53.

(** [`${x}`] for a Number. *)
Definition Number_toString (x : float) : string :=
  match Prim2SF x with
  | S754_nan => "NaN"
  | S754_infinity s => sign_prefix s ++ "Infinity"
  | S754_zero _ => "0"
  | S754_finite _ _ _ =>
      match integer_value x with
      | Some z => if Z.abs z <? exact_limit then Z_toString 10 z else dtoa x
      | None => dtoa x
      end
  end.

(** [`${n}`] for an integral Number. *)
Definition integral_toString (n : integral) : string :=
  match n with
  | INaN => "NaN"
  | IInf s => sign_prefix s ++ "Infinity"
  | IInt z =>
      if Z.abs z <? exact_limit then Z_toString 10 z else dtoa (of_Z z)
  end.

(** The digits of [n / 100] with exactly two decimals. *)
Definition fixed2_digits (n : N) : string :=
  let d := padStart0 3 (N_toString 10 n) in
  let k := String.length d in
  substring 0 (k - 2) d ++ "." ++ substring (k - 2) 2 d.

(** [x.toFixed(2)]: the integer [n] closest to [|x| * 100] (the larger
    one of two), printed with a decimal point and the sign of [x]. *)
Definition toFixed2 (x : float) : string :=
  match Prim2SF x with
  | S754_nan => "NaN"
  | S754_infinity s => sign_prefix s ++ "Infinity"
  | S754_zero _ => "0.00"
  | S754_finite s m e =>
      if (1e21 <=? abs x)%float then sign_prefix s ++ dtoa (abs x)
      else
        let n := if 0 <=? e then Z.pos m * 2 ^ e * 100
                 else (2 * (Z.pos m * 100) + 2 ^ (- e)) / 2 ^ (- e + 1) in
        sign_prefix s ++ fixed2_digits (Z.to_N n)
  end.

End Formatting.

End Js.

(* ================================================================== *)
(** * The decoded document ([ag-psd]) *)
(* ================================================================== *)

(** The records of the reader, restricted to the fields [index.ts]
    reads.  A field that may be missing is an [option]. *)

(** A colour in any of the encodings of the reader.  The program tells
    them apart by the fields that are present, so a colour is the record
    of all fields it ever probes. *)
Module Color.
Record t : Type := mk {
  fr : option float; fg : option float; fb : option float;
  r : option float; g : option float; b : option float;
  k : option float; c : option float; m : option float; y : option float;
  h : option float; s : option float;
  l : option float; a : option float
}.

Definition RGB (r g b : float) : t :=
  mk None None None (Some r) (Some g) (Some b) None None None None None None None None.
Definition LAB (l a b : float) : t :=
  mk None None None None None (Some b) None None None None None None (Some l) (Some a).
End Color.

Module Psd.

Record Font : Type := { Font_name : option string }.

Record TextStyle : Type := {
  font : option Font;
  fontSize : option float;
  fillColor : option Color.t;
  leading : option float;
  tracking : option float
}.

Record LayerTextData : Type := {
  text_text : option string;
  style : option TextStyle
}.

Record Knot : Type := { points : list float }.

Record BezierPath : Type := { open : bool; knots : list Knot }.

Record VectorMask : Type := { paths : list BezierPath }.

Record ColorStop : Type := { stop_color : option Color.t }.

(** A gradient; [colorStops] is missing on a noise gradient. *)
Record Gradient : Type := {
  gradient_name : option string;
  colorStops : option (list ColorStop)
}.

(** [VectorContent], discriminated by its [type] field. *)
Inductive VectorContent : Type :=
| VColor (color : Color.t)
| VGradient (gradient : Gradient)
| VPattern.

Record UnitsValue : Type := { value : float }.

Record VectorStroke : Type := {
  content : option VectorContent;
  lineWidth : option UnitsValue;
  lineCapType : option string;
  lineJoinType : option string;
  strokeEnabled : option bool
}.

(** One entry of a layer effect; every category is read through the
    same three fields. *)
Record Effect : Type := {
  enabled : option bool;
  effect_color : option Color.t;
  effect_gradient : option Gradient
}.

Record LayerEffects : Type := {
  dropShadow : option (list Effect);
  innerShadow : option (list Effect);
  outerGlow : option Effect;
  innerGlow : option Effect;
  solidFill : option (list Effect);
  stroke : option (list Effect);
  satin : option Effect;
  gradientOverlay : option (list Effect)
}.

Inductive Layer : Type := mkLayer {
  name : option string;
  hidden : option bool;
  opacity : option float;
  left : option float;
  top : option float;
  right : option float;
  bottom : option float;
  text : option LayerTextData;
  children : option (list Layer);
  canvas : bool;
  vectorMask : option VectorMask;
  vectorFill : option VectorContent;
  vectorStroke : option VectorStroke;
  effects : option LayerEffects
}.

(** Induction over a layer tree: the children of a layer satisfy the
    property before the layer does. *)
Section LayerInd.
Variable P : Layer -> Prop.
Hypothesis step : forall l,
    (forall cs, children l = Some cs -> Forall P cs) -> P l.

Fixpoint Layer_tree_ind (l : Layer) : P l :=
    step l
      (match l as l0
             return forall cs, children l0 = Some cs -> Forall P cs with
       | mkLayer _ _ _ _ _ _ _ _ ch _ _ _ _ _ =>
           fun cs (E : ch = Some cs) =>
             match E in (_ = o) return
                   match o with Some cs' => Forall P cs' | None => True end
             with
             | eq_refl =>
                 match ch as ch0 return
                       match ch0 with Some cs' => Forall P cs' | None => True end
                 with
                 | Some cs0 =>
                     (fix all (ls : list Layer) : Forall P ls :=
                        match ls with
                        | [] => Forall_nil P
                        | x :: ls' => Forall_cons x (Layer_tree_ind x) (all ls')
                        end) cs0
                 | None => I
                 end
             end
       end).
End LayerInd.

End Psd.

(* ================================================================== *)
(** * Colour conversion *)
(* ================================================================== *)

Section ColorConversion.
Import Js.
Local Open Scope float_scope.

(** [typeof v === "number"] for a field that, when present, is a number. *)
Definition typeof_number (v : option float) : bool :=
  match v with
  | Some _ => true
  | None => false
  end.

(** ["field" in object]. *)
Definition has_field {A : Type} (v : option A) : bool :=
  match v with
  | Some _ => true
  | None => false
  end.

(** [Math.round(x).toString(16).padStart(2, "0")]. *)
Definition hex2 (x : integral) : string :=
  padStart0 2 (toString16 x).

(** Helper: colour to hex, as used for the text fill colour. *)
Definition colorToHex (color : option Color.t) : option string :=
  match color with
  | None => None
  | Some color =>
      if typeof_number (Color.fr color) then
        let r := hex2 (Math_round (ToNumber (Color.fr color) * 255)) in
        let g := hex2 (Math_round (ToNumber (Color.fg color) * 255)) in
        let b := hex2 (Math_round (ToNumber (Color.fb color) * 255)) in
        Some ("#" ++ r ++ g ++ b)%string
      else if typeof_number (Color.r color) then
        let r := hex2 (Math_round (ToNumber (Color.r color))) in
        let g := hex2 (Math_round (ToNumber (Color.g color))) in
        let b := hex2 (Math_round (ToNumber (Color.b color))) in
        Some ("#" ++ r ++ g ++ b)%string
      else None
  end.

(** The Lab branch: one output channel from the scaled XYZ triple. *)
Definition lab_channel (cx cy cz xr yr zr : float) : integral :=
  Math_round (Math_max 0 (Math_min 255 ((xr * cx + yr * cy + zr * cz) * 255))).

Definition lab_f (t : float) : float :=
  let t3 := t * t * t in
  if 0.008856 <? t3 then t3 else (t - 16 / 116) / 7.787.

(** The values assigned to [r], [g] and [b] by the encoding chain of
    [anyColorToHex]; [None] is the [return null] of its last [else]. *)
Definition anyColor_channels (color : Color.t)
  : option (integral * integral * integral) :=
  if typeof_number (Color.fr color) then
    Some (Math_round (ToNumber (Color.fr color) * 255),
          Math_round (ToNumber (Color.fg color) * 255),
          Math_round (ToNumber (Color.fb color) * 255))
  else if typeof_number (Color.r color) then
    Some (Math_round (ToNumber (Color.r color)),
          Math_round (ToNumber (Color.g color)),
          Math_round (ToNumber (Color.b color)))
  else if typeof_number (Color.k color) && negb (has_field (Color.c color)) then
    let gray := Math_round ((1 - ToNumber (Color.k color)) * 255) in
    Some (gray, gray, gray)
  else if typeof_number (Color.h color) && typeof_number (Color.s color)
          && typeof_number (Color.b color) then
    let h := ToNumber (Color.h color) / 360 in
    let s := ToNumber (Color.s color) in
    let v := ToNumber (Color.b color) in
    let i := Math_floor (h * 6) in
    let f := h * 6 - i in
    let p := v * (1 - s) in
    let q := v * (1 - f * s) in
    let t := v * (1 - (1 - f) * s) in
    let '(r, g, b) :=
      match rem i 6 with
      | Some 0%Z => (v * 255, t * 255, p * 255)
      | Some 1%Z => (q * 255, v * 255, p * 255)
      | Some 2%Z => (p * 255, v * 255, t * 255)
      | Some 3%Z => (p * 255, q * 255, v * 255)
      | Some 4%Z => (t * 255, p * 255, v * 255)
      | Some 5%Z => (v * 255, p * 255, q * 255)
      | _ => (0, 0, 0)
      end in
    Some (Math_round r, Math_round g, Math_round b)
  else if typeof_number (Color.l color) && typeof_number (Color.a color) then
    let y := (ToNumber (Color.l color) + 16) / 116 in
    let x := ToNumber (Color.a color) / 500 + y in
    let z := y - ToNumber (Color.b color) / 200 in
    let xn := lab_f x in
    let yn := lab_f y in
    let zn := lab_f z in
    let xr := xn * 0.95047 in
    let yr := yn * 1.0 in
    let zr := zn * 1.08883 in
    Some (lab_channel 3.2406 (-1.5372) (-0.4986) xr yr zr,
          lab_channel (-0.9689) 1.8758 0.0415 xr yr zr,
          lab_channel 0.0557 (-0.204) 1.057 xr yr zr)
  else if typeof_number (Color.c color) && typeof_number (Color.m color)
          && typeof_number (Color.y color) && typeof_number (Color.k color) then
    Some (Math_round (255 * (1 - ToNumber (Color.c color)) * (1 - ToNumber (Color.k color))),
          Math_round (255 * (1 - ToNumber (Color.m color)) * (1 - ToNumber (Color.k color))),
          Math_round (255 * (1 - ToNumber (Color.y color)) * (1 - ToNumber (Color.k color))))
  else None.

(** [Math.max(0, Math.min(255, r))]. *)
Definition clamp255 (r : integral) : integral :=
  Integral.max (IInt 0) (Integral.min (IInt 255) r).

(** Convert any colour to hex. *)
Definition anyColorToHex (color : option Color.t) : option string :=
  match color with
  | None => None
  | Some color =>
      match anyColor_channels color with
      | None => None
      | Some (r, g, b) =>
          let r := clamp255 r in
          let g := clamp255 g in
          let b := clamp255 b in
          Some (toUpperCase ("#" ++ hex2 r ++ hex2 g ++ hex2 b))
      end
  end.

End ColorConversion.

(* ================================================================== *)
(** * The canonical layer tree *)
(* ================================================================== *)

Module LayerType.
Inductive t : Type := text | image | shape | group | unknown.
End LayerType.

Record Bounds : Type := {
  left : float;
  top : float;
  width : float;
  height : float
}.

Record TextInfo : Type := {
  content : string;
  font : option string;
  fontSize : option float;
  color : option string;
  lineHeight : option float;
  letterSpacing : option float
}.

Inductive LayerInfo : Type := mkLayerInfo {
  name : string;
  type : LayerType.t;
  visible : bool;
  opacity : float;
  bounds : Bounds;
  text : option TextInfo;
  children : option (list LayerInfo)
}.

(** Induction over a canonical tree. *)
Section LayerInfoInd.
Variable P : LayerInfo -> Prop.
Hypothesis step : forall l,
  (forall cs, children l = Some cs -> Forall P cs) -> P l.

Fixpoint LayerInfo_tree_ind (l : LayerInfo) : P l :=
  step l
    (match l as l0
           return forall cs, children l0 = Some cs -> Forall P cs with
     | mkLayerInfo _ _ _ _ _ _ ch =>
         fun cs (E : ch = Some cs) =>
           match E in (_ = o) return
                 match o with Some cs' => Forall P cs' | None => True end
           with
           | eq_refl =>
               match ch as ch0 return
                     match ch0 with Some cs' => Forall P cs' | None => True end
               with
               | Some cs0 =>
                   (fix all (ls : list LayerInfo) : Forall P ls :=
                      match ls with
                      | [] => Forall_nil P
                      | x :: ls' => Forall_cons x (LayerInfo_tree_ind x) (all ls')
                      end) cs0
               | None => I
               end
           end
     end).
End LayerInfoInd.

(** [v ?? 0]. *)
Definition nullish0 (v : option float) : float :=
  match v with
  | Some x => x
  | None => 0%float
  end.

Definition truthy_bool (v : option bool) : bool :=
  match v with
  | Some true => true
  | _ => false
  end.

(** [layer.children && layer.children.length > 0]. *)
Definition has_children (l : Psd.Layer) : bool :=
  match Psd.children l with
  | Some (_ :: _) => true
  | _ => false
  end.

(** The [textInfo] object built for a text layer. *)
Definition textInfoOf (t : Psd.LayerTextData) : TextInfo :=
  let style := Psd.style t in
  {| content := Js.or_string (Psd.text_text t) "";
     font := match style with
             | Some st => match Psd.font st with
                          | Some f => Psd.Font_name f
                          | None => None
                          end
             | None => None
             end;
     fontSize := match style with Some st => Psd.fontSize st | None => None end;
     color := colorToHex
                (match style with Some st => Psd.fillColor st | None => None end);
     lineHeight := match style with Some st => Psd.leading st | None => None end;
     letterSpacing := match style with Some st => Psd.tracking st | None => None end
  |}.

(** Determine the layer type: the [if] / [else if] chain. *)
Definition layerTypeOf (layer : Psd.Layer) : LayerType.t :=
  if has_field (Psd.text layer) then LayerType.text
  else if has_children layer then LayerType.group
  else if Psd.canvas layer then LayerType.image
  else if has_field (Psd.vectorMask layer) || has_field (Psd.vectorStroke layer)
  then LayerType.shape
  else LayerType.unknown.

(** Extract layer info recursively. *)
Fixpoint extractLayerInfo (layer : Psd.Layer) : LayerInfo :=
  let bounds :=
    {| left := nullish0 (Psd.left layer);
       top := nullish0 (Psd.top layer);
       width := (nullish0 (Psd.right layer) - nullish0 (Psd.left layer))%float;
       height := (nullish0 (Psd.bottom layer) - nullish0 (Psd.top layer))%float |} in
  {| name := Js.or_string (Psd.name layer) "Unnamed";
     type := layerTypeOf layer;
     visible := negb (truthy_bool (Psd.hidden layer));
     opacity := match Psd.opacity layer with
                | Some o => (o / 255)%float
                | None => 1%float
                end;
     bounds := bounds;
     text := match Psd.text layer with
             | Some t => Some (textInfoOf t)
             | None => None
             end;
     children := match Psd.children layer with
                 | Some ((_ :: _) as cs) => Some (map extractLayerInfo cs)
                 | _ => None
                 end
  |}.

(** The [layers] of [parsePsdFile]: [psd.children?.map(extractLayerInfo) || []]. *)
Definition buildLayers (psd_children : option (list Psd.Layer)) : list LayerInfo :=
  match psd_children with
  | Some cs => map extractLayerInfo cs
  | None => []
  end.

(* ================================================================== *)
(** * Vector export *)
(* ================================================================== *)

(** The outcome of a function that may [throw]. *)
Inductive completion (A : Type) : Type :=
| Normal (result : A)
| Throw (message : string).
Arguments Normal {A} result.
Arguments Throw {A} message.

Section VectorExport.
Import Js.
Variable dtoa : float -> string.

(** Convert [VectorContent] colour to a CSS colour string. *)
Definition vectorContentToColor (content : option Psd.VectorContent)
  : option string :=
  match content with
  | None => None
  | Some (Psd.VColor color) =>
      if has_field (Color.r color) then
        Some ("rgb(" ++ integral_toString dtoa (Math_round (ToNumber (Color.r color)))
              ++ ", " ++ integral_toString dtoa (Math_round (ToNumber (Color.g color)))
              ++ ", " ++ integral_toString dtoa (Math_round (ToNumber (Color.b color)))
              ++ ")")
      else None
  | Some _ => None
  end.

(** [knot.points[i]]; an index past the end reads [undefined]. *)
Definition point (knot : Psd.Knot) (i : nat) : float :=
  nth i (Psd.points knot) nan.

(** [knots[i]]. *)
Definition knot_at (knots : list Psd.Knot) (i : nat) : Psd.Knot :=
  nth i knots {| Psd.points := [] |}.

Definition scale (extent : float) (v : float) : string :=
  toFixed2 dtoa (v * extent)%float.

(** The body of the inner loop for index [i]: one cubic curve. *)
Definition curveCommand (knots : list Psd.Knot) (width height : float)
  (i : nat) : string :=
  let currentKnot := knot_at knots i in
  let nextKnot := knot_at knots ((i + 1) mod List.length knots) in
  let cp1x := scale width (point currentKnot 4) in
  let cp1y := scale height (point currentKnot 5) in
  let cp2x := scale width (point nextKnot 0) in
  let cp2y := scale height (point nextKnot 1) in
  let endX := scale width (point nextKnot 2) in
  let endY := scale height (point nextKnot 3) in
  "C " ++ cp1x ++ " " ++ cp1y ++ ", " ++ cp2x ++ " " ++ cp2y
       ++ ", " ++ endX ++ " " ++ endY.

(** [for (let i = ...; i < knots.length; i++)], with the [break] on the
    last index of an open path; [fuel] bounds the iterations left. *)
Fixpoint curveLoop (knots : list Psd.Knot) (open : bool)
  (width height : float) (i fuel : nat) : list string :=
  match fuel with
  | O => []
  | S fuel' =>
      if (i <? List.length knots)%nat then
        if open && (i =? List.length knots - 1)%nat then []
        else curveCommand knots width height i
               :: curveLoop knots open width height (S i) fuel'
      else []
  end.

(** What one iteration of the outer loop pushes onto [pathData]. *)
Definition pathCommands (bezierPath : Psd.BezierPath) (width height : float)
  : list string :=
  let knots := Psd.knots bezierPath in
  match knots with
  | [] => []
  | firstKnot :: _ =>
      let startX := scale width (point firstKnot 2) in
      let startY := scale height (point firstKnot 3) in
      ("M " ++ startX ++ " " ++ startY)
        :: curveLoop knots (Psd.open bezierPath) width height 0 (List.length knots)
        ++ (if negb (Psd.open bezierPath) then ["Z"] else [])
  end.

(** Convert Bezier paths to SVG path data. *)
Definition bezierPathsToSvgPath (paths : list Psd.BezierPath)
  (width height : float) : string :=
  join " " (flat_map (fun p => pathCommands p width height) paths).

(** [layer.name?.toLowerCase().includes(name.toLowerCase())]. *)
Fixpoint includes (s sub : string) : bool :=
  if String.prefix sub s then true
  else match s with
       | EmptyString => false
       | String _ s' => includes s' sub
       end.

Definition name_includes (layer_name : option string) (name : string) : bool :=
  match layer_name with
  | Some n => includes (toLowerCase n) (toLowerCase name)
  | None => false
  end.

(** Find vector layer by name: the body of the loop for one layer, then
    the loop. *)
Fixpoint findVectorLayer_in (name : string) (layer : Psd.Layer)
  : option Psd.Layer :=
  if name_includes (Psd.name layer) name && has_field (Psd.vectorMask layer)
  then Some layer
  else
    match Psd.children layer with
    | Some cs =>
        (fix loop (layers : list Psd.Layer) : option Psd.Layer :=
           match layers with
           | [] => None
           | l :: rest =>
               match findVectorLayer_in name l with
               | Some found => Some found
               | None => loop rest
               end
           end) cs
    | None => None
    end.

Fixpoint findVectorLayer (layers : list Psd.Layer) (name : string)
  : option Psd.Layer :=
  match layers with
  | [] => None
  | layer :: rest =>
      match findVectorLayer_in name layer with
      | Some found => Some found
      | None => findVectorLayer rest name
      end
  end.

(** Get all vector layers, in the order [traverse] pushes them. *)
Fixpoint getAllVectorLayers_in (layer : Psd.Layer) : list Psd.Layer :=
  (if has_field (Psd.vectorMask layer) then [layer] else [])
    ++ match Psd.children layer with
       | Some cs => flat_map getAllVectorLayers_in cs
       | None => []
       end.

Definition getAllVectorLayers (layers : list Psd.Layer) : list Psd.Layer :=
  flat_map getAllVectorLayers_in layers.

(** The value interpolated into the [fill] attribute. *)
Definition fillAttribute (layer : Psd.Layer) : string :=
  let fillColor :=
    match vectorContentToColor (Psd.vectorFill layer) with
    | Some c => if (c =? "")%string then "#000000" else c
    | None => "#000000"
    end in
  if has_field (Psd.vectorFill layer) then fillColor else "none".

(** The lines of the SVG document. *)
Definition svgParts (layer : Psd.Layer) (mask : Psd.VectorMask)
  (width height : float) : list string :=
  let svgPath := bezierPathsToSvgPath (Psd.paths mask) width height in
  let stroke := Psd.vectorStroke layer in
  let strokeColor :=
    match stroke with
    | Some st => match Psd.content st with
                 | Some c => vectorContentToColor (Some c)
                 | None => None
                 end
    | None => None
    end in
  let strokeWidth :=
    or_zero (match stroke with
             | Some st => option_map Psd.value (Psd.lineWidth st)
             | None => None
             end) in
  let strokeEnabled :=
    negb (match stroke with
          | Some st => match Psd.strokeEnabled st with
                       | Some false => true
                       | _ => false
                       end
          | None => false
          end)
    && (0 <? strokeWidth)%float in
  let lineCapType := match stroke with Some st => Psd.lineCapType st | None => None end in
  let lineJoinType := match stroke with Some st => Psd.lineJoinType st | None => None end in
  let w := Number_toString dtoa width in
  let h := Number_toString dtoa height in
  [ "<?xml version=" ++ dquote ++ "1.0" ++ dquote ++ " encoding=" ++ dquote
      ++ "UTF-8" ++ dquote ++ "?>";
    "<svg xmlns=" ++ dquote ++ "http://www.w3.org/2000/svg" ++ dquote
      ++ " width=" ++ dquote ++ w ++ dquote
      ++ " height=" ++ dquote ++ h ++ dquote
      ++ " viewBox=" ++ dquote ++ "0 0 " ++ w ++ " " ++ h ++ dquote ++ ">";
    "  <path d=" ++ dquote ++ svgPath ++ dquote;
    "        fill=" ++ dquote ++ fillAttribute layer ++ dquote ]
  ++ (if strokeEnabled && truthy_string strokeColor then
        [ "        stroke=" ++ dquote ++ or_string strokeColor "" ++ dquote;
          "        stroke-width=" ++ dquote ++ Number_toString dtoa strokeWidth ++ dquote ]
        ++ (if truthy_string lineCapType
            then ["        stroke-linecap=" ++ dquote ++ or_string lineCapType "" ++ dquote]
            else [])
        ++ (if truthy_string lineJoinType
            then ["        stroke-linejoin=" ++ dquote ++ or_string lineJoinType "" ++ dquote]
            else [])
      else [])
  ++ [ "  />"; "</svg>" ].

Definition newline : string := String (ascii_of_nat 10) EmptyString.

(** Convert a vector layer to an SVG string. *)
Definition vectorLayerToSvg (layer : Psd.Layer) (width height : float)
  : completion string :=
  match Psd.vectorMask layer with
  | None => Throw "Layer does not have vector data"
  | Some mask => Normal (join newline (svgParts layer mask width height))
  end.

End VectorExport.

(* ================================================================== *)
(** * Arrays *)
(* ================================================================== *)

Section Arrays.
Context {A : Type}.

(** [array.forEach((x, i) => ...)] where the callback pushes onto an
    output array: the pushes, in order. *)
Fixpoint forEach_from {B : Type} (f : A -> nat -> list B) (i : nat)
  (xs : list A) : list B :=
  match xs with
  | [] => []
  | x :: rest => f x i ++ forEach_from f (S i) rest
  end.

Definition forEach {B : Type} (f : A -> nat -> list B) (xs : list A) : list B :=
  forEach_from f 0 xs.

(** [Array.prototype.sort].  The language fixes the outcome of a sort
    whose comparison is a consistent ordering: the elements in ascending
    order, elements that compare equal in their original order.  The
    model is the insertion sort with that outcome; [gt x y] says that the
    comparison puts [x] after [y]. *)
Variable gt : A -> A -> bool.

Fixpoint sort_insert (x : A) (sorted : list A) : list A :=
  match sorted with
  | [] => [x]
  | y :: rest => if gt x y then y :: sort_insert x rest else x :: y :: rest
  end.

Definition Array_sort (xs : list A) : list A :=
  fold_right sort_insert [] xs.

End Arrays.

(** [[...new Set(xs)]]: the distinct strings in order of first occurrence. *)
Fixpoint Set_values (xs : list string) : list string :=
  match xs with
  | [] => []
  | x :: rest => x :: filter (fun y => negb (y =? x)%string) (Set_values rest)
  end.

(** [xs.sort()] on strings: ascending by code units. *)
Definition sort_strings (xs : list string) : list string :=
  Array_sort (fun x y => String.ltb y x) xs.

(* ================================================================== *)
(** * Colour extraction *)
(* ================================================================== *)

Record Rgb : Type := { rgb_r : Js.integral; rgb_g : Js.integral; rgb_b : Js.integral }.

Record ExtractedColor : Type := {
  hex : string;
  rgb : Rgb;
  source : string;
  layerName : string
}.

Record GradientInfo : Type := {
  gradientName : option string;
  colors : list string;
  gradientSource : string;
  gradientLayerName : string
}.

Record ColorPalette : Type := {
  solidColors : list ExtractedColor;
  gradients : list GradientInfo;
  uniqueColors : list string
}.

Section ColorExtraction.
Import Js.

Definition hex_digit_value (c : ascii) : option Z :=
  let n := Z.of_N (N_of_ascii c) in
  if (48 <=? n) && (n <=? 57) then Some (n - 48)
  else if (65 <=? n) && (n <=? 70) then Some (n - 55)
  else if (97 <=? n) && (n <=? 102) then Some (n - 87)
  else None.

Fixpoint parse_hex_prefix (s : string) (acc : option Z) : option Z :=
  match s with
  | EmptyString => acc
  | String c s' =>
      match hex_digit_value c with
      | Some d =>
          parse_hex_prefix s' (Some (16 * match acc with Some a => a | None => 0 end + d))
      | None => acc
      end
  end.

(** [parseInt(s, 16)] on a slice of a colour string (no sign, blank or
    [0x] prefix occurs there): the longest prefix of hex digits, [NaN]
    when it is empty. *)
Definition parseInt16 (s : string) : integral :=
  match parse_hex_prefix s None with
  | Some z => IInt z
  | None => INaN
  end.

(** [hex.slice(from, to)]. *)
Definition slice (from to : nat) (s : string) : string :=
  substring from (to - from) s.

(** The [layerName] argument of [extractColorsFromLayer]. *)
Variable layer_name : string.

Definition addColor (color : option Color.t) (source : string)
  : list ExtractedColor :=
  match anyColorToHex color with
  | Some hex =>
      let r := parseInt16 (slice 1 3 hex) in
      let g := parseInt16 (slice 3 5 hex) in
      let b := parseInt16 (slice 5 7 hex) in
      [ {| hex := hex; rgb := {| rgb_r := r; rgb_g := g; rgb_b := b |};
           source := source; layerName := layer_name |} ]
  | None => []
  end.

Fixpoint filter_some {B : Type} (xs : list (option B)) : list B :=
  match xs with
  | [] => []
  | Some x :: rest => x :: filter_some rest
  | None :: rest => filter_some rest
  end.

Definition addGradient (gradient : option Psd.Gradient) (source : string)
  : list GradientInfo :=
  match gradient with
  | Some g =>
      match Psd.colorStops g with
      | Some stops =>
          let gradientColors :=
            filter_some (map (fun stop => anyColorToHex (Psd.stop_color stop)) stops) in
          match gradientColors with
          | _ :: _ =>
              [ {| gradientName := Psd.gradient_name g; colors := gradientColors;
                   gradientSource := source; gradientLayerName := layer_name |} ]
          | [] => []
          end
      | None => []
      end
  | None => []
  end.

(** [`base${i > 0 ? `-${i + 1}` : ""}`]. *)
Definition indexed (base : string) (i : nat) : string :=
  base ++ (if (0 <? i)%nat then "-" ++ N_toString 10 (N.of_nat (i + 1)) else "").

(** [effect.enabled !== false]. *)
Definition not_disabled (e : Psd.Effect) : bool :=
  match Psd.enabled e with
  | Some false => false
  | _ => true
  end.

Definition effect_list (v : option (list Psd.Effect)) : list Psd.Effect :=
  match v with
  | Some es => es
  | None => []
  end.

(** An array of effects whose entries carry a colour. *)
Definition colorEffects (v : option (list Psd.Effect)) (base : string)
  : list ExtractedColor :=
  forEach (fun e i =>
             if not_disabled e && has_field (Psd.effect_color e)
             then addColor (Psd.effect_color e) (indexed base i)
             else []) (effect_list v).

(** A single effect that carries a colour. *)
Definition colorEffect (v : option Psd.Effect) (source : string)
  : list ExtractedColor :=
  match v with
  | Some e =>
      if not_disabled e && has_field (Psd.effect_color e)
      then addColor (Psd.effect_color e) source
      else []
  | None => []
  end.

(** The pushes onto [colors], in order. *)
Definition layerColors (layer : Psd.Layer) : list ExtractedColor :=
  let fill :=
    match Psd.text layer with
    | Some t => match Psd.style t with
                | Some st => Psd.fillColor st
                | None => None
                end
    | None => None
    end in
  (if has_field fill then addColor fill "text" else [])
  ++ match Psd.vectorFill layer with
     | Some (Psd.VColor c) => addColor (Some c) "vector-fill"
     | _ => []
     end
  ++ match Psd.vectorStroke layer with
     | Some st => match Psd.content st with
                  | Some (Psd.VColor c) => addColor (Some c) "vector-stroke"
                  | _ => []
                  end
     | None => []
     end
  ++ match Psd.effects layer with
     | Some effects =>
         colorEffects (Psd.dropShadow effects) "drop-shadow"
         ++ colorEffects (Psd.innerShadow effects) "inner-shadow"
         ++ colorEffect (Psd.outerGlow effects) "outer-glow"
         ++ colorEffect (Psd.innerGlow effects) "inner-glow"
         ++ colorEffects (Psd.solidFill effects) "color-overlay"
         ++ colorEffects (Psd.stroke effects) "stroke-effect"
         ++ colorEffect (Psd.satin effects) "satin"
     | None => []
     end.

(** An array of effects whose entries carry a gradient. *)
Definition gradientEffects (v : option (list Psd.Effect)) (base : string)
  : list GradientInfo :=
  forEach (fun e i =>
             if not_disabled e && has_field (Psd.effect_gradient e)
             then addGradient (Psd.effect_gradient e) (indexed base i)
             else []) (effect_list v).

(** ["colorStops" in content], for a content that is not a solid colour. *)
Definition gradientContent (content : option Psd.VectorContent)
  : option Psd.Gradient :=
  match content with
  | Some (Psd.VGradient g) => if has_field (Psd.colorStops g) then Some g else None
  | _ => None
  end.

(** The pushes onto [gradients], in order. *)
Definition layerGradients (layer : Psd.Layer) : list GradientInfo :=
  addGradient (gradientContent (Psd.vectorFill layer)) "vector-fill-gradient"
  ++ match Psd.vectorStroke layer with
     | Some st => addGradient (gradientContent (Psd.content st)) "vector-stroke-gradient"
     | None => []
     end
  ++ match Psd.effects layer with
     | Some effects =>
         gradientEffects (Psd.stroke effects) "stroke-gradient"
         ++ gradientEffects (Psd.gradientOverlay effects) "gradient-overlay"
     | None => []
     end.

End ColorExtraction.

(** Extract all colours from a layer. *)
Definition extractColorsFromLayer (layer : Psd.Layer) (layerName : string)
  : list ExtractedColor * list GradientInfo :=
  (layerColors layerName layer, layerGradients layerName layer).

(** [traverse]: the layer itself, then its children. *)
Fixpoint traverseColors (layer : Psd.Layer)
  : list ExtractedColor * list GradientInfo :=
  let '(colors, gradients) :=
    extractColorsFromLayer layer (Js.or_string (Psd.name layer) "Unnamed") in
  match Psd.children layer with
  | Some cs =>
      ((colors ++ flat_map (fun c => fst (traverseColors c)) cs)%list,
       (gradients ++ flat_map (fun c => snd (traverseColors c)) cs)%list)
  | None => (colors, gradients)
  end.

(** Extract all colours from the document. *)
Definition extractAllColors (layers : list Psd.Layer) : ColorPalette :=
  let allColors := flat_map (fun l => fst (traverseColors l)) layers in
  let allGradients := flat_map (fun l => snd (traverseColors l)) layers in
  {| solidColors := allColors;
     gradients := allGradients;
     uniqueColors := sort_strings (Set_values (map hex allColors)) |}.

(* ================================================================== *)
(** * The layer index *)
(* ================================================================== *)

(** Get text layers only (flattened): the layer, then its children. *)
Fixpoint getTextLayers_in (layer : LayerInfo) : list LayerInfo :=
  (match type layer with
   | LayerType.text => [layer]
   | _ => []
   end)
  ++ match children layer with
     | Some cs => flat_map getTextLayers_in cs
     | None => []
     end.

Definition getTextLayers (layers : list LayerInfo) : list LayerInfo :=
  flat_map getTextLayers_in layers.

(** [{ ...l, children: cs }]. *)
Definition with_children (l : LayerInfo) (cs : option (list LayerInfo))
  : LayerInfo :=
  {| name := name l; type := type l; visible := visible l;
     opacity := opacity l; bounds := bounds l; text := text l;
     children := cs |}.

(** The synthetic node that stands for [n] elided children. *)
Definition placeholder (n : nat) : LayerInfo :=
  {| name := "... (" ++ Js.N_toString 10 (N.of_nat n) ++ " children)";
     type := LayerType.unknown;
     visible := true;
     opacity := 1%float;
     bounds := {| left := 0%float; top := 0%float;
                  width := 0%float; height := 0%float |};
     text := None;
     children := None |}.

(** Apply the depth limit: one element of [layers.map(...)].  The depth
    argument of the tool is a count of levels. *)
Fixpoint limitDepth_in (currentDepth maxDepth : nat) (l : LayerInfo)
  : LayerInfo :=
  if (maxDepth <=? currentDepth)%nat then
    with_children l
      (match children l with
       | Some ((_ :: _) as cs) => Some [placeholder (List.length cs)]
       | _ => None
       end)
  else
    with_children l
      (match children l with
       | Some cs => Some (map (limitDepth_in (S currentDepth) maxDepth) cs)
       | None => None
       end).

Definition limitDepth (layers : list LayerInfo) (currentDepth maxDepth : nat)
  : list LayerInfo :=
  map (limitDepth_in currentDepth maxDepth) layers.

(** The layers shown by [list_layers]: [depth ? limitDepth(...) : layers]. *)
Definition layersToShow (layers : list LayerInfo) (depth : option nat)
  : list LayerInfo :=
  match depth with
  | Some (S _ as d) => limitDepth layers 0 d
  | _ => layers
  end.

(* ================================================================== *)
(** * The hero section *)
(* ================================================================== *)

Record Categorized : Type := {
  documentSize : float * float;
  heading : option LayerInfo;
  subheading : option LayerInfo;
  body : list LayerInfo;
  cta : list LayerInfo
}.

(** [findGroup]: the children of the first layer whose name matches, or
    the layer alone when it has none. *)
Fixpoint findGroup_in (heroGroupName : string) (layer : LayerInfo)
  : option (list LayerInfo) :=
  if includes (Js.toLowerCase (name layer)) (Js.toLowerCase heroGroupName) then
    match children layer with
    | Some cs => Some cs
    | None => Some [layer]
    end
  else
    match children layer with
    | Some cs =>
        (fix loop (layers : list LayerInfo) : option (list LayerInfo) :=
           match layers with
           | [] => None
           | l :: rest =>
               match findGroup_in heroGroupName l with
               | Some found => Some found
               | None => loop rest
               end
           end) cs
    | None => None
    end.

Fixpoint findGroup (heroGroupName : string) (layers : list LayerInfo)
  : option (list LayerInfo) :=
  match layers with
  | [] => None
  | layer :: rest =>
      match findGroup_in heroGroupName layer with
      | Some found => Some found
      | None => findGroup heroGroupName rest
      end
  end.

(** [a.text?.fontSize || 0]. *)
Definition sizeOf (a : LayerInfo) : float :=
  Js.or_zero (match text a with
              | Some t => fontSize t
              | None => None
              end).

(** The comparison function of the sort: [sizeB - sizeA]. *)
Definition compareBySize (a b : LayerInfo) : float :=
  (sizeOf b - sizeOf a)%float.

(** The comparison puts [a] after [b] when its result is positive; a
    [NaN] result counts as zero. *)
Definition sortsAfter (a b : LayerInfo) : bool :=
  (0 <? compareBySize a b)%float.

Definition ctaKeywords : list string :=
  ["button"; "cta"; "btn"; "action"; "click"; "submit"].

(** The categorisation of [get_hero_section], from the scope on. *)
Definition categorize (size : float * float) (heroLayers : list LayerInfo)
  : Categorized :=
  let textLayers := getTextLayers heroLayers in
  let sorted := Array_sort sortsAfter textLayers in
  {| documentSize := size;
     heading := nth_error sorted 0;
     subheading := nth_error sorted 1;
     body := if (2 <? List.length sorted)%nat then skipn 2 sorted else [];
     cta := filter (fun layer =>
                      existsb (fun kw => includes (Js.toLowerCase (name layer)) kw)
                              ctaKeywords)
                   heroLayers |}.

(** The [get_hero_section] tool on a parsed document. *)
Definition get_hero_section (size : float * float) (layers : list LayerInfo)
  (heroGroupName : option string) : Categorized :=
  let heroLayers :=
    if Js.truthy_string heroGroupName then
      match findGroup (Js.or_string heroGroupName "") layers with
      | Some found => found
      | None => layers
      end
    else layers in
  categorize size heroLayers.

(* ================================================================== *)
(** * File names *)
(* ================================================================== *)

(** The characters the first replacement of [sanitizeFilename] looks
    for: less-than, greater-than, colon, double quote, slash, backslash,
    vertical bar, question mark and asterisk. *)
Definition forbidden_char (c : ascii) : bool :=
  existsb (fun n => (N_of_ascii c =? n)%N) [60; 62; 58; 34; 47; 92; 124; 63; 42]%N.

(** The class [\s], among the 8-bit code units: tab, line feed, vertical
    tab, form feed, carriage return, space and no-break space. *)
Definition whitespace_char (c : ascii) : bool :=
  existsb (fun n => (N_of_ascii c =? n)%N) [9; 10; 11; 12; 13; 32; 160]%N.

(** The first replacement: each such character becomes an underscore. *)
Definition replace_forbidden (s : string) : string :=
  Js.map_string (fun c => if forbidden_char c then "_"%char else c) s.

(** The second replacement, of the pattern [\s+]: every maximal run of
    blanks becomes one underscore; [in_run] says that the previous
    character was a blank. *)
Fixpoint replace_blank_runs (in_run : bool) (s : string) : string :=
  match s with
  | EmptyString => EmptyString
  | String c s' =>
      if whitespace_char c then
        if in_run then replace_blank_runs true s'
        else String "_" (replace_blank_runs true s')
      else String c (replace_blank_runs false s')
  end.

(** Sanitize filename. *)
Definition sanitizeFilename (name : string) : string :=
  replace_blank_runs false (replace_forbidden name).

(* ================================================================== *)
(** * Image layers and groups *)
(* ================================================================== *)

(** Get all image layers (layers with canvas data): the layer, when it
    has a canvas and no [children] property, then its children. *)
Fixpoint getAllImageLayers_in (layer : Psd.Layer) : list Psd.Layer :=
  (if Psd.canvas layer && negb (has_field (Psd.children layer))
   then [layer] else [])
  ++ match Psd.children layer with
     | Some cs => flat_map getAllImageLayers_in cs
     | None => []
     end.

Definition getAllImageLayers (layers : list Psd.Layer) : list Psd.Layer :=
  flat_map getAllImageLayers_in layers.

(** [findGroup], as [getImageLayersFromGroup] and the handler of
    [export_all_vectors_as_svg] define it: the first layer whose name
    matches and that has a [children] property. *)
Fixpoint findGroupLayer_in (groupName : string) (layer : Psd.Layer)
  : option Psd.Layer :=
  if name_includes (Psd.name layer) groupName && has_field (Psd.children layer)
  then Some layer
  else
    match Psd.children layer with
    | Some cs =>
        (fix loop (layers : list Psd.Layer) : option Psd.Layer :=
           match layers with
           | [] => None
           | l :: rest =>
               match findGroupLayer_in groupName l with
               | Some found => Some found
               | None => loop rest
               end
           end) cs
    | None => None
    end.

Fixpoint findGroupLayer (layers : list Psd.Layer) (groupName : string)
  : option Psd.Layer :=
  match layers with
  | [] => None
  | layer :: rest =>
      match findGroupLayer_in groupName layer with
      | Some found => Some found
      | None => findGroupLayer rest groupName
      end
  end.

(** [group.children || []]. *)
Definition children_or_empty (layer : Psd.Layer) : list Psd.Layer :=
  match Psd.children layer with
  | Some cs => cs
  | None => []
  end.

(** Get image layers from a specific group. *)
Definition getImageLayersFromGroup (layers : list Psd.Layer)
  (groupName : string) : list Psd.Layer :=
  match findGroupLayer layers groupName with
  | Some group => getAllImageLayers (children_or_empty group)
  | None => []
  end.

(* ================================================================== *)
(** * Exporting every vector layer *)
(* ================================================================== *)

Section ExportAllVectors.
Variable dtoa : float -> string.




End ExportAllVectors.

(* ================================================================== *)
(** * Searching and printing the canonical tree *)
(* ================================================================== *)

(** The [match] of [findLayerByName]; [query] is its [name] argument. *)
Definition nameMatches (query : string) (exact : bool) (layer : LayerInfo)
  : bool :=
  if exact then (name layer =? query)%string
  else includes (Js.toLowerCase (name layer)) (Js.toLowerCase query).

(** Find layer by name (recursive search). *)
Fixpoint findLayerByName_in (query : string) (exact : bool) (layer : LayerInfo)
  : option LayerInfo :=
  if nameMatches query exact layer then Some layer
  else
    match children layer with
    | Some cs =>
        (fix loop (layers : list LayerInfo) : option LayerInfo :=
           match layers with
           | [] => None
           | l :: rest =>
               match findLayerByName_in query exact l with
               | Some found => Some found
               | None => loop rest
               end
           end) cs
    | None => None
    end.

Fixpoint findLayerByName (layers : list LayerInfo) (query : string)
  (exact : bool) : option LayerInfo :=
  match layers with
  | [] => None
  | layer :: rest =>
      match findLayerByName_in query exact layer with
      | Some found => Some found
      | None => findLayerByName rest query exact
      end
  end.

(** Search layers by name (returns all matches). *)
Fixpoint searchLayersByName_in (query : string) (layer : LayerInfo)
  : list LayerInfo :=
  (if includes (Js.toLowerCase (name layer)) (Js.toLowerCase query)
   then [layer] else [])
  ++ match children layer with
     | Some cs => flat_map (searchLayersByName_in query) cs
     | None => []
     end.

Definition searchLayersByName (layers : list LayerInfo) (query : string)
  : list LayerInfo :=
  flat_map (searchLayersByName_in query) layers.

Definition typeLabel (t : LayerType.t) : string :=
  match t with
  | LayerType.group => "(group)"
  | LayerType.text => "(text)"
  | LayerType.image => "(image)"
  | LayerType.shape => "(shape)"
  | LayerType.unknown => ""
  end.

(** The line of one layer. *)
Definition layerLine (prefix : string) (isLast : bool) (layer : LayerInfo)
  : string :=
  let connector := if isLast then "└── " else "├── " in
  let visibilityMark := if visible layer then "" else " [hidden]" in
  prefix ++ connector ++ name layer ++ " " ++ typeLabel (type layer)
         ++ visibilityMark.

Definition childPrefix (isLast : bool) : string :=
  if isLast then "    " else "│   ".

Definition is_last {A : Type} (rest : list A) : bool :=
  match rest with
  | [] => true
  | _ :: _ => false
  end.

(** Format layers as tree structure: what the callback pushes onto
    [lines] for one layer, [isLast] saying that it is the last of its
    array. *)
Fixpoint formatLayer (prefix : string) (isLast : bool) (layer : LayerInfo)
  : list string :=
  layerLine prefix isLast layer
  :: match children layer with
     | Some ((_ :: _) as cs) =>
         [ Js.join newline
             ((fix each (layers : list LayerInfo) : list string :=
                 match layers with
                 | [] => []
                 | l :: rest =>
                     (formatLayer (prefix ++ childPrefix isLast) (is_last rest) l
                      ++ each rest)%list
                 end) cs) ]
     | _ => []
     end.

Fixpoint formatLayers (prefix : string) (layers : list LayerInfo)
  : list string :=
  match layers with
  | [] => []
  | l :: rest =>
      (formatLayer prefix (is_last rest) l ++ formatLayers prefix rest)%list
  end.

Definition formatLayerTree (layers : list LayerInfo) (prefix : string)
  : string :=
  Js.join newline (formatLayers prefix layers).

(** The text of [list_layers]. *)
Definition list_layers (dtoa : float -> string) (size : float * float)
  (layers : list LayerInfo) (depth : option nat) : string :=
  "PSD: " ++ Js.Number_toString dtoa (fst size) ++ "x"
          ++ Js.Number_toString dtoa (snd size)
          ++ newline ++ newline ++ formatLayerTree (layersToShow layers depth) "".

(* ================================================================== *)
(** * The colour report *)
(* ================================================================== *)

Section ColorReport.
Import Js.

(** [`${n}`] for a length or an index. *)
Definition decimal (n : nat) : string := N_toString 10 (N.of_nat n).

(** [if (!xs.includes(x)) xs.push(x)]. *)
Definition pushNew (xs : list string) (x : string) : list string :=
  if existsb (String.eqb x) xs then xs else (xs ++ [x])%list.

(** An entry of [colorMap]. *)
Record ColorEntry : Type := {
  entrySources : list string;
  entryLayers : list string
}.

(** One iteration of the grouping loop on the [Map], kept as the list of
    its entries in insertion order. *)
Fixpoint recordColor (color : ExtractedColor)
  (colorMap : list (string * ColorEntry)) : list (string * ColorEntry) :=
  match colorMap with
  | [] =>
      [ (hex color, {| entrySources := [source color];
                       entryLayers := [layerName color] |}) ]
  | (key, entry) :: rest =>
      if (key =? hex color)%string then
        (key, {| entrySources := pushNew (entrySources entry) (source color);
                 entryLayers := pushNew (entryLayers entry) (layerName color) |})
          :: rest
      else (key, entry) :: recordColor color rest
  end.

(** Group by colour. *)
Definition groupByColor (solid : list ExtractedColor)
  : list (string * ColorEntry) :=
  fold_left (fun colorMap color => recordColor color colorMap) solid [].

Definition arrow : string := " → ".

Definition cssOutput (palette : ColorPalette) : string :=
  let colorLine (hex : string) (i : nat) : list string :=
    ["  --color-" ++ decimal (i + 1) ++ ": " ++ hex ++ ";"] in
  let gradientLine (grad : GradientInfo) (i : nat) : list string :=
    let gradientCss :=
      "linear-gradient(90deg, " ++ join ", " (colors grad) ++ ")" in
    ["  --gradient-" ++ decimal (i + 1) ++ ": " ++ gradientCss ++ ";"] in
  join newline
    ([":root {"]
     ++ forEach colorLine (uniqueColors palette)
     ++ [""]
     ++ forEach gradientLine (gradients palette)
     ++ ["}"])%list.

Definition colorLines (group : string * ColorEntry) : list string :=
  let '(hex, info) := group in
  [ "**" ++ hex ++ "**";
    "  Sources: " ++ join ", " (entrySources info);
    "  Layers: " ++ join ", " (firstn 3 (entryLayers info))
      ++ (if (3 <? List.length (entryLayers info))%nat
          then " (+" ++ decimal (List.length (entryLayers info) - 3) ++ " more)"
          else "");
    "" ].

Definition gradientLines (grad : GradientInfo) : list string :=
  [ "**" ++ or_string (gradientName grad) "Unnamed"
      ++ "** (" ++ gradientSource grad ++ ")";
    "  Colors: " ++ join arrow (colors grad);
    "  Layer: " ++ gradientLayerName grad;
    "" ].

Definition solidHeading : string := "## Solid Colors" ++ newline.
Definition gradientsHeading : string := newline ++ "## Gradients" ++ newline.

Definition detailedOutput (palette : ColorPalette) : string :=
  join newline
    ([solidHeading]
     ++ flat_map colorLines (groupByColor (solidColors palette))
     ++ match gradients palette with
        | [] => []
        | _ :: _ => [gradientsHeading] ++ flat_map gradientLines (gradients palette)
        end)%list.

Definition summaryHeading (palette : ColorPalette) : string :=
  "Found " ++ decimal (List.length (uniqueColors palette))
    ++ " unique color(s) and " ++ decimal (List.length (gradients palette))
    ++ " gradient(s)".

Definition summaryGradient (grad : GradientInfo) : string :=
  "- " ++ or_string (gradientName grad) "Unnamed" ++ ": "
       ++ join arrow (colors grad).

Definition summaryOutput (palette : ColorPalette) : string :=
  join newline
    ([summaryHeading palette; ""; "## Colors"]
     ++ map (String.append "- ") (uniqueColors palette)
     ++ match gradients palette with
        | [] => []
        | _ :: _ => [""; "## Gradients"] ++ map summaryGradient (gradients palette)
        end)%list.

(** The text of [extract_colors]; a missing [format] is ["summary"]. *)
Definition extract_colors (psd_children : option (list Psd.Layer))
  (format : option string) : string :=
  let palette :=
    extractAllColors (match psd_children with Some cs => cs | None => [] end) in
  match uniqueColors palette, gradients palette with
  | [], [] => "No colors found in this PSD file."
  | _, _ =>
      match format with
      | Some "css" => cssOutput palette
      | Some "detailed" => detailedOutput palette
      | _ => summaryOutput palette
      end
  end.

End ColorReport.

(* ================================================================== *)
(** * Vocabulary of the statements *)
(* ================================================================== *)

(** An uppercase hexadecimal digit. *)
Definition upper_hex_digit (c : ascii) : bool :=
  let n := N_of_ascii c in
  (((48 <=? n) && (n <=? 57)) || ((65 <=? n) && (n <=? 70)))%N%bool.

Fixpoint all_chars (p : ascii -> bool) (s : string) : bool :=
  match s with
  | EmptyString => true
  | String c s' => p c && all_chars p s'
  end.

(** Canonical hex: [#] followed by exactly six uppercase hex digits. *)
Definition canonical_hex (s : string) : bool :=
  match s with
  | String "#" digits => (String.length digits =? 6)%nat && all_chars upper_hex_digit digits
  | _ => false
  end.

Definition upper_hex_char (d : Z) : ascii :=
  if d <? 10 then ascii_of_N (Z.to_N (48 + d)) else ascii_of_N (Z.to_N (55 + d)).

(** The two uppercase hex digits of a byte. *)
Definition byte_hex (z : Z) : string :=
  String (upper_hex_char (z / 16)) (String (upper_hex_char (z mod 16)) EmptyString).



(** The two path commands, as the format describes them: a move to the
    anchor of a knot, and a cubic curve from a knot to its successor
    whose control points are the "next" point of the first knot and the
    "previous" point of the second, ending at the anchor of the second.
    Coordinates are scaled to the document and printed with two
    decimals. *)
Section PathVocabulary.
Variable dtoa : float -> string.
Variables width height : float.

Definition xText (v : float) : string := Js.toFixed2 dtoa (v * width)%float.
Definition yText (v : float) : string := Js.toFixed2 dtoa (v * height)%float.

Definition moveTo (k : Psd.Knot) : string :=
  "M " ++ xText (point k 2) ++ " " ++ yText (point k 3).

Definition curveTo (k k' : Psd.Knot) : string :=
  "C " ++ xText (point k 4) ++ " " ++ yText (point k 5)
  ++ ", " ++ xText (point k' 0) ++ " " ++ yText (point k' 1)
  ++ ", " ++ xText (point k' 2) ++ " " ++ yText (point k' 3).

End PathVocabulary.

(** The depth of a tree: a layer without children has depth 0, the
    top-level layers being at depth 0 as in [limitDepth]. *)
Fixpoint depth_in (l : LayerInfo) : nat :=
  match children l with
  | Some ((_ :: _) as cs) => S (list_max (map depth_in cs))
  | _ => 0%nat
  end.

Definition treeDepth (layers : list LayerInfo) : nat :=
  list_max (map depth_in layers).

(** The child layers of a node, whichever way their absence is written. *)
Definition childLayers (l : LayerInfo) : list LayerInfo :=
  match children l with
  | Some cs => cs
  | None => []
  end.

(** Two trees with the same nodes in the same arrangement. *)
Inductive same_tree : LayerInfo -> LayerInfo -> Prop :=
| same_tree_node (a b : LayerInfo) :
    name a = name b -> type a = type b -> visible a = visible b ->
    opacity a = opacity b -> bounds a = bounds b -> text a = text b ->
    Forall2 same_tree (childLayers a) (childLayers b) ->
    same_tree a b.

(** No node writes the absence of children as an empty array. *)
Inductive no_empty_children : LayerInfo -> Prop :=
| no_empty_children_node (l : LayerInfo) :
    children l <> Some [] ->
    Forall no_empty_children (childLayers l) ->
    no_empty_children l.

(** What [limitDepth] at the cut-off does to a node: every field but
    [children] is kept; children, if there are any, are replaced by the
    single placeholder for their number. *)
Definition cut_at (l l' : LayerInfo) : Prop :=
  name l' = name l /\ type l' = type l /\ visible l' = visible l
  /\ opacity l' = opacity l /\ bounds l' = bounds l /\ text l' = text l
  /\ match childLayers l with
     | [] => children l' = None
     | _ :: _ => children l' = Some [placeholder (List.length (childLayers l))]
     end.

(** The position of a Number in the order of the comparisons [<] and
    [<=]: the sign class, then exponent and mantissa ([NaN], which the
    comparisons never order, is given the position of zero). *)
Definition rank (x : spec_float) : Z * Z * Z :=
  match x with
  | S754_infinity true => (-2, 0, 0)
  | S754_finite true m e => (-1, - e, - Z.pos m)
  | S754_zero _ => (0, 0, 0)
  | S754_nan => (0, 0, 0)
  | S754_finite false m e => (1, e, Z.pos m)
  | S754_infinity false => (2, 0, 0)
  end.

Definition lex_lt (a b : Z * Z * Z) : Prop :=
  let '(a1, a2, a3) := a in
  let '(b1, b2, b3) := b in
  a1 < b1 \/ (a1 = b1 /\ (a2 < b2 \/ (a2 = b2 /\ a3 < b3))).

(** A finite number or an infinity of the given sign. *)
Definition signed_nonzero (s : bool) (x : spec_float) : Prop :=
  match x with
  | S754_finite s' _ _ | S754_infinity s' => s' = s
  | _ => False
  end.

(** [s] contains [sub]. *)
Definition contains (s sub : string) : Prop :=
  exists before after, s = before ++ sub ++ after.

(* ================================================================== *)
(** * Sample documents *)
(* ================================================================== *)

Module Sample.

(** A raw text layer with the given name, font size and fill colour. *)
Definition rawText (name : string) (size : option float)
  (fill : option Color.t) (children : option (list Psd.Layer)) : Psd.Layer :=
  Psd.mkLayer (Some name) None None None None None None
    (Some {| Psd.text_text := Some name;
             Psd.style := Some {| Psd.font := None; Psd.fontSize := size;
                                  Psd.fillColor := fill; Psd.leading := None;
                                  Psd.tracking := None |} |})
    children false None None None None.

(** A raw layer without text. *)
Definition rawLayer (name : string) (opacity : option float)
  (children : option (list Psd.Layer)) (mask : option Psd.VectorMask)
  (fill : option Psd.VectorContent) (effects : option Psd.LayerEffects)
  : Psd.Layer :=
  Psd.mkLayer (Some name) None opacity None None None None None children false
    mask fill None effects.

Definition leaf (name : string) : Psd.Layer :=
  rawLayer name None None None None None.

Definition knotA : Psd.Knot :=
  {| Psd.points := [0.1; 0.2; 0.25; 0.5; 0.3; 0.4]%float |}.
Definition knotB : Psd.Knot :=
  {| Psd.points := [0.6; 0.7; 0.75; 1; 0.8; 0.9]%float |}.

Definition closedPath : Psd.BezierPath :=
  {| Psd.open := false; Psd.knots := [knotA; knotB] |}.

Definition mask : Psd.VectorMask := {| Psd.paths := [closedPath] |}.

Definition linearGradient : Psd.Gradient :=
  {| Psd.gradient_name := Some "Sunset";
     Psd.colorStops := Some [ {| Psd.stop_color := Some (Color.RGB 255 0 0) |};
                              {| Psd.stop_color := Some (Color.RGB 0 0 255) |} ] |}.

(** A shape layer filled with a gradient. *)
Definition gradientShape : Psd.Layer :=
  rawLayer "Badge" None None (Some mask) (Some (Psd.VGradient linearGradient)) None.

(** A layer that matches the name "badge" but has no vector mask, above
    a child that has one. *)
Definition badgeGroup : Psd.Layer :=
  rawLayer "Badge group" None (Some [gradientShape]) None None None.

(** A canonical group holding two leaves, one of them a nested group. *)
Definition infoLeaf (name : string) : LayerInfo :=
  {| name := name; type := LayerType.image; visible := true;
     opacity := 1%float;
     bounds := {| left := 0%float; top := 0%float;
                  width := 10%float; height := 10%float |};
     text := None; children := None |}.

Definition infoGroup (name : string) (cs : list LayerInfo) : LayerInfo :=
  with_children (infoLeaf name) (Some cs).

Definition infoForest : list LayerInfo :=
  [ infoGroup "Header" [infoLeaf "Logo"; infoGroup "Nav" [infoLeaf "Home"]];
    infoLeaf "Background" ].

(** The layers of a hero section: three texts of sizes 12, 64 and 24 in
    document order, the last one inside a group, and a button. *)
Definition bodyCopy : Psd.Layer := rawText "Body copy" (Some 12%float) None None.
Definition headline : Psd.Layer := rawText "Headline" (Some 64%float) None None.
Definition tagline : Psd.Layer := rawText "Tagline" (Some 24%float) None None.
Definition submitButton : Psd.Layer := leaf "Submit Button".

Definition heroScope : list LayerInfo :=
  map extractLayerInfo
    [ bodyCopy; headline;
      rawLayer "Copy" None (Some [tagline]) None None None;
      submitButton ].

(** Two texts of the same size. *)
Definition tiedScope : list LayerInfo :=
  map extractLayerInfo
    [ rawText "First" (Some 24%float) None None;
      rawText "Second" (Some 24%float) None None;
      rawText "Untitled" None None None ].

(** Every digit string the samples need is an integer or has two
    decimals; the engine's generic rendering is not reached. *)
Definition no_dtoa (x : float) : string := "".

(** A text layer that also has a child. *)
Definition textWithChild : Psd.Layer :=
  rawText "Title" (Some 64%float) (Some (Color.RGB 26 26 26)) (Some [leaf "Glyph"]).

End Sample.

(* ================================================================== *)
(** * More vocabulary *)
(* ================================================================== *)

(** A character that [sanitizeFilename] leaves alone. *)
Definition clean_char (c : ascii) : bool :=
  negb (forbidden_char c) && negb (whitespace_char c).

(** The layers of a raw tree, in document order: a layer, then the
    layers below it. *)
Fixpoint rawNodes_in (l : Psd.Layer) : list Psd.Layer :=
  l :: match Psd.children l with
       | Some cs => flat_map rawNodes_in cs
       | None => []
       end.

Definition rawNodes (layers : list Psd.Layer) : list Psd.Layer :=
  flat_map rawNodes_in layers.

(** The layers of a canonical tree, in document order. *)
Fixpoint infoNodes_in (l : LayerInfo) : list LayerInfo :=
  l :: match children l with
       | Some cs => flat_map infoNodes_in cs
       | None => []
       end.

Definition infoNodes (layers : list LayerInfo) : list LayerInfo :=
  flat_map infoNodes_in layers.

(** The lines of a printed tree, one per layer: the line of a layer,
    then the lines of its children, indented. *)
Fixpoint treeLines_in (prefix : string) (isLast : bool) (l : LayerInfo)
  : list string :=
  layerLine prefix isLast l
  :: match children l with
     | Some cs =>
         (fix each (layers : list LayerInfo) : list string :=
            match layers with
            | [] => []
            | c :: rest =>
                (treeLines_in (prefix ++ childPrefix isLast) (is_last rest) c
                 ++ each rest)%list
            end) cs
     | None => []
     end.

Fixpoint treeLines (prefix : string) (layers : list LayerInfo) : list string :=
  match layers with
  | [] => []
  | l :: rest =>
      (treeLines_in prefix (is_last rest) l ++ treeLines prefix rest)%list
  end.

(** The list of an optional element. *)
Definition option_list {A : Type} (v : option A) : list A :=
  match v with
  | Some x => [x]
  | None => []
  end.

(** The test of [getTextLayers]. *)
Definition is_text (l : LayerInfo) : bool :=
  match type l with
  | LayerType.text => true
  | _ => false
  end.

(** [psd.children || []]. *)
Definition rawLayers (psd_children : option (list Psd.Layer)) : list Psd.Layer :=
  match psd_children with
  | Some cs => cs
  | None => []
  end.

(** Two lists of lines that join to the same text, and are empty
    together. *)
Definition same_text (xs ys : list string) : Prop :=
  (xs = [] <-> ys = []) /\ Js.join newline xs = Js.join newline ys.

(** The scope that [get_hero_section] takes from a matching layer:
    [layer.children || [layer]]. *)
Definition scopeOf (layer : LayerInfo) : list LayerInfo :=
  match children layer with
  | Some cs => cs
  | None => [layer]
  end.

(** What [addColor] pushes. *)
Definition pushed_color (label : string) (e : ExtractedColor) : Prop :=
  layerName e = label
  /\ (exists color, anyColorToHex color = Some (hex e))
  /\ rgb e = {| rgb_r := parseInt16 (slice 1 3 (hex e));
                rgb_g := parseInt16 (slice 3 5 (hex e));
                rgb_b := parseInt16 (slice 5 7 (hex e)) |}.

(** What [addGradient] pushes. *)
Definition pushed_gradient (label : string) (g : GradientInfo) : Prop :=
  gradientLayerName g = label
  /\ colors g <> []
  /\ Forall (fun h => exists color, anyColorToHex color = Some h) (colors g).

(** The entry of a colour in the grouping of the detailed report: the
    distinct sources and the distinct layer names of the solid colours
    with that hex string, each in order of first occurrence. *)
Definition entryOf (solid : list ExtractedColor) (h : string)
  : string * ColorEntry :=
  let same := filter (fun c => (hex c =? h)%string) solid in
  (h, {| entrySources := Set_values (map source same);
         entryLayers := Set_values (map layerName same) |}).

(** A paint that the exporter can write: a solid colour with an [r]
    field. *)
Definition resolvable (content : option Psd.VectorContent) : bool :=
  match content with
  | Some (Psd.VColor c) => has_field (Color.r c)
  | _ => false
  end.

(** The stroke of a layer is drawn: it is there, its paint can be
    written, it is not disabled, and its width is a number above zero. *)
Definition strokeDrawn (layer : Psd.Layer) : bool :=
  match Psd.vectorStroke layer with
  | Some st =>
      resolvable (Psd.content st)
      && match Psd.strokeEnabled st with
         | Some false => false
         | _ => true
         end
      && match Psd.lineWidth st with
         | Some w => (0 <? Psd.value w)%float
         | None => false
         end
  | None => false
  end.

(* ================================================================== *)
(** * Properties of Numbers *)
(* ================================================================== *)

Section NumberOrder.

Lemma SFltb_rank (x y : spec_float) :
  x <> S754_nan -> y <> S754_nan ->
  (SFltb x y = true <-> lex_lt (rank x) (rank y)).
Proof.
  intros Hx Hy. unfold SFltb, SFcompare.
  destruct x as [[|]|[|]| |[|] mx ex], y as [[|]|[|]| |[|] my ey];
    try congruence; simpl; try (split; [discriminate | lia]); try (split; [lia | reflexivity]);
    try (split; [reflexivity | lia]).
  - destruct (Z.compare_spec ex ey) as [He|He|He].
    + subst. rewrite Pos.compare_cont_spec. simpl Pos.switch_Eq.
      destruct (Pos.compare_spec mx my) as [Hm|Hm|Hm]; simpl; split; try discriminate; try lia; reflexivity.
    + split; [discriminate | lia].
    + split; [lia | reflexivity].
  - destruct (Z.compare_spec ex ey) as [He|He|He].
    + subst. rewrite Pos.compare_cont_spec. simpl Pos.switch_Eq.
      destruct (Pos.compare_spec mx my) as [Hm|Hm|Hm]; simpl; split; try discriminate; try lia; reflexivity.
    + split; [lia | reflexivity].
    + split; [discriminate | lia].
Qed.

Lemma digits2_pos_bounds (m : positive) :
  2 ^ (Z.pos (digits2_pos m) - 1) <= Z.pos m < 2 ^ Z.pos (digits2_pos m).
Proof.
  induction m as [m IH|m IH|]; simpl digits2_pos.
  - rewrite Pos2Z.inj_succ.
    replace (Z.succ (Z.pos (digits2_pos m)) - 1) with (Z.succ (Z.pos (digits2_pos m) - 1)) by lia.
    rewrite !Z.pow_succ_r by lia. lia.
  - rewrite Pos2Z.inj_succ.
    replace (Z.succ (Z.pos (digits2_pos m)) - 1) with (Z.succ (Z.pos (digits2_pos m) - 1)) by lia.
    rewrite !Z.pow_succ_r by lia. lia.
  - simpl. lia.
Qed.

Lemma shr_m_shr_1 (mrs : shr_record) :
  0 <= shr_m mrs -> shr_m (shr_1 mrs) = shr_m mrs / 2.
Proof.
  destruct mrs as [m r s]. simpl shr_m. intros Hm.
  destruct m as [|[p|p|]|p]; try lia; try reflexivity.
  - simpl shr_m. apply Z.div_unique with (r := 1); lia.
  - simpl shr_m. apply Z.div_unique with (r := 0); lia.
Qed.

Lemma shr_m_iter (p : positive) :
  forall mrs, 0 <= shr_m mrs ->
              shr_m (iter_pos shr_1 p mrs) = shr_m mrs / 2 ^ Z.pos p.
Proof.
  assert (Hnn : forall a b, 0 <= a -> 0 < b -> 0 <= a / b)
    by (intros; apply Z.div_pos; lia).
  induction p as [p IH|p IH|]; intros mrs Hm; simpl iter_pos.
  - assert (H1 : 0 <= shr_m (shr_1 mrs)) by (rewrite shr_m_shr_1 by lia; apply Hnn; lia).
    assert (Hp : 0 < 2 ^ Z.pos p) by (apply Z.pow_pos_nonneg; lia).
    assert (Hpow : 2 ^ Z.pos p~1 = 2 * (2 ^ Z.pos p * 2 ^ Z.pos p)).
    { rewrite (Pos2Z.inj_xI p).
      replace (2 * Z.pos p + 1) with (Z.pos p + Z.pos p + 1) by lia.
      rewrite !Z.pow_add_r by lia. change (2 ^ 1) with 2. ring. }
    rewrite IH by (rewrite IH by lia; apply Hnn; lia).
    rewrite IH by lia. rewrite shr_m_shr_1 by lia.
    rewrite !Z.div_div by lia. now rewrite Hpow.
  - assert (Hp : 0 < 2 ^ Z.pos p) by (apply Z.pow_pos_nonneg; lia).
    assert (Hpow : 2 ^ Z.pos p~0 = 2 ^ Z.pos p * 2 ^ Z.pos p).
    { rewrite (Pos2Z.inj_xO p).
      replace (2 * Z.pos p) with (Z.pos p + Z.pos p) by lia.
      now rewrite Z.pow_add_r by lia. }
    rewrite IH by (rewrite IH by lia; apply Hnn; lia).
    rewrite IH by lia.
    rewrite !Z.div_div by lia. now rewrite Hpow.
  - rewrite shr_m_shr_1 by lia. reflexivity.
Qed.

Lemma shr_m_of_loc (m : Z) (l : location) : shr_m (shr_record_of_loc m l) = m.
Proof. destruct l as [|[| |]]; reflexivity. Qed.

(** Shifting to the exponent of the format keeps a positive mantissa
    positive, as long as the exponent is not below the least one. *)
Lemma shr_fexp_positive (m e : Z) (l : location) :
  0 < m -> -1074 <= e ->
  0 < shr_m (fst (shr_fexp prec emax m e l))
  /\ -1074 <= snd (shr_fexp prec emax m e l).
Proof.
  intros Hm He. unfold shr_fexp, shr.
  destruct (SpecFloat.fexp prec emax (Zdigits2 m + e) - e) as [|p|p] eqn:Hn; simpl fst; simpl snd;
    rewrite ?shr_m_of_loc; try (split; lia).
  destruct m as [|m|m]; try lia. simpl Zdigits2 in Hn.
  pose proof (digits2_pos_bounds m) as [Hlo _].
  unfold SpecFloat.fexp, SpecFloat.emin, prec, emax in *.
  rewrite shr_m_iter by (rewrite shr_m_of_loc; lia).
  rewrite shr_m_of_loc. split; [|lia].
  apply Z.div_str_pos. split; [apply Z.pow_pos_nonneg; lia|].
  apply Z.le_trans with (2 := Hlo).
  apply Z.pow_le_mono_r; lia.
Qed.

Lemma round_nearest_even_ge (m : Z) (l : location) :
  m <= round_nearest_even m l.
Proof.
  unfold round_nearest_even. destruct l as [|[| |]]; try lia.
  destruct (Z.even m); lia.
Qed.

(** Rounding a positive mantissa never gives a zero: the result is a
    finite number or an infinity of the given sign. *)
Lemma binary_round_aux_nonzero (s : bool) (m e : Z) (l : location) :
  0 < m -> -1074 <= e ->
  signed_nonzero s (binary_round_aux prec emax s m e l).
Proof.
  intros Hm He. unfold binary_round_aux.
  pose proof (shr_fexp_positive m e l Hm He) as [H1 H1e].
  destruct (shr_fexp prec emax m e l) as [mrs' e']. simpl fst in H1. simpl snd in H1e.
  pose proof (round_nearest_even_ge (shr_m mrs') (loc_of_shr_record mrs')) as Hr.
  pose proof (shr_fexp_positive (round_nearest_even (shr_m mrs') (loc_of_shr_record mrs'))
                e' loc_Exact ltac:(lia) H1e) as [H2 _].
  destruct (shr_fexp prec emax (round_nearest_even (shr_m mrs') (loc_of_shr_record mrs')) e' loc_Exact)
    as [mrs'' e'']. simpl fst in H2.
  destruct (shr_m mrs'') as [|p|p]; try lia.
  destruct (e'' <=? emax - prec); reflexivity.
Qed.

Lemma binary_normalize_sign (d e : Z) :
  -1074 <= e ->
  SFltb (S754_zero false) (binary_normalize prec emax d e false) = (0 <? d).
Proof.
  intros He. unfold binary_normalize.
  destruct d as [|m|m]; [reflexivity| |].
  - unfold binary_round.
    destruct (shl_align m e (SpecFloat.fexp prec emax (Z.pos (digits2_pos m) + e))) as [mz ez] eqn:Hs.
    assert (Hez : -1074 <= ez).
    { unfold shl_align in Hs.
      destruct (SpecFloat.fexp prec emax (Z.pos (digits2_pos m) + e) - e) eqn:Hd;
        injection Hs as _ <-; try lia.
      unfold SpecFloat.fexp, SpecFloat.emin, prec, emax. lia. }
    pose proof (binary_round_aux_nonzero false (Z.pos mz) ez loc_Exact ltac:(lia) Hez) as Hnz.
    destruct (binary_round_aux prec emax false (Z.pos mz) ez loc_Exact) as [| | |s' m' e'];
      simpl in Hnz; try contradiction; subst; reflexivity.
  - unfold binary_round.
    destruct (shl_align m e (SpecFloat.fexp prec emax (Z.pos (digits2_pos m) + e))) as [mz ez] eqn:Hs.
    assert (Hez : -1074 <= ez).
    { unfold shl_align in Hs.
      destruct (SpecFloat.fexp prec emax (Z.pos (digits2_pos m) + e) - e) eqn:Hd;
        injection Hs as _ <-; try lia.
      unfold SpecFloat.fexp, SpecFloat.emin, prec, emax. lia. }
    pose proof (binary_round_aux_nonzero true (Z.pos mz) ez loc_Exact ltac:(lia) Hez) as Hnz.
    destruct (binary_round_aux prec emax true (Z.pos mz) ez loc_Exact) as [| | |s' m' e'];
      simpl in Hnz; try contradiction; subst; reflexivity.
Qed.


Lemma Pos_iter_xO (m d : positive) :
  Z.pos (Pos.iter xO m d) = Z.pos m * 2 ^ Z.pos d.
Proof.
  induction d as [|d IH] using Pos.peano_ind.
  - simpl. lia.
  - rewrite Pos.iter_succ, Pos2Z.inj_xO, IH, Pos2Z.inj_succ, Z.pow_succ_r by lia.
    ring.
Qed.

Lemma shl_align_value (m : positive) (e e' : Z) :
  e' <= e -> Z.pos (fst (shl_align m e e')) = Z.pos m * 2 ^ (e - e').
Proof.
  intros He. unfold shl_align.
  destruct (e' - e) as [|d|d] eqn:Hd; simpl fst; try lia.
  - replace (e - e') with 0 by lia. simpl. lia.
  - rewrite Pos_iter_xO. f_equal. f_equal. lia.
Qed.

Lemma bounded_canonical (m : positive) (e : Z) :
  bounded prec emax m e = true ->
  -1074 <= e /\ Z.pos m < 2 ^ 53 /\ (e = -1074 \/ 2 ^ 52 <= Z.pos m).
Proof.
  unfold bounded, canonical_mantissa, SpecFloat.fexp, SpecFloat.emin, prec, emax.
  intros H. apply andb_true_iff in H as [H _]. apply Z.eqb_eq in H.
  pose proof (digits2_pos_bounds m) as [Hlo Hhi].
  split; [lia|]. split.
  - apply Z.lt_le_trans with (1 := Hhi). apply Z.pow_le_mono_r; lia.
  - destruct (Z.eq_dec e (-1074)) as [->|Hne]; [now left | right].
    replace (Z.pos (digits2_pos m)) with 53 in Hlo by lia. exact Hlo.
Qed.

(** The sign of a difference: for two numbers of the format, [b - a] is
    positive exactly when [a < b] (a difference of distinct numbers never
    rounds to zero). *)
Lemma SFsub_sign (A B : spec_float) :
  valid_binary A = true -> valid_binary B = true ->
  SFltb (S754_zero false) (SFsub prec emax B A) = SFltb A B.
Proof.
  intros HA HB.
  destruct A as [sa|sa| |sa ma ea], B as [sb|sb| |sb mb eb];
    try reflexivity;
    try (destruct sa; reflexivity);
    try (destruct sb; reflexivity);
    try (destruct sa, sb; reflexivity).
  simpl in HA, HB.
  apply bounded_canonical in HA as (Hea & Hma & HA).
  apply bounded_canonical in HB as (Heb & Hmb & HB).
  unfold SFsub.
  rewrite binary_normalize_sign by lia.
  rewrite !shl_align_value by lia.
  apply Bool.eq_iff_eq_true.
  rewrite Z.ltb_lt, SFltb_rank by discriminate.
  assert (H52 : 2 ^ 52 = 4503599627370496) by reflexivity.
  assert (H53 : 2 ^ 53 = 9007199254740992) by reflexivity.
  rewrite H52 in *. rewrite H53 in *. clear H52 H53.
  destruct (Z.lt_trichotomy ea eb) as [Hlt | [Heq | Hgt]].
  - rewrite Z.min_r by lia.
    replace (ea - ea) with 0 by lia. rewrite Z.pow_0_r, Z.mul_1_r.
    assert (Hp : 2 <= 2 ^ (eb - ea)).
    { change 2 with (2 ^ 1) at 1. apply Z.pow_le_mono_r; lia. }
    assert (Hmul : Z.pos mb * 2 <= Z.pos mb * 2 ^ (eb - ea))
      by (apply Z.mul_le_mono_nonneg_l; lia).
    destruct sa, sb; unfold cond_Zopp, rank, lex_lt; lia.
  - subst eb. rewrite Z.min_id.
    replace (ea - ea) with 0 by lia. rewrite Z.pow_0_r, !Z.mul_1_r.
    destruct sa, sb; unfold cond_Zopp, rank, lex_lt; lia.
  - rewrite Z.min_l by lia.
    replace (eb - eb) with 0 by lia. rewrite Z.pow_0_r, Z.mul_1_r.
    assert (Hp : 2 <= 2 ^ (ea - eb)).
    { change 2 with (2 ^ 1) at 1. apply Z.pow_le_mono_r; lia. }
    assert (Hmul : Z.pos ma * 2 <= Z.pos ma * 2 ^ (ea - eb))
      by (apply Z.mul_le_mono_nonneg_l; lia).
    destruct sa, sb; unfold cond_Zopp, rank, lex_lt; lia.
Qed.

Lemma sub_positive_iff_lt (a b : float) :
  (0 <? b - a)%float = (a <? b)%float.
Proof.
  rewrite !ltb_spec, sub_spec.
  change (Prim2SF 0) with (S754_zero false).
  apply SFsub_sign; apply Prim2SF_valid.
Qed.

Lemma is_nan_false (x : float) : is_nan x = false -> Prim2SF x <> S754_nan.
Proof.
  unfold is_nan. rewrite FloatAxioms.eqb_spec. intros H E. rewrite E in H.
  discriminate.
Qed.

Lemma SFleb_rank (x y : spec_float) :
  x <> S754_nan -> y <> S754_nan ->
  (SFleb x y = true <-> ~ lex_lt (rank y) (rank x)).
Proof.
  intros Hx Hy. unfold SFleb, SFcompare.
  destruct x as [[|]|[|]| |[|] mx ex], y as [[|]|[|]| |[|] my ey];
    try congruence; simpl; try (split; [lia | reflexivity]);
    try (split; [discriminate | lia]).
  - destruct (Z.compare_spec ex ey) as [He|He|He].
    + subst. rewrite Pos.compare_cont_spec. simpl Pos.switch_Eq.
      destruct (Pos.compare_spec mx my) as [Hm|Hm|Hm]; simpl; split;
        try discriminate; try lia; reflexivity.
    + split; [discriminate | lia].
    + split; [lia | reflexivity].
  - destruct (Z.compare_spec ex ey) as [He|He|He].
    + subst. rewrite Pos.compare_cont_spec. simpl Pos.switch_Eq.
      destruct (Pos.compare_spec mx my) as [Hm|Hm|Hm]; simpl; split;
        try discriminate; try lia; reflexivity.
    + split; [lia | reflexivity].
    + split; [discriminate | lia].
Qed.







End NumberOrder.

(* ================================================================== *)
(** * Properties of the colour conversion *)
(* ================================================================== *)

Section ColorFacts.
Import Js.

















End ColorFacts.

(* ================================================================== *)
(** * Properties of the tree builder *)
(* ================================================================== *)

Section BuilderFacts.
Import Js.

(** Closes one direction of one clause of the kind classification. *)
Ltac kind_case :=
  solve [ discriminate | congruence | tauto
        | intuition congruence
        | intuition discriminate
        | left; discriminate | right; discriminate ].

Lemma extractLayerInfo_type (layer : Psd.Layer) :
  type (extractLayerInfo layer) = layerTypeOf layer.
Proof. destruct layer; reflexivity. Qed.

Lemma has_children_iff (layer : Psd.Layer) :
  has_children layer = true <-> exists c cs, Psd.children layer = Some (c :: cs).
Proof.
  unfold has_children. destruct (Psd.children layer) as [[|c cs]|]; split;
    try discriminate; eauto; intros (c' & cs' & H); discriminate.
Qed.

(** C2.  The kind of a layer is decided by the first test that succeeds,
    in the order text, children, raster data, vector mask or stroke; each
    kind is assigned exactly when its test is the first to succeed, and a
    layer with both a text and children is a text layer. *)
Theorem extractLayerInfo_kind_precedence (layer : Psd.Layer) :
  let kind := type (extractLayerInfo layer) in
  let has_text := Psd.text layer <> None in
  let grouped := exists c cs, Psd.children layer = Some (c :: cs) in
  let raster := Psd.canvas layer = true in
  let vector := Psd.vectorMask layer <> None \/ Psd.vectorStroke layer <> None in
  (kind = LayerType.text <-> has_text)
  /\ (kind = LayerType.group <-> ~ has_text /\ grouped)
  /\ (kind = LayerType.image <-> ~ has_text /\ ~ grouped /\ raster)
  /\ (kind = LayerType.shape <-> ~ has_text /\ ~ grouped /\ ~ raster /\ vector)
  /\ (kind = LayerType.unknown <-> ~ has_text /\ ~ grouped /\ ~ raster /\ ~ vector)
  /\ (has_text -> grouped -> kind = LayerType.text).
Proof.
  cbv zeta. rewrite extractLayerInfo_type. unfold layerTypeOf.
  rewrite <- has_children_iff.
  destruct (Psd.text layer) as [t|],
           (has_children layer),
           (Psd.canvas layer),
           (Psd.vectorMask layer) as [vm|],
           (Psd.vectorStroke layer) as [vs|]; simpl;
    repeat split; intros; kind_case.
Qed.

Lemma extractLayerInfo_kind_precedence_witness :
  type (extractLayerInfo Sample.textWithChild) = LayerType.text.
Proof.
  pose proof (extractLayerInfo_kind_precedence Sample.textWithChild) as H.
  cbv zeta in H. destruct H as (_ & _ & _ & _ & _ & H).
  apply H.
  - discriminate.
  - exists (Sample.leaf "Glyph"), []. reflexivity.
Defined.











End BuilderFacts.

(* ================================================================== *)
(** * Properties of the vector exporter *)
(* ================================================================== *)

Section VectorFacts.
Import Js.
Variable dtoa : float -> string.

Lemma vectorContentToColor_solid_shape (content : option Psd.VectorContent) (s : string) :
  vectorContentToColor dtoa content = Some s -> exists rest, s = "rgb(" ++ rest.
Proof.
  unfold vectorContentToColor.
  destruct content as [[c|g|]|]; try discriminate.
  destruct (has_field (Color.r c)); [|discriminate].
  intros H. injection H as <-. eexists. reflexivity.
Qed.

Lemma fillAttribute_none_iff (layer : Psd.Layer) :
  fillAttribute dtoa layer = "none" <-> Psd.vectorFill layer = None.
Proof.
  unfold fillAttribute.
  destruct (Psd.vectorFill layer) as [vf|] eqn:Hvf; simpl has_field; cbv iota.
  - split; [|discriminate].
    destruct (vectorContentToColor dtoa (Some vf)) as [s|] eqn:E; [|discriminate].
    destruct (vectorContentToColor_solid_shape _ _ E) as (rest & ->).
    simpl. discriminate.
  - split; reflexivity.
Qed.

Lemma svgParts_fill_line (layer : Psd.Layer) (mask : Psd.VectorMask) (w h : float) :
  nth_error (svgParts dtoa layer mask w h) 3
  = Some ("        fill=" ++ dquote ++ fillAttribute dtoa layer ++ dquote).
Proof. reflexivity. Qed.

(** C5 (as amended).  For a vector layer whose fill is a gradient,
    [vectorContentToColor] resolves no colour and the [fill] attribute of
    the emitted SVG falls back to [#000000]; the attribute is [none]
    exactly when the layer has no vector fill at all. *)
Theorem gradient_fill_emits_black (layer : Psd.Layer) (mask : Psd.VectorMask)
  (w h : float) :
  Psd.vectorMask layer = Some mask ->
  (forall g, Psd.vectorFill layer = Some (Psd.VGradient g) ->
     vectorContentToColor dtoa (Psd.vectorFill layer) = None
     /\ fillAttribute dtoa layer = "#000000"
     /\ vectorLayerToSvg dtoa layer w h
        = Normal (join newline (svgParts dtoa layer mask w h))
     /\ nth_error (svgParts dtoa layer mask w h) 3
        = Some ("        fill=" ++ dquote ++ "#000000" ++ dquote))
  /\ (fillAttribute dtoa layer = "none" <-> Psd.vectorFill layer = None).
Proof.
  intros Hmask. split; [|apply fillAttribute_none_iff].
  intros g Hg.
  assert (Hfill : fillAttribute dtoa layer = "#000000")
    by (unfold fillAttribute; rewrite Hg; reflexivity).
  repeat split.
  - rewrite Hg. reflexivity.
  - exact Hfill.
  - unfold vectorLayerToSvg. now rewrite Hmask.
  - rewrite svgParts_fill_line, Hfill. reflexivity.
Qed.

End VectorFacts.

Lemma gradient_fill_emits_black_witness :
  fillAttribute Sample.no_dtoa Sample.gradientShape = "#000000"
  /\ nth_error (svgParts Sample.no_dtoa Sample.gradientShape Sample.mask 100 50) 3
     = Some ("        fill=" ++ Js.dquote ++ "#000000" ++ Js.dquote).
Proof.
  destruct (gradient_fill_emits_black Sample.no_dtoa Sample.gradientShape
              Sample.mask 100 50 eq_refl) as [H _].
  destruct (H Sample.linearGradient eq_refl) as (_ & Hfill & _ & Hline).
  split; [exact Hfill | exact Hline].
Defined.

(** C5, as stated, fails: the SVG of a layer with a gradient fill carries
    [fill="#000000"], not [fill="none"]. *)
Lemma gradient_fill_is_not_none :
  vectorLayerToSvg Sample.no_dtoa Sample.gradientShape 100 50
  = Normal (Js.join newline
      [ "<?xml version=" ++ Js.dquote ++ "1.0" ++ Js.dquote ++ " encoding="
          ++ Js.dquote ++ "UTF-8" ++ Js.dquote ++ "?>";
        "<svg xmlns=" ++ Js.dquote ++ "http://www.w3.org/2000/svg" ++ Js.dquote
          ++ " width=" ++ Js.dquote ++ "100" ++ Js.dquote
          ++ " height=" ++ Js.dquote ++ "50" ++ Js.dquote
          ++ " viewBox=" ++ Js.dquote ++ "0 0 100 50" ++ Js.dquote ++ ">";
        "  <path d=" ++ Js.dquote
          ++ "M 25.00 25.00 C 30.00 20.00, 60.00 35.00, 75.00 50.00 C 80.00 45.00, 10.00 10.00, 25.00 25.00 Z"
          ++ Js.dquote;
        "        fill=" ++ Js.dquote ++ "#000000" ++ Js.dquote;
        "  />";
        "</svg>" ])
  /\ fillAttribute Sample.no_dtoa Sample.gradientShape <> "none".
Proof.
  split.
  - vm_compute. reflexivity.
  - vm_compute. intros H. discriminate H.
Qed.

Section PathFacts.
Import Js.
Variable dtoa : float -> string.
Variables width height : float.

Lemma pathCommands_empty (open : bool) :
  pathCommands dtoa {| Psd.open := open; Psd.knots := [] |} width height = [].
Proof. reflexivity. Qed.

Lemma pathData_skips_empty (open : bool) (before after : list Psd.BezierPath) :
  bezierPathsToSvgPath dtoa
    (before ++ {| Psd.open := open; Psd.knots := [] |} :: after) width height
  = bezierPathsToSvgPath dtoa (before ++ after) width height.
Proof.
  unfold bezierPathsToSvgPath. rewrite !flat_map_app. reflexivity.
Qed.

(** C6.  A closed path of two knots is a move to the first anchor, the
    curve from the first knot to the second, the wrap-around curve from
    the second back to the first, and a close command; the same knots
    marked open give the move and the first curve only; a path without
    knots contributes nothing. *)
Theorem bezierPathsToSvgPath_two_knots (k0 k1 : Psd.Knot) :
  pathCommands dtoa {| Psd.open := false; Psd.knots := [k0; k1] |} width height
  = [ moveTo dtoa width height k0;
      curveTo dtoa width height k0 k1;
      curveTo dtoa width height k1 k0;
      "Z" ]
  /\ bezierPathsToSvgPath dtoa
       [ {| Psd.open := false; Psd.knots := [k0; k1] |} ] width height
     = moveTo dtoa width height k0 ++ " " ++ curveTo dtoa width height k0 k1
       ++ " " ++ curveTo dtoa width height k1 k0 ++ " Z"
  /\ pathCommands dtoa {| Psd.open := true; Psd.knots := [k0; k1] |} width height
     = [ moveTo dtoa width height k0; curveTo dtoa width height k0 k1 ]
  /\ bezierPathsToSvgPath dtoa
       [ {| Psd.open := true; Psd.knots := [k0; k1] |} ] width height
     = moveTo dtoa width height k0 ++ " " ++ curveTo dtoa width height k0 k1
  /\ (forall open before after,
        bezierPathsToSvgPath dtoa
          (before ++ {| Psd.open := open; Psd.knots := [] |} :: after) width height
        = bezierPathsToSvgPath dtoa (before ++ after) width height)
  /\ (forall open,
        bezierPathsToSvgPath dtoa
          [ {| Psd.open := open; Psd.knots := [] |} ] width height = "").
Proof.
  repeat split; try reflexivity.
  intros open before after. apply pathData_skips_empty.
Qed.

End PathFacts.

Section LookupFacts.
Import Js.

(** The loop inside [findVectorLayer_in] is [findVectorLayer] on the
    children: the function as the source writes it. *)
Lemma findVectorLayer_in_eq (name : string) (layer : Psd.Layer) :
  findVectorLayer_in name layer
  = if name_includes (Psd.name layer) name && has_field (Psd.vectorMask layer)
    then Some layer
    else match Psd.children layer with
         | Some cs => findVectorLayer cs name
         | None => None
         end.
Proof.
  destruct layer as [n hd op lf tp rt bt tx ch cv vm vf vs ef]; simpl.
  destruct (name_includes n name && has_field vm); [reflexivity|].
  destruct ch as [cs|]; [|reflexivity].
  induction cs as [|c cs IH]; simpl; [reflexivity|].
  now rewrite IH.
Qed.

Lemma findVectorLayer_cons (name : string) (layer : Psd.Layer)
  (rest : list Psd.Layer) :
  findVectorLayer (layer :: rest) name
  = if name_includes (Psd.name layer) name && has_field (Psd.vectorMask layer)
    then Some layer
    else match match Psd.children layer with
               | Some cs => findVectorLayer cs name
               | None => None
               end with
         | Some found => Some found
         | None => findVectorLayer rest name
         end.
Proof.
  simpl. rewrite findVectorLayer_in_eq.
  destruct (name_includes (Psd.name layer) name && has_field (Psd.vectorMask layer));
    reflexivity.
Qed.

Lemma getAllVectorLayers_in_eq (layer : Psd.Layer) :
  getAllVectorLayers_in layer
  = ((if has_field (Psd.vectorMask layer) then [layer] else [])
     ++ match Psd.children layer with
        | Some cs => getAllVectorLayers cs
        | None => []
        end)%list.
Proof. destruct layer; reflexivity. Qed.

Lemma has_mask (l : Psd.Layer) :
  has_field (Psd.vectorMask l) = true -> Psd.vectorMask l <> None.
Proof. destruct (Psd.vectorMask l); [discriminate | discriminate]. Qed.

Lemma findVectorLayer_in_masked (name : string) (layer : Psd.Layer) :
  forall found, findVectorLayer_in name layer = Some found ->
                Psd.vectorMask found <> None.
Proof.
  induction layer as [layer IH] using Psd.Layer_tree_ind.
  intros found. rewrite findVectorLayer_in_eq.
  destruct (name_includes (Psd.name layer) name && has_field (Psd.vectorMask layer))
    eqn:Hc.
  - intros H. injection H as <-.
    apply andb_true_iff in Hc as [_ Hm]. now apply has_mask.
  - destruct (Psd.children layer) as [cs|]; [|discriminate].
    specialize (IH cs eq_refl).
    induction IH as [|c cs Hc' _ IHcs]; simpl; [discriminate|].
    destruct (findVectorLayer_in name c) as [f|] eqn:Ef.
    + intros H. injection H as <-. now apply Hc'.
    + exact IHcs.
Qed.

Lemma findVectorLayer_masked (name : string) (layers : list Psd.Layer) :
  forall found, findVectorLayer layers name = Some found ->
                Psd.vectorMask found <> None.
Proof.
  induction layers as [|l layers IH]; simpl; [discriminate|].
  intros found.
  destruct (findVectorLayer_in name l) as [f|] eqn:Ef.
  - intros H. injection H as <-. now apply (findVectorLayer_in_masked name l).
  - apply IH.
Qed.

Lemma getAllVectorLayers_in_masked (layer : Psd.Layer) :
  forall l, In l (getAllVectorLayers_in layer) -> Psd.vectorMask l <> None.
Proof.
  induction layer as [layer IH] using Psd.Layer_tree_ind.
  intros l. rewrite getAllVectorLayers_in_eq, in_app_iff.
  intros [Hl | Hl].
  - destruct (has_field (Psd.vectorMask layer)) eqn:Hm; [|contradiction].
    destruct Hl as [<- | []]. now apply has_mask.
  - destruct (Psd.children layer) as [cs|]; [|contradiction].
    specialize (IH cs eq_refl).
    unfold getAllVectorLayers in Hl. apply in_flat_map in Hl as (c & Hc & Hl).
    rewrite Forall_forall in IH. now apply (IH c Hc).
Qed.

Lemma masked_layer_exports (dtoa : float -> string) (l : Psd.Layer) (w h : float) :
  Psd.vectorMask l <> None ->
  exists svg, vectorLayerToSvg dtoa l w h = Normal svg.
Proof.
  unfold vectorLayerToSvg. destruct (Psd.vectorMask l) as [m|]; [|congruence].
  intros _. eexists. reflexivity.
Qed.

(** C10.  A layer returned by [findVectorLayer], and every layer
    returned by [getAllVectorLayers], has a vector mask, so
    [vectorLayerToSvg] completes normally on it and never throws
    "Layer does not have vector data".  A layer without a vector mask is
    never returned by [findVectorLayer], whether its name matches or
    not: the search goes on into its children and then to the layers
    after it. *)
Theorem vector_lookups_never_throw (dtoa : float -> string) :
  (forall layers name found,
     findVectorLayer layers name = Some found ->
     Psd.vectorMask found <> None
     /\ forall w h, exists svg, vectorLayerToSvg dtoa found w h = Normal svg)
  /\ (forall layers l,
        In l (getAllVectorLayers layers) ->
        Psd.vectorMask l <> None
        /\ forall w h, exists svg, vectorLayerToSvg dtoa l w h = Normal svg)
  /\ (forall layer rest name,
        Psd.vectorMask layer = None ->
        findVectorLayer (layer :: rest) name
        = match match Psd.children layer with
                | Some cs => findVectorLayer cs name
                | None => None
                end with
          | Some found => Some found
          | None => findVectorLayer rest name
          end).
Proof.
  split; [|split].
  - intros layers name found H.
    pose proof (findVectorLayer_masked name layers found H) as Hm.
    split; [exact Hm|]. intros w h. now apply masked_layer_exports.
  - intros layers l H.
    unfold getAllVectorLayers in H. apply in_flat_map in H as (x & _ & Hl).
    pose proof (getAllVectorLayers_in_masked x l Hl) as Hm.
    split; [exact Hm|]. intros w h. now apply masked_layer_exports.
  - intros layer rest name Hm.
    rewrite findVectorLayer_cons, Hm. simpl has_field.
    now rewrite andb_false_r.
Qed.

Lemma vector_lookups_never_throw_witness :
  findVectorLayer [Sample.badgeGroup; Sample.leaf "Footer"] "badge"
  = Some Sample.gradientShape
  /\ Psd.vectorMask Sample.gradientShape <> None
  /\ exists svg,
       vectorLayerToSvg Sample.no_dtoa Sample.gradientShape 100 50 = Normal svg.
Proof.
  assert (E : findVectorLayer [Sample.badgeGroup; Sample.leaf "Footer"] "badge"
              = Some Sample.gradientShape) by (vm_compute; reflexivity).
  split; [exact E|].
  destruct (proj1 (vector_lookups_never_throw Sample.no_dtoa) _ _ _ E) as [Hm Hs].
  split; [exact Hm | exact (Hs 100%float 50%float)].
Defined.

End LookupFacts.

(* ================================================================== *)
(** * Properties of the layer index *)
(* ================================================================== *)

Section IndexFacts.

Lemma with_children_same (l : LayerInfo) : with_children l (children l) = l.
Proof. destruct l; reflexivity. Qed.

Lemma limitDepth_in_eq (d N : nat) (l : LayerInfo) :
  limitDepth_in d N l
  = if (N <=? d)%nat then
      with_children l
        (match children l with
         | Some ((_ :: _) as cs) => Some [placeholder (List.length cs)]
         | _ => None
         end)
    else
      with_children l
        (match children l with
         | Some cs => Some (limitDepth cs (S d) N)
         | None => None
         end).
Proof. destruct l; reflexivity. Qed.

Lemma limitDepth_cut (N d : nat) (l : LayerInfo) :
  (N <= d)%nat -> cut_at l (limitDepth_in d N l).
Proof.
  intros Hd. rewrite limitDepth_in_eq.
  apply Nat.leb_le in Hd. rewrite Hd.
  unfold cut_at, childLayers.
  destruct l as [n t v o b tx [[|c cs]|]]; simpl; repeat split; reflexivity.
Qed.

Lemma depth_in_child (l c : LayerInfo) (cs : list LayerInfo) :
  children l = Some cs -> In c cs -> (S (depth_in c) <= depth_in l)%nat.
Proof.
  intros Hl Hc. destruct l as [n t v o b tx ch]. simpl in Hl. subst ch.
  destruct cs as [|c0 cs0]; [contradiction|].
  change (depth_in (mkLayerInfo n t v o b tx (Some (c0 :: cs0))))
    with (S (list_max (map depth_in (c0 :: cs0)))).
  apply le_n_S.
  pose proof (proj1 (list_max_le (map depth_in (c0 :: cs0)) _) (le_n _)) as Hall.
  rewrite Forall_forall in Hall. apply Hall. now apply in_map.
Qed.

Lemma same_tree_refl (l : LayerInfo) : same_tree l l.
Proof.
  induction l as [l IH] using LayerInfo_tree_ind.
  constructor; try reflexivity.
  unfold childLayers. destruct (children l) as [cs|]; [|constructor].
  specialize (IH cs eq_refl).
  induction IH; constructor; assumption.
Qed.

(** Below the cut-off nothing is elided: same nodes, same arrangement. *)
Lemma limitDepth_in_deep (N : nat) (l : LayerInfo) :
  forall d, (d + depth_in l <= N)%nat -> same_tree (limitDepth_in d N l) l.
Proof.
  induction l as [l IH] using LayerInfo_tree_ind.
  intros d Hd. rewrite limitDepth_in_eq.
  destruct (N <=? d)%nat eqn:Hcut.
  - apply Nat.leb_le in Hcut.
    assert (Hz : depth_in l = 0%nat) by lia.
    destruct l as [n t v o b tx [[|c cs]|]]; try discriminate Hz;
      constructor; try reflexivity; constructor.
  - apply Nat.leb_gt in Hcut.
    destruct (children l) as [cs|] eqn:Hch.
    + constructor; try (destruct l; reflexivity).
      assert (Hk : childLayers l = cs) by (unfold childLayers; now rewrite Hch).
      rewrite Hk.
      change (childLayers (with_children l (Some (limitDepth cs (S d) N))))
        with (limitDepth cs (S d) N).
      specialize (IH cs eq_refl).
      assert (Hdepth : forall c, In c cs -> (S d + depth_in c <= N)%nat).
      { intros c Hc. pose proof (depth_in_child l c cs Hch Hc). lia. }
      clear Hch Hk. unfold limitDepth.
      induction IH as [|c cs Hc _ IHcs]; simpl; constructor.
      * apply Hc. apply Hdepth. now left.
      * apply IHcs. intros c' Hc'. apply Hdepth. now right.
    + constructor; try (destruct l; reflexivity).
      unfold childLayers. rewrite Hch. destruct l; simpl. constructor.
Qed.

Lemma limitDepth_in_deep_eq (N : nat) (l : LayerInfo) :
  no_empty_children l ->
  forall d, (d + depth_in l <= N)%nat -> limitDepth_in d N l = l.
Proof.
  induction l as [l IH] using LayerInfo_tree_ind.
  intros Hwf d Hd. rewrite limitDepth_in_eq.
  inversion Hwf as [l0 Hne Hkids]; subst l0.
  destruct (N <=? d)%nat eqn:Hcut.
  - apply Nat.leb_le in Hcut.
    assert (Hz : depth_in l = 0%nat) by lia.
    destruct l as [n t v o b tx [[|c cs]|]]; try discriminate Hz;
      [now elim Hne | reflexivity].
  - apply Nat.leb_gt in Hcut.
    destruct (children l) as [cs|] eqn:Hch.
    + rewrite <- (with_children_same l) at 2. rewrite Hch. do 2 f_equal.
      assert (Hk : childLayers l = cs) by (unfold childLayers; now rewrite Hch).
      rewrite Hk in Hkids.
      specialize (IH cs eq_refl).
      assert (Hdepth : forall c, In c cs -> (S d + depth_in c <= N)%nat).
      { intros c Hc. pose proof (depth_in_child l c cs Hch Hc). lia. }
      clear Hch Hk Hne Hwf. unfold limitDepth.
      induction IH as [|c cs Hc _ IHcs]; simpl; [reflexivity|].
      inversion Hkids as [|? ? Hwc Hwcs]; subst.
      f_equal.
      * apply Hc; [exact Hwc|]. apply Hdepth. now left.
      * apply IHcs; [exact Hwcs|]. intros c' Hc'. apply Hdepth. now right.
    + rewrite <- (with_children_same l) at 2. now rewrite Hch.
Qed.

(** The builder never writes an empty [children] array. *)
Lemma extractLayerInfo_no_empty_children (layer : Psd.Layer) :
  no_empty_children (extractLayerInfo layer).
Proof.
  induction layer as [layer IH] using Psd.Layer_tree_ind.
  destruct layer as [n hd op lf tp rt bt tx ch cv vm vf vs ef].
  constructor.
  - simpl. destruct ch as [[|c cs]|]; discriminate.
  - unfold childLayers. simpl children.
    destruct ch as [[|c cs]|]; try constructor.
    + specialize (IH (c :: cs) eq_refl).
      inversion IH; subst. assumption.
    + specialize (IH (c :: cs) eq_refl).
      inversion IH as [|? ? _ Hcs]; subst.
      clear IH. induction Hcs; simpl; constructor; assumption.
Qed.

Lemma treeDepth_bound (layers : list LayerInfo) (N : nat) (l : LayerInfo) :
  (treeDepth layers <= N)%nat -> In l layers -> (0 + depth_in l <= N)%nat.
Proof.
  intros HN Hl. unfold treeDepth in HN.
  apply list_max_le in HN. rewrite Forall_forall in HN.
  simpl. apply HN. now apply in_map.
Qed.

(** C7.  [limitDepth] with depth 0 keeps every top-level node and
    replaces the children of each one that has some by exactly one
    placeholder that reports their number; with a depth of at least the
    depth of the tree it elides nothing: the result has the same nodes in
    the same arrangement, and is equal to the input for every tree
    without empty [children] arrays, in particular for every tree the
    builder produces. *)
Theorem limitDepth_zero_and_deep :
  (forall layers, Forall2 cut_at layers (limitDepth layers 0 0))
  /\ (forall n,
        name (placeholder n)
        = "... (" ++ Js.N_toString 10 (N.of_nat n) ++ " children)"
        /\ children (placeholder n) = None)
  /\ (forall layers N,
        (treeDepth layers <= N)%nat ->
        Forall2 same_tree (limitDepth layers 0 N) layers)
  /\ (forall layers N,
        Forall no_empty_children layers ->
        (treeDepth layers <= N)%nat ->
        limitDepth layers 0 N = layers)
  /\ (forall psd_children N,
        (treeDepth (buildLayers psd_children) <= N)%nat ->
        limitDepth (buildLayers psd_children) 0 N = buildLayers psd_children).
Proof.
  assert (Hext : forall layers N,
             Forall no_empty_children layers ->
             (treeDepth layers <= N)%nat ->
             limitDepth layers 0 N = layers).
  { intros layers N Hwf HN. unfold limitDepth.
    rewrite <- (map_id layers) at 2. apply map_ext_in.
    intros l Hl. apply limitDepth_in_deep_eq.
    - rewrite Forall_forall in Hwf. now apply Hwf.
    - now apply (treeDepth_bound layers). }
  split; [|split; [|split; [|split]]].
  - intros layers. unfold limitDepth.
    induction layers as [|l layers IH]; simpl; constructor; [|exact IH].
    now apply limitDepth_cut.
  - intros n. split; reflexivity.
  - intros layers N HN. unfold limitDepth.
    assert (Hall : forall l, In l layers -> same_tree (limitDepth_in 0 N l) l).
    { intros l Hl. apply limitDepth_in_deep. now apply (treeDepth_bound layers). }
    clear HN. induction layers as [|l layers IH]; simpl; constructor.
    + apply Hall. now left.
    + apply IH. intros l' Hl'. apply Hall. now right.
  - exact Hext.
  - intros psd_children N HN. apply Hext; [|exact HN].
    unfold buildLayers. destruct psd_children as [cs|]; [|constructor].
    apply Forall_forall. intros l Hl.
    apply in_map_iff in Hl as (raw & <- & _).
    apply extractLayerInfo_no_empty_children.
Qed.

Lemma limitDepth_zero_and_deep_witness :
  (treeDepth Sample.infoForest <= 2)%nat
  /\ limitDepth Sample.infoForest 0 2 = Sample.infoForest
  /\ Forall2 same_tree (limitDepth Sample.infoForest 0 2) Sample.infoForest.
Proof.
  assert (Hd : (treeDepth Sample.infoForest <= 2)%nat) by (vm_compute; lia).
  destruct limitDepth_zero_and_deep as (_ & _ & Hsame & Heq & _).
  split; [exact Hd|]. split.
  - apply Heq; [|exact Hd].
    repeat (constructor; try discriminate).
  - apply Hsame. exact Hd.
Defined.

End IndexFacts.

(* ================================================================== *)
(** * Properties of sorting *)
(* ================================================================== *)

Section SortFacts.
Context {A : Type}.
Variable gt : A -> A -> bool.

Lemma sort_insert_perm (x : A) (s : list A) :
  Permutation (sort_insert gt x s) (x :: s).
Proof.
  induction s as [|y s IH]; simpl; [reflexivity|].
  destruct (gt x y); [|reflexivity].
  rewrite IH. apply perm_swap.
Qed.

Lemma Array_sort_perm (xs : list A) : Permutation (Array_sort gt xs) xs.
Proof.
  induction xs as [|x xs IH]; simpl; [reflexivity|].
  rewrite sort_insert_perm. now constructor.
Qed.

(** Stability: elements none of which sorts after another keep their
    order, whatever the comparison says about the rest. *)
Lemma sort_insert_filter (p : A -> bool) (x : A) (s : list A) :
  (forall a b, p a = true -> p b = true -> gt a b = false) ->
  filter p (sort_insert gt x s) = filter p (x :: s).
Proof.
  intros Htie. induction s as [|y s IH]; [reflexivity|].
  simpl sort_insert. destruct (gt x y) eqn:Hxy; [|reflexivity].
  simpl filter in *. rewrite IH.
  destruct (p x) eqn:Hx, (p y) eqn:Hy; try reflexivity.
  rewrite (Htie x y Hx Hy) in Hxy. discriminate.
Qed.

Lemma Array_sort_stable (p : A -> bool) (xs : list A) :
  (forall a b, p a = true -> p b = true -> gt a b = false) ->
  filter p (Array_sort gt xs) = filter p xs.
Proof.
  intros Htie. induction xs as [|x xs IH]; [reflexivity|].
  simpl Array_sort. rewrite (sort_insert_filter p x _ Htie).
  simpl. now rewrite IH.
Qed.

(** Order: when "does not sort after" is a total preorder, every element
    of the result does not sort after any later one. *)
Hypothesis gt_asym : forall a b, gt a b = true -> gt b a = false.
Hypothesis ngt_trans : forall a b c,
  gt a b = false -> gt b c = false -> gt a c = false.

Lemma sort_insert_sorted (x : A) (s : list A) :
  StronglySorted (fun a b => gt a b = false) s ->
  StronglySorted (fun a b => gt a b = false) (sort_insert gt x s).
Proof.
  induction 1 as [|y s Hs IH Hy]; simpl.
  - repeat constructor.
  - destruct (gt x y) eqn:Hxy.
    + constructor; [exact IH|].
      rewrite Forall_forall. intros z Hz.
      apply (Permutation_in _ (sort_insert_perm x s)) in Hz.
      destruct Hz as [<- | Hz].
      * now apply gt_asym.
      * rewrite Forall_forall in Hy. now apply Hy.
    + constructor; [now constructor|].
      constructor; [exact Hxy|].
      rewrite Forall_forall in *. intros z Hz.
      apply (ngt_trans x y z Hxy). now apply Hy.
Qed.

Lemma Array_sort_sorted (xs : list A) :
  StronglySorted (fun a b => gt a b = false) (Array_sort gt xs).
Proof.
  induction xs as [|x xs IH]; simpl; [constructor|].
  now apply sort_insert_sorted.
Qed.

End SortFacts.

Lemma StronglySorted_weaken {A : Type} (R R' : A -> A -> Prop) (xs : list A) :
  (forall a b, R a b -> R' a b) ->
  StronglySorted R xs -> StronglySorted R' xs.
Proof.
  intros Himp. induction 1 as [|x xs Hs IH Hx]; constructor; [exact IH|].
  rewrite Forall_forall in *. intros y Hy. apply Himp. now apply Hx.
Qed.

(* ================================================================== *)
(** * The order of strings *)
(* ================================================================== *)

Section StringOrder.

Lemma ascii_compare_lt_trans (a b c : ascii) :
  Ascii.compare a b = Lt -> Ascii.compare b c = Lt -> Ascii.compare a c = Lt.
Proof.
  unfold Ascii.compare. rewrite !N.compare_lt_iff. apply N.lt_trans.
Qed.

Lemma ascii_compare_refl (a : ascii) : Ascii.compare a a = Eq.
Proof. unfold Ascii.compare. apply N.compare_refl. Qed.

Lemma string_compare_lt_trans (x y z : string) :
  String.compare x y = Lt -> String.compare y z = Lt -> String.compare x z = Lt.
Proof.
  revert y z. induction x as [|a x IH]; intros [|b y] [|c z]; simpl;
    try discriminate; try reflexivity.
  destruct (Ascii.compare a b) eqn:Hab; try discriminate.
  - apply Ascii.compare_eq_iff in Hab. subst b.
    destruct (Ascii.compare a c) eqn:Hac; try discriminate; try reflexivity.
    apply IH.
  - intros _.
    destruct (Ascii.compare b c) eqn:Hbc; try discriminate.
    + apply Ascii.compare_eq_iff in Hbc. subst c. now rewrite Hab.
    + intros _. now rewrite (ascii_compare_lt_trans a b c Hab Hbc).
Qed.

Lemma string_compare_refl (x : string) : String.compare x x = Eq.
Proof.
  induction x as [|a x IH]; simpl; [reflexivity|].
  now rewrite ascii_compare_refl.
Qed.

Lemma string_ltb_asym (x y : string) :
  String.ltb y x = true -> String.ltb x y = false.
Proof.
  unfold String.ltb. rewrite (String.compare_antisym y x).
  destruct (String.compare x y); simpl; congruence.
Qed.

(** "Not greater" is transitive. *)
Lemma string_nltb_trans (x y z : string) :
  String.ltb y x = false -> String.ltb z y = false -> String.ltb z x = false.
Proof.
  unfold String.ltb.
  destruct (String.compare y x) eqn:Hyx; try discriminate;
    destruct (String.compare z y) eqn:Hzy; try discriminate; intros _ _.
  - apply String.compare_eq_iff in Hyx, Hzy. subst.
    now rewrite string_compare_refl.
  - apply String.compare_eq_iff in Hyx. subst. now rewrite Hzy.
  - apply String.compare_eq_iff in Hzy. subst. now rewrite Hyx.
  - destruct (String.compare z x) eqn:Hzx; try reflexivity.
    rewrite String.compare_antisym in Hyx, Hzy.
    assert (Hxy : String.compare x y = Lt) by (destruct (String.compare x y); simpl in *; congruence).
    assert (Hyz : String.compare y z = Lt) by (destruct (String.compare y z); simpl in *; congruence).
    pose proof (string_compare_lt_trans _ _ _ Hzx Hxy) as Hzy'.
    rewrite String.compare_antisym, Hyz in Hzy'. discriminate.
Qed.

Lemma sort_strings_perm (xs : list string) : Permutation (sort_strings xs) xs.
Proof. apply Array_sort_perm. Qed.

Lemma sort_strings_ascending (xs : list string) :
  StronglySorted (fun x y => String.ltb y x = false) (sort_strings xs).
Proof.
  apply Array_sort_sorted.
  - intros a b. apply string_ltb_asym.
  - intros a b c. apply string_nltb_trans.
Qed.

Lemma Set_values_in (xs : list string) (x : string) :
  In x (Set_values xs) <-> In x xs.
Proof.
  induction xs as [|y xs IH]; simpl; [tauto|].
  rewrite filter_In, IH, negb_true_iff, String.eqb_neq.
  destruct (string_dec y x) as [->|Hne]; [tauto|].
  split; [tauto|]. intros [H|H]; [tauto|]. right. split; congruence.
Qed.

Lemma Set_values_NoDup (xs : list string) : NoDup (Set_values xs).
Proof.
  induction xs as [|y xs IH]; simpl; constructor.
  - rewrite filter_In, String.eqb_refl. simpl. intros [_ H]. discriminate.
  - now apply NoDup_filter.
Qed.

(** A duplicate-free list in ascending order is in strictly ascending
    order. *)
Lemma ascending_strict (xs : list string) :
  NoDup xs ->
  StronglySorted (fun x y => String.ltb y x = false) xs ->
  StronglySorted (fun x y => String.ltb x y = true) xs.
Proof.
  intros Hnd Hs. induction Hs as [|x xs Hs IH Hx]; constructor.
  - apply IH. now inversion Hnd.
  - inversion Hnd as [|? ? Hnotin _]; subst.
    rewrite Forall_forall in *. intros y Hy.
    specialize (Hx y Hy). unfold String.ltb in *.
    rewrite String.compare_antisym in Hx.
    destruct (String.compare x y) eqn:Hxy; simpl in Hx; try discriminate;
      try reflexivity.
    apply String.compare_eq_iff in Hxy. subst. contradiction.
Qed.

End StringOrder.

(* ================================================================== *)
(** * Properties of the colour harvester *)
(* ================================================================== *)

Section HarvestFacts.

(** C8.  The [uniqueColors] of a palette are in strictly ascending
    lexicographic order, hence without duplicates, and they are exactly
    the hex strings of the entries of [solidColors]; the stops of a
    gradient are recorded under [gradients] only. *)
Theorem uniqueColors_sorted_set (layers : list Psd.Layer) :
  let palette := extractAllColors layers in
  StronglySorted (fun x y => String.ltb x y = true) (uniqueColors palette)
  /\ NoDup (uniqueColors palette)
  /\ (forall h, In h (uniqueColors palette)
                <-> exists c, In c (solidColors palette) /\ hex c = h)
  /\ gradients (extractAllColors [Sample.gradientShape])
     = [ {| gradientName := Some "Sunset";
            colors := ["#FF0000"; "#0000FF"];
            gradientSource := "vector-fill-gradient";
            gradientLayerName := "Badge" |} ]
  /\ uniqueColors (extractAllColors [Sample.gradientShape]) = [].
Proof.
  cbv zeta. unfold extractAllColors. simpl uniqueColors. simpl solidColors.
  set (allColors := flat_map (fun l => fst (traverseColors l)) layers).
  assert (Hnd : NoDup (sort_strings (Set_values (map hex allColors)))).
  { apply (Permutation_NoDup (Permutation_sym (sort_strings_perm _))).
    apply Set_values_NoDup. }
  split; [|split; [|split; [|split]]].
  - apply ascending_strict; [exact Hnd | apply sort_strings_ascending].
  - exact Hnd.
  - intros h. split.
    + intros Hh. apply (Permutation_in _ (sort_strings_perm _)) in Hh.
      apply Set_values_in, in_map_iff in Hh as (c & Hc & Hin). eauto.
    + intros (c & Hin & Hc).
      apply (Permutation_in _ (Permutation_sym (sort_strings_perm _))).
      apply Set_values_in, in_map_iff. eauto.
  - vm_compute. reflexivity.
  - vm_compute. reflexivity.
Qed.

End HarvestFacts.


(* ================================================================== *)
(** * Properties of the hero classifier *)
(* ================================================================== *)

Section HeroFacts.
Import Js.

Lemma or_zero_not_nan (v : option float) : Prim2SF (or_zero v) <> S754_nan.
Proof.
  unfold or_zero. destruct v as [x|]; [|vm_compute; discriminate].
  destruct (is_nan x || is_zero x)%bool eqn:E; [vm_compute; discriminate|].
  apply orb_false_iff in E as [E _]. now apply is_nan_false.
Qed.

Lemma sizeOf_not_nan (l : LayerInfo) : Prim2SF (sizeOf l) <> S754_nan.
Proof. apply or_zero_not_nan. Qed.

(** The comparison of the sort orders by size: [a] goes after [b]
    exactly when it is smaller. *)
Lemma sortsAfter_lt (a b : LayerInfo) :
  sortsAfter a b = (sizeOf a <? sizeOf b)%float.
Proof. apply sub_positive_iff_lt. Qed.

Lemma sortsAfter_rank (a b : LayerInfo) :
  sortsAfter a b = true
  <-> lex_lt (rank (Prim2SF (sizeOf a))) (rank (Prim2SF (sizeOf b))).
Proof.
  rewrite sortsAfter_lt, ltb_spec.
  apply SFltb_rank; apply sizeOf_not_nan.
Qed.

Lemma lex_lt_asym (x y : Z * Z * Z) : lex_lt x y -> ~ lex_lt y x.
Proof. destruct x as [[x1 x2] x3], y as [[y1 y2] y3]. unfold lex_lt. lia. Qed.

Lemma lex_nlt_trans (x y z : Z * Z * Z) :
  ~ lex_lt x y -> ~ lex_lt y z -> ~ lex_lt x z.
Proof.
  destruct x as [[x1 x2] x3], y as [[y1 y2] y3], z as [[z1 z2] z3].
  unfold lex_lt. lia.
Qed.

Lemma not_true_iff (b : bool) (P : Prop) : (b = true <-> P) -> (b = false <-> ~ P).
Proof. destruct b; intuition congruence. Qed.

Lemma sortsAfter_asym (a b : LayerInfo) :
  sortsAfter a b = true -> sortsAfter b a = false.
Proof.
  rewrite (not_true_iff _ _ (sortsAfter_rank b a)), sortsAfter_rank.
  apply lex_lt_asym.
Qed.

Lemma sortsAfter_ntrans (a b c : LayerInfo) :
  sortsAfter a b = false -> sortsAfter b c = false -> sortsAfter a c = false.
Proof.
  rewrite !(not_true_iff _ _ (sortsAfter_rank _ _)). apply lex_nlt_trans.
Qed.

Lemma SFeqb_rank (x y : spec_float) :
  SFeqb x y = true -> x <> S754_nan /\ y <> S754_nan /\ rank x = rank y.
Proof.
  unfold SFeqb, SFcompare.
  destruct x as [[|]|[|]| |[|] mx ex], y as [[|]|[|]| |[|] my ey];
    try discriminate; intros H; repeat split; try discriminate; try reflexivity.
  - destruct (Z.compare_spec ex ey) as [He|He|He]; try discriminate.
    rewrite Pos.compare_cont_spec in H. simpl Pos.switch_Eq in H.
    destruct (Pos.compare_spec mx my); try discriminate. now subst.
  - destruct (Z.compare_spec ex ey) as [He|He|He]; try discriminate.
    rewrite Pos.compare_cont_spec in H. simpl Pos.switch_Eq in H.
    destruct (Pos.compare_spec mx my); try discriminate. now subst.
Qed.

(** Layers of one size are tied. *)
Lemma same_size_tied (s : float) (a b : LayerInfo) :
  (sizeOf a =? s)%float = true -> (sizeOf b =? s)%float = true ->
  sortsAfter a b = false.
Proof.
  rewrite !FloatAxioms.eqb_spec. intros Ha Hb.
  apply SFeqb_rank in Ha as (_ & _ & Ha). apply SFeqb_rank in Hb as (_ & _ & Hb).
  apply (not_true_iff _ _ (sortsAfter_rank a b)).
  rewrite Ha, Hb. destruct (rank (Prim2SF s)) as [[r1 r2] r3]. unfold lex_lt. lia.
Qed.

Lemma descending_leb (a b : LayerInfo) :
  sortsAfter a b = false -> (sizeOf b <=? sizeOf a)%float = true.
Proof.
  rewrite (not_true_iff _ _ (sortsAfter_rank a b)), leb_spec.
  intros H. apply SFleb_rank; try apply sizeOf_not_nan. exact H.
Qed.

Lemma prefix_spec (sub s : string) :
  String.prefix sub s = true <-> exists after, s = sub ++ after.
Proof.
  revert s. induction sub as [|c sub IH]; intros s.
  - destruct s; simpl; split; eauto.
  - destruct s as [|d s]; simpl.
    + split; [discriminate | intros (after & H); discriminate].
    + destruct (ascii_dec c d) as [->|Hne].
      * rewrite IH. split; intros (after & H); exists after.
        -- now rewrite H.
        -- now injection H.
      * split; [discriminate|]. intros (after & H). injection H as H _.
        congruence.
Qed.

Lemma includes_eq (s sub : string) :
  includes s sub
  = if String.prefix sub s then true
    else match s with
         | EmptyString => false
         | String _ s' => includes s' sub
         end.
Proof. destruct s; reflexivity. Qed.

(** [includes] is containment. *)
Lemma includes_spec (s sub : string) :
  includes s sub = true <-> contains s sub.
Proof.
  unfold contains. split.
  - induction s as [|c s IH]; rewrite includes_eq;
      destruct (String.prefix sub _) eqn:Hp.
    + intros _. apply prefix_spec in Hp as (after & ->). exists "", after. reflexivity.
    + discriminate.
    + intros _. apply prefix_spec in Hp as (after & ->). exists "", after. reflexivity.
    + intros H. destruct (IH H) as (before & after & ->).
      exists (String c before), after. reflexivity.
  - intros (before & after & ->).
    induction before as [|c before IH]; rewrite includes_eq.
    + assert (Hp : String.prefix sub ("" ++ sub ++ after) = true)
        by (apply prefix_spec; exists after; reflexivity).
      now rewrite Hp.
    + destruct (String.prefix sub _); [reflexivity | exact IH].
Qed.

Lemma skipn_short {A : Type} (n : nat) (xs : list A) :
  (if (n <? List.length xs)%nat then skipn n xs else []) = skipn n xs.
Proof.
  destruct (n <? List.length xs)%nat eqn:E; [reflexivity|].
  apply Nat.ltb_ge in E. symmetry. now apply skipn_all2.
Qed.

Lemma categorize_cta (size : float * float) (scope : list LayerInfo) :
  cta (categorize size scope)
  = filter (fun layer =>
              existsb (fun kw => includes (toLowerCase (name layer)) kw) ctaKeywords)
           scope.
Proof. reflexivity. Qed.

(** C9.  The text layers of the scope are sorted by size, largest
    first, a missing size counting as 0 and layers of one size keeping
    their order; the first of them is the heading, the second the
    subheading, the others the body.  Texts of sizes 12, 64, 24 give the
    heading 64, the subheading 24 and the body 12; without text layers
    there is no heading, no subheading and an empty body.  The [cta] list
    holds exactly the direct layers of the scope whose lowercased name
    contains one of the six keywords, "Submit Button" among them. *)
Theorem hero_roles_by_size :
  (forall (size : float * float) (scope : list LayerInfo),
     let texts := getTextLayers scope in
     let sorted := Array_sort sortsAfter texts in
     let result := categorize size scope in
     Permutation sorted texts
     /\ StronglySorted (fun a b => (sizeOf b <=? sizeOf a)%float = true) sorted
     /\ (forall s : float,
           filter (fun l => (sizeOf l =? s)%float) sorted
           = filter (fun l => (sizeOf l =? s)%float) texts)
     /\ (forall l,
           text l = None \/ (exists t, text l = Some t /\ fontSize t = None) ->
           sizeOf l = 0%float)
     /\ heading result = nth_error sorted 0
     /\ subheading result = nth_error sorted 1
     /\ body result = skipn 2 sorted
     /\ (texts = [] ->
         heading result = None /\ subheading result = None /\ body result = [])
     /\ (forall layer,
           In layer (cta result)
           <-> In layer scope
               /\ exists kw, In kw ctaKeywords
                             /\ contains (toLowerCase (name layer)) kw))
  /\ (let result := categorize (1440, 900)%float Sample.heroScope in
      map sizeOf (getTextLayers Sample.heroScope) = [12; 64; 24]%float
      /\ heading result = Some (extractLayerInfo Sample.headline)
      /\ subheading result = Some (extractLayerInfo Sample.tagline)
      /\ body result = [extractLayerInfo Sample.bodyCopy]
      /\ cta result = [extractLayerInfo Sample.submitButton])
  /\ (let result := categorize (1440, 900)%float Sample.tiedScope in
      option_map name (heading result) = Some "First"
      /\ option_map name (subheading result) = Some "Second"
      /\ map name (body result) = ["Untitled"]).
Proof.
  split; [|split; [vm_compute; repeat split; reflexivity
                  |vm_compute; repeat split; reflexivity]].
  intros size scope. cbv zeta.
  split; [apply Array_sort_perm|].
  split.
  { apply (StronglySorted_weaken (fun a b => sortsAfter a b = false)).
    - intros a b. apply descending_leb.
    - apply Array_sort_sorted; [apply sortsAfter_asym | apply sortsAfter_ntrans]. }
  split.
  { intros s. apply Array_sort_stable. intros a b. apply same_size_tied. }
  split.
  { intros l [H | (t & H & Ht)]; unfold sizeOf; rewrite H; [|rewrite Ht]; reflexivity. }
  split; [reflexivity|]. split; [reflexivity|].
  split; [apply skipn_short|].
  split.
  { unfold categorize. intros ->. repeat split. }
  intros layer. rewrite categorize_cta, filter_In. cbv beta.
  rewrite existsb_exists.
  split; intros [Hin (kw & Hkw & Hc)]; (split; [exact Hin|]); exists kw;
    (split; [exact Hkw|]); now apply includes_spec.
Qed.

Lemma hero_roles_by_size_witness :
  getTextLayers (map extractLayerInfo [Sample.submitButton]) = []
  /\ heading (categorize (1440, 900)%float (map extractLayerInfo [Sample.submitButton]))
     = None
  /\ subheading (categorize (1440, 900)%float (map extractLayerInfo [Sample.submitButton]))
     = None
  /\ body (categorize (1440, 900)%float (map extractLayerInfo [Sample.submitButton]))
     = [].
Proof.
  split; [reflexivity|].
  pose proof (proj1 hero_roles_by_size (1440, 900)%float
                (map extractLayerInfo [Sample.submitButton])) as H.
  cbv zeta in H.
  destruct H as (_ & _ & _ & _ & _ & _ & _ & H & _).
  apply H. reflexivity.
Defined.

End HeroFacts.

(* ================================================================== *)
(** * Worked examples *)
(* ================================================================== *)

(** The path of a closed and of an open mask over the same two knots, in
    a 1440 x 900 document. *)
Lemma bezierPathsToSvgPath_sample :
  bezierPathsToSvgPath Sample.no_dtoa [Sample.closedPath] 1440 900
  = "M 360.00 450.00 C 432.00 360.00, 864.00 630.00, 1080.00 900.00 C 1152.00 810.00, 144.00 180.00, 360.00 450.00 Z"
  /\ bezierPathsToSvgPath Sample.no_dtoa
       [ {| Psd.open := true; Psd.knots := [Sample.knotA; Sample.knotB] |} ] 1440 900
     = "M 360.00 450.00 C 432.00 360.00, 864.00 630.00, 1080.00 900.00".
Proof. split; vm_compute; reflexivity. Qed.

(** The palette of a layer with two effects of the same colour and a
    text of another. *)
Lemma extractAllColors_sample :
  let shadow := {| Psd.enabled := None;
                   Psd.effect_color := Some (Color.RGB 255 0 0);
                   Psd.effect_gradient := None |} in
  let effects := {| Psd.dropShadow := Some [shadow; shadow];
                    Psd.innerShadow := None; Psd.outerGlow := None;
                    Psd.innerGlow := None; Psd.solidFill := None;
                    Psd.stroke := None; Psd.satin := None;
                    Psd.gradientOverlay := None |} in
  let palette :=
    extractAllColors
      [ Sample.rawLayer "Card" None (Some [Sample.textWithChild]) None None (Some effects) ] in
  map (fun c => (hex c, source c, layerName c)) (solidColors palette)
  = [ ("#FF0000", "drop-shadow", "Card");
      ("#FF0000", "drop-shadow-2", "Card");
      ("#1A1A1A", "text", "Title") ]
  /\ uniqueColors palette = ["#1A1A1A"; "#FF0000"].
Proof. cbv zeta. split; vm_compute; reflexivity. Qed.

(* ================================================================== *)
(** * Properties of file names *)
(* ================================================================== *)

Section FileNameFacts.

Lemma underscore_clean : clean_char "_" = true.
Proof. reflexivity. Qed.

Lemma replace_forbidden_none (s : string) :
  all_chars (fun c => negb (forbidden_char c)) (replace_forbidden s) = true.
Proof.
  unfold replace_forbidden.
  induction s as [|c s IH]; simpl; [reflexivity|].
  rewrite IH, andb_true_r.
  destruct (forbidden_char c) eqn:E; [reflexivity | now rewrite E].
Qed.

Lemma replace_forbidden_fixed (s : string) :
  all_chars (fun c => negb (forbidden_char c)) s = true ->
  replace_forbidden s = s.
Proof.
  unfold replace_forbidden.
  induction s as [|c s IH]; simpl; [reflexivity|].
  intros H. apply andb_true_iff in H as [Hc Hs].
  apply negb_true_iff in Hc. now rewrite Hc, (IH Hs).
Qed.

Lemma replace_blank_runs_none (b : bool) (s : string) :
  all_chars (fun c => negb (whitespace_char c)) (replace_blank_runs b s) = true.
Proof.
  revert b. induction s as [|c s IH]; intros b; simpl; [reflexivity|].
  destruct (whitespace_char c) eqn:E.
  - destruct b; simpl; now rewrite ?IH.
  - simpl. now rewrite E, IH.
Qed.

Lemma replace_blank_runs_keeps (b : bool) (s : string) :
  all_chars (fun c => negb (forbidden_char c)) s = true ->
  all_chars (fun c => negb (forbidden_char c)) (replace_blank_runs b s) = true.
Proof.
  revert b. induction s as [|c s IH]; intros b; simpl; [reflexivity|].
  intros H. apply andb_true_iff in H as [Hc Hs].
  destruct (whitespace_char c).
  - destruct b; simpl; now rewrite ?IH.
  - simpl. now rewrite Hc, IH.
Qed.

Lemma replace_blank_runs_fixed (b : bool) (s : string) :
  all_chars (fun c => negb (whitespace_char c)) s = true ->
  replace_blank_runs b s = s.
Proof.
  revert b. induction s as [|c s IH]; intros b; simpl; [reflexivity|].
  intros H. apply andb_true_iff in H as [Hc Hs].
  apply negb_true_iff in Hc. now rewrite Hc, (IH false Hs).
Qed.

Lemma all_chars_and (p q : ascii -> bool) (s : string) :
  all_chars (fun c => p c && q c) s = all_chars p s && all_chars q s.
Proof.
  induction s as [|c s IH]; simpl; [reflexivity|].
  rewrite IH. now destruct (p c), (q c), (all_chars p s), (all_chars q s).
Qed.

Lemma sanitize_clean (s : string) :
  all_chars clean_char (sanitizeFilename s) = true.
Proof.
  unfold clean_char, sanitizeFilename. rewrite all_chars_and.
  rewrite replace_blank_runs_keeps by apply replace_forbidden_none.
  now rewrite replace_blank_runs_none.
Qed.

Lemma sanitize_fixed (s : string) :
  all_chars clean_char s = true -> sanitizeFilename s = s.
Proof.
  unfold clean_char, sanitizeFilename. rewrite all_chars_and.
  intros H. apply andb_true_iff in H as [Hf Hw].
  rewrite (replace_forbidden_fixed s Hf). now apply replace_blank_runs_fixed.
Qed.

Lemma map_string_length (f : ascii -> ascii) (s : string) :
  String.length (Js.map_string f s) = String.length s.
Proof. induction s as [|c s IH]; simpl; congruence. Qed.

Lemma replace_blank_runs_length (b : bool) (s : string) :
  (String.length (replace_blank_runs b s) <= String.length s)%nat.
Proof.
  revert b. induction s as [|c s IH]; intros b; simpl; [lia|].
  destruct (whitespace_char c); [destruct b|]; simpl;
    [specialize (IH true) | specialize (IH true) | specialize (IH false)]; lia.
Qed.

(** X1.  Sanitizing a file name twice gives the same name as sanitizing
    it once. *)
Theorem sanitizeFilename_idempotent (name : string) :
  sanitizeFilename (sanitizeFilename name) = sanitizeFilename name.
Proof. apply sanitize_fixed, sanitize_clean. Qed.

(** X2.  A sanitized name holds none of the nine reserved characters and
    no blank, so in particular no path separator; it is never longer
    than the name it comes from; a name that holds no such character is
    returned unchanged. *)
Theorem sanitizeFilename_safe (name : string) :
  all_chars clean_char (sanitizeFilename name) = true
  /\ (forall c, forbidden_char c = true \/ whitespace_char c = true ->
                ~ contains (sanitizeFilename name) (String c ""))
  /\ (String.length (sanitizeFilename name) <= String.length name)%nat
  /\ (all_chars clean_char name = true -> sanitizeFilename name = name).
Proof.
  split; [apply sanitize_clean|]. split; [|split].
  - intros c Hc (before & after & E).
    pose proof (sanitize_clean name) as H. rewrite E in H. clear E.
    induction before as [|d before IH]; simpl in H.
    + apply andb_true_iff in H as [H _]. unfold clean_char in H.
      apply andb_true_iff in H as [Hf Hw].
      destruct Hc as [Hc|Hc]; rewrite Hc in *; discriminate.
    + apply andb_true_iff in H as [_ H]. now apply IH.
  - unfold sanitizeFilename.
    etransitivity; [apply replace_blank_runs_length|].
    unfold replace_forbidden. now rewrite map_string_length.
  - apply sanitize_fixed.
Qed.

Lemma sanitizeFilename_safe_witness :
  all_chars clean_char "hero-banner@2x" = true
  /\ sanitizeFilename "hero-banner@2x" = "hero-banner@2x"
  /\ ~ contains (sanitizeFilename "a/b c") "/".
Proof.
  destruct (sanitizeFilename_safe "hero-banner@2x") as (_ & _ & _ & Hfix).
  destruct (sanitizeFilename_safe "a/b c") as (_ & Hno & _).
  split; [reflexivity|]. split.
  - apply Hfix. reflexivity.
  - apply Hno. left. reflexivity.
Defined.

End FileNameFacts.

(* ================================================================== *)
(** * Walks over a tree *)
(* ================================================================== *)

(** The traversals of [index.ts] all have one of two shapes: collect the
    layers that pass a test, or return the first one; both visit a layer
    before the layers below it.  The facts are proved once, for any tree
    with optional child lists. *)
Section TreeWalks.
Context {T : Type}.
Variable kids : T -> option (list T).
Variable nodes_in : T -> list T.
Hypothesis nodes_in_eq : forall t,
  nodes_in t = t :: match kids t with
                    | Some cs => flat_map nodes_in cs
                    | None => []
                    end.
Hypothesis tree_ind : forall P : T -> Prop,
  (forall t, (forall cs, kids t = Some cs -> Forall P cs) -> P t) ->
  forall t, P t.

Lemma filter_flat_map {A B : Type} (p : B -> bool) (f : A -> list B) (xs : list A) :
  filter p (flat_map f xs) = flat_map (fun x => filter p (f x)) xs.
Proof.
  induction xs as [|x xs IH]; simpl; [reflexivity|].
  now rewrite filter_app, IH.
Qed.

Lemma flat_map_ext_Forall {A B : Type} (f g : A -> list B) (xs : list A) :
  Forall (fun x => f x = g x) xs -> flat_map f xs = flat_map g xs.
Proof. induction 1 as [|x xs Hx _ IH]; simpl; congruence. Qed.

Lemma find_app_first {A : Type} (p : A -> bool) (xs ys : list A) :
  find p (xs ++ ys)
  = match find p xs with
    | Some x => Some x
    | None => find p ys
    end.
Proof.
  induction xs as [|x xs IH]; simpl; [reflexivity|].
  destruct (p x); [reflexivity | exact IH].
Qed.

Lemma find_filter {A : Type} (p q : A -> bool) (xs : list A) :
  find p (filter q xs) = find (fun x => q x && p x) xs.
Proof.
  induction xs as [|x xs IH]; simpl; [reflexivity|].
  destruct (q x); simpl; [|exact IH].
  destruct (p x); [reflexivity | exact IH].
Qed.

Lemma find_ext {A : Type} (p q : A -> bool) (xs : list A) :
  (forall x, p x = q x) -> find p xs = find q xs.
Proof.
  intros H. induction xs as [|x xs IH]; simpl; [reflexivity|].
  now rewrite H, IH.
Qed.

Lemma find_hd_filter {A : Type} (p : A -> bool) (xs : list A) :
  find p xs = hd_error (filter p xs).
Proof.
  induction xs as [|x xs IH]; simpl; [reflexivity|].
  destruct (p x); [reflexivity | exact IH].
Qed.

Section Collect.
Variable p : T -> bool.
Variable collect_in : T -> list T.
Hypothesis collect_in_eq : forall t,
  collect_in t
  = ((if p t then [t] else [])
     ++ match kids t with
        | Some cs => flat_map collect_in cs
        | None => []
        end)%list.

Lemma collect_in_filter (t : T) : collect_in t = filter p (nodes_in t).
Proof.
  induction t as [t IH] using tree_ind.
  rewrite collect_in_eq, nodes_in_eq. simpl filter.
  assert (E : match kids t with
              | Some cs => flat_map collect_in cs
              | None => []
              end
              = filter p match kids t with
                         | Some cs => flat_map nodes_in cs
                         | None => []
                         end).
  { destruct (kids t) as [cs|]; [|reflexivity].
    rewrite filter_flat_map. apply flat_map_ext_Forall. now apply IH. }
  rewrite E. now destruct (p t).
Qed.

Lemma collect_filter (ts : list T) :
  flat_map collect_in ts = filter p (flat_map nodes_in ts).
Proof.
  rewrite filter_flat_map. apply flat_map_ext_Forall.
  apply Forall_forall. intros t _. apply collect_in_filter.
Qed.

End Collect.

Section First.
Variable p : T -> bool.
Variable first_in : T -> option T.
Variable first : list T -> option T.
Hypothesis first_nil : first [] = None.
Hypothesis first_cons : forall t ts,
  first (t :: ts) = match first_in t with
                    | Some x => Some x
                    | None => first ts
                    end.
Hypothesis first_in_eq : forall t,
  first_in t = if p t then Some t
               else match kids t with
                    | Some cs => first cs
                    | None => None
                    end.

Lemma first_of_Forall (ts : list T) :
  Forall (fun t => first_in t = find p (nodes_in t)) ts ->
  first ts = find p (flat_map nodes_in ts).
Proof.
  induction 1 as [|t ts Ht _ IH]; [apply first_nil|].
  rewrite first_cons. simpl flat_map. now rewrite find_app_first, Ht, IH.
Qed.

Lemma first_in_find (t : T) : first_in t = find p (nodes_in t).
Proof.
  induction t as [t IH] using tree_ind.
  rewrite first_in_eq, nodes_in_eq. simpl find.
  destruct (p t); [reflexivity|].
  destruct (kids t) as [cs|]; [|reflexivity].
  apply first_of_Forall. now apply IH.
Qed.

Lemma first_find (ts : list T) : first ts = find p (flat_map nodes_in ts).
Proof.
  apply first_of_Forall, Forall_forall. intros t _. apply first_in_find.
Qed.

End First.

(** The layers below a layer of the tree are layers of the tree. *)
Lemma nodes_in_closed (t : T) :
  forall g cs, In g (nodes_in t) -> kids g = Some cs ->
               incl (flat_map nodes_in cs) (nodes_in t).
Proof.
  induction t as [t IH] using tree_ind.
  intros g cs Hg Hk. rewrite nodes_in_eq in *.
  destruct Hg as [<- | Hg].
  - rewrite Hk. intros x Hx. now right.
  - destruct (kids t) as [cs'|]; [|contradiction].
    specialize (IH cs' eq_refl). rewrite Forall_forall in IH.
    apply in_flat_map in Hg as (c & Hc & Hg).
    intros x Hx. right. apply in_flat_map. exists c. split; [exact Hc|].
    now apply (IH c Hc g cs).
Qed.

Lemma nodes_closed (ts : list T) (g : T) (cs : list T) :
  In g (flat_map nodes_in ts) -> kids g = Some cs ->
  incl (flat_map nodes_in cs) (flat_map nodes_in ts).
Proof.
  intros Hg Hk. apply in_flat_map in Hg as (t & Ht & Hg).
  intros x Hx. apply in_flat_map. exists t. split; [exact Ht|].
  now apply (nodes_in_closed t g cs).
Qed.

End TreeWalks.

(* ================================================================== *)
(** * Properties of the raw traversals *)
(* ================================================================== *)

Section RawWalkFacts.

Lemma rawNodes_in_eq (l : Psd.Layer) :
  rawNodes_in l = l :: match Psd.children l with
                       | Some cs => flat_map rawNodes_in cs
                       | None => []
                       end.
Proof. destruct l; reflexivity. Qed.

Lemma getAllVectorLayers_in_collect (l : Psd.Layer) :
  getAllVectorLayers_in l
  = ((if has_field (Psd.vectorMask l) then [l] else [])
     ++ match Psd.children l with
        | Some cs => flat_map getAllVectorLayers_in cs
        | None => []
        end)%list.
Proof. destruct l; reflexivity. Qed.

(** The vector layers are the layers with a vector mask, in document
    order. *)
Lemma getAllVectorLayers_filter (layers : list Psd.Layer) :
  getAllVectorLayers layers
  = filter (fun l => has_field (Psd.vectorMask l)) (rawNodes layers).
Proof.
  apply (collect_filter Psd.children rawNodes_in rawNodes_in_eq Psd.Layer_tree_ind).
  apply getAllVectorLayers_in_collect.
Qed.

Lemma findVectorLayer_find (layers : list Psd.Layer) (name : string) :
  findVectorLayer layers name
  = find (fun l => name_includes (Psd.name l) name && has_field (Psd.vectorMask l))
         (rawNodes layers).
Proof.
  apply (first_find Psd.children rawNodes_in rawNodes_in_eq Psd.Layer_tree_ind
           _ (findVectorLayer_in name) (fun ls => findVectorLayer ls name)).
  - reflexivity.
  - reflexivity.
  - apply findVectorLayer_in_eq.
Qed.

(** X3.  [findVectorLayer] returns the first of the vector layers, in the
    order [getAllVectorLayers] lists them, whose name contains the query
    case-insensitively; it returns nothing exactly when no vector layer
    has such a name. *)
Theorem findVectorLayer_first_vector_match (layers : list Psd.Layer)
  (name : string) :
  findVectorLayer layers name
  = find (fun l => name_includes (Psd.name l) name) (getAllVectorLayers layers)
  /\ (findVectorLayer layers name = None
      <-> forall l, In l (getAllVectorLayers layers) ->
                    name_includes (Psd.name l) name = false).
Proof.
  assert (E : findVectorLayer layers name
              = find (fun l => name_includes (Psd.name l) name)
                     (getAllVectorLayers layers)).
  { rewrite findVectorLayer_find, getAllVectorLayers_filter, find_filter.
    apply find_ext. intros l. apply andb_comm. }
  split; [exact E|]. rewrite E. split.
  - intros H l Hl. now apply (find_none _ _ H).
  - intros H. destruct (find _ _) as [l|] eqn:Ef; [|reflexivity].
    apply find_some in Ef as [Hl Hn]. rewrite (H l Hl) in Hn. discriminate.
Qed.

Lemma getAllImageLayers_in_collect (l : Psd.Layer) :
  getAllImageLayers_in l
  = ((if Psd.canvas l && negb (has_field (Psd.children l)) then [l] else [])
     ++ match Psd.children l with
        | Some cs => flat_map getAllImageLayers_in cs
        | None => []
        end)%list.
Proof. destruct l; reflexivity. Qed.

Lemma getAllImageLayers_filter (layers : list Psd.Layer) :
  getAllImageLayers layers
  = filter (fun l => Psd.canvas l && negb (has_field (Psd.children l)))
           (rawNodes layers).
Proof.
  apply (collect_filter Psd.children rawNodes_in rawNodes_in_eq Psd.Layer_tree_ind).
  apply getAllImageLayers_in_collect.
Qed.

(** X4.  [getAllImageLayers] lists, in document order, the layers that
    have a canvas and no [children] property.  Each of them is a text or
    an image layer of the canonical tree.  A layer with an empty
    [children] array is never listed, although the canonical tree calls
    it an image when it has a canvas and no text. *)
Theorem getAllImageLayers_leaves_with_canvas (layers : list Psd.Layer) :
  getAllImageLayers layers
  = filter (fun l => Psd.canvas l && negb (has_field (Psd.children l)))
           (rawNodes layers)
  /\ (forall l, In l (getAllImageLayers layers) ->
        type (extractLayerInfo l)
        = if has_field (Psd.text l) then LayerType.text else LayerType.image)
  /\ (forall l, Psd.children l = Some [] ->
        ~ In l (getAllImageLayers layers)
        /\ (Psd.canvas l = true -> Psd.text l = None ->
            type (extractLayerInfo l) = LayerType.image)).
Proof.
  split; [apply getAllImageLayers_filter|]. split.
  - intros l. rewrite getAllImageLayers_filter, filter_In.
    intros [_ H]. apply andb_prop in H as [Hc Hk].
    destruct l as [n hd op lf tp rt bt tx ch cv vm vf vs ef]; simpl in *.
    unfold layerTypeOf, has_children; simpl.
    destruct ch; [discriminate|]. rewrite Hc. now destruct tx.
  - intros l Hk. split.
    + rewrite getAllImageLayers_filter, filter_In. intros [_ H].
      rewrite Hk in H. simpl in H. now rewrite andb_false_r in H.
    + intros Hc Ht.
      destruct l as [n hd op lf tp rt bt tx ch cv vm vf vs ef]; simpl in *.
      unfold layerTypeOf, has_children; simpl. now rewrite Ht, Hk, Hc.
Qed.

Lemma findGroupLayer_in_eq (groupName : string) (layer : Psd.Layer) :
  findGroupLayer_in groupName layer
  = if name_includes (Psd.name layer) groupName && has_field (Psd.children layer)
    then Some layer
    else match Psd.children layer with
         | Some cs => findGroupLayer cs groupName
         | None => None
         end.
Proof.
  destruct layer as [n hd op lf tp rt bt tx ch cv vm vf vs ef]; simpl.
  destruct (name_includes n groupName && has_field ch); [reflexivity|].
  destruct ch as [cs|]; [|reflexivity].
  induction cs as [|c cs IH]; simpl; [reflexivity|].
  now rewrite IH.
Qed.

(** The group of a name is the first layer, in document order, that has
    a [children] property and whose name contains it. *)
Lemma findGroupLayer_find (layers : list Psd.Layer) (groupName : string) :
  findGroupLayer layers groupName
  = find (fun l => name_includes (Psd.name l) groupName
                   && has_field (Psd.children l))
         (rawNodes layers).
Proof.
  apply (first_find Psd.children rawNodes_in rawNodes_in_eq Psd.Layer_tree_ind
           _ (findGroupLayer_in groupName) (fun ls => findGroupLayer ls groupName)).
  - reflexivity.
  - reflexivity.
  - apply findGroupLayer_in_eq.
Qed.

Lemma group_children_nodes (layers : list Psd.Layer) (groupName : string)
  (group : Psd.Layer) :
  findGroupLayer layers groupName = Some group ->
  name_includes (Psd.name group) groupName = true
  /\ In group (rawNodes layers)
  /\ Psd.children group = Some (children_or_empty group)
  /\ incl (rawNodes (children_or_empty group)) (rawNodes layers).
Proof.
  rewrite findGroupLayer_find. intros H. apply find_some in H as [Hin Hp].
  apply andb_prop in Hp as [Hn Hk].
  assert (E : Psd.children group = Some (children_or_empty group)).
  { unfold children_or_empty. destruct (Psd.children group); [reflexivity | discriminate]. }
  repeat split; try assumption.
  exact (nodes_closed Psd.children rawNodes_in rawNodes_in_eq Psd.Layer_tree_ind
           layers group _ Hin E).
Qed.

Lemma findGroupLayer_none (layers : list Psd.Layer) (groupName : string) :
  findGroupLayer layers groupName = None
  <-> forall l, In l (rawNodes layers) -> has_field (Psd.children l) = true ->
                name_includes (Psd.name l) groupName = false.
Proof.
  rewrite findGroupLayer_find. split.
  - intros H l Hl Hk. apply (find_none _ _ H) in Hl.
    rewrite Hk, andb_true_r in Hl. exact Hl.
  - intros H. destruct (find _ _) as [g|] eqn:E; [|reflexivity].
    apply find_some in E as [Hin Hp]. apply andb_prop in Hp as [Hn Hk].
    rewrite (H g Hin Hk) in Hn. discriminate.
Qed.

Lemma incl_filter {A : Type} (p : A -> bool) (xs ys : list A) :
  incl xs ys -> incl (filter p xs) (filter p ys).
Proof.
  intros H x. rewrite !filter_In. intros [Hx Hp]. split; [now apply H | exact Hp].
Qed.

(** X5.  The image layers of a group are image layers of the document:
    those below the first layer, in document order, that has a
    [children] property and whose name contains the group name
    case-insensitively.  When no layer is such a group, the result is
    empty. *)
Theorem getImageLayersFromGroup_within_document (layers : list Psd.Layer)
  (groupName : string) :
  incl (getImageLayersFromGroup layers groupName) (getAllImageLayers layers)
  /\ (forall group,
        find (fun l => name_includes (Psd.name l) groupName
                       && has_field (Psd.children l)) (rawNodes layers)
        = Some group ->
        getImageLayersFromGroup layers groupName
        = getAllImageLayers (children_or_empty group))
  /\ ((forall l, In l (rawNodes layers) -> has_field (Psd.children l) = true ->
                 name_includes (Psd.name l) groupName = false) ->
      getImageLayersFromGroup layers groupName = []).
Proof.
  unfold getImageLayersFromGroup. repeat split.
  - destruct (findGroupLayer layers groupName) as [g|] eqn:E.
    + apply group_children_nodes in E as (_ & _ & _ & Hincl).
      rewrite !getAllImageLayers_filter. now apply incl_filter.
    + intros x [].
  - intros group H. now rewrite findGroupLayer_find, H.
  - intros H. apply findGroupLayer_none in H. now rewrite H.
Qed.

Section ExportFacts.
Variable dtoa : float -> string.




End ExportFacts.

End RawWalkFacts.

(* ================================================================== *)
(** * Properties of the searches in the canonical tree *)
(* ================================================================== *)

Section InfoWalkFacts.

Lemma infoNodes_in_eq (l : LayerInfo) :
  infoNodes_in l = l :: match children l with
                        | Some cs => flat_map infoNodes_in cs
                        | None => []
                        end.
Proof. destruct l; reflexivity. Qed.

Lemma searchLayersByName_in_collect (query : string) (l : LayerInfo) :
  searchLayersByName_in query l
  = ((if nameMatches query false l then [l] else [])
     ++ match children l with
        | Some cs => flat_map (searchLayersByName_in query) cs
        | None => []
        end)%list.
Proof. destruct l; reflexivity. Qed.

Lemma searchLayersByName_filter (layers : list LayerInfo) (query : string) :
  searchLayersByName layers query
  = filter (nameMatches query false) (infoNodes layers).
Proof.
  apply (collect_filter children infoNodes_in infoNodes_in_eq LayerInfo_tree_ind).
  apply searchLayersByName_in_collect.
Qed.

Lemma getTextLayers_in_collect (l : LayerInfo) :
  getTextLayers_in l
  = ((if is_text l then [l] else [])
     ++ match children l with
        | Some cs => flat_map getTextLayers_in cs
        | None => []
        end)%list.
Proof. destruct l as [n [] v o b tx ch]; reflexivity. Qed.

Lemma getTextLayers_filter (layers : list LayerInfo) :
  getTextLayers layers = filter is_text (infoNodes layers).
Proof.
  apply (collect_filter children infoNodes_in infoNodes_in_eq LayerInfo_tree_ind).
  apply getTextLayers_in_collect.
Qed.

Lemma findLayerByName_in_eq (query : string) (exact : bool) (l : LayerInfo) :
  findLayerByName_in query exact l
  = if nameMatches query exact l then Some l
    else match children l with
         | Some cs => findLayerByName cs query exact
         | None => None
         end.
Proof.
  destruct l as [n t v o b tx ch]; simpl.
  destruct (nameMatches query exact _); [reflexivity|].
  destruct ch as [cs|]; [|reflexivity].
  induction cs as [|c cs IH]; simpl; [reflexivity|].
  now rewrite IH.
Qed.

Lemma findLayerByName_find (layers : list LayerInfo) (query : string)
  (exact : bool) :
  findLayerByName layers query exact
  = find (nameMatches query exact) (infoNodes layers).
Proof.
  apply (first_find children infoNodes_in infoNodes_in_eq LayerInfo_tree_ind
           _ (findLayerByName_in query exact)
           (fun ls => findLayerByName ls query exact)).
  - reflexivity.
  - reflexivity.
  - apply findLayerByName_in_eq.
Qed.

Lemma includes_empty (s : string) : includes s "" = true.
Proof. apply includes_spec. exists "", s. reflexivity. Qed.

Lemma includes_self (s : string) : includes s s = true.
Proof.
  apply includes_spec. exists "", "". simpl.
  induction s as [|c s IH]; simpl; [reflexivity | now rewrite <- IH].
Qed.

Lemma filter_all {A : Type} (p : A -> bool) (xs : list A) :
  (forall x, p x = true) -> filter p xs = xs.
Proof.
  intros H. induction xs as [|x xs IH]; simpl; [reflexivity|].
  now rewrite H, IH.
Qed.

Lemma infoNodes_head (layers : list LayerInfo) :
  hd_error (infoNodes layers) = hd_error layers.
Proof.
  destruct layers as [|l ls]; [reflexivity|].
  unfold infoNodes. simpl flat_map. now rewrite infoNodes_in_eq.
Qed.

(** X7.  The partial search of [findLayerByName] returns the first
    result of [searchLayersByName]: the first layer, in document order,
    whose name contains the query case-insensitively.  It finds nothing
    exactly when the search has no result.  With an empty query every
    layer matches, so the layer found is the first layer of the
    document. *)
Theorem findLayerByName_first_search_result (layers : list LayerInfo)
  (query : string) :
  findLayerByName layers query false = hd_error (searchLayersByName layers query)
  /\ (forall l, In l (searchLayersByName layers query)
                <-> In l (infoNodes layers)
                    /\ contains (Js.toLowerCase (name l)) (Js.toLowerCase query))
  /\ (findLayerByName layers query false = None
      <-> searchLayersByName layers query = [])
  /\ searchLayersByName layers "" = infoNodes layers
  /\ findLayerByName layers "" false = hd_error layers.
Proof.
  assert (E : findLayerByName layers query false
              = hd_error (searchLayersByName layers query)).
  { now rewrite findLayerByName_find, searchLayersByName_filter, find_hd_filter. }
  assert (All : searchLayersByName layers "" = infoNodes layers).
  { rewrite searchLayersByName_filter. apply filter_all.
    intros l. apply includes_empty. }
  split; [exact E|]. split; [|split; [|split]].
  - intros l. rewrite searchLayersByName_filter, filter_In.
    unfold nameMatches. now rewrite includes_spec.
  - rewrite E. destruct (searchLayersByName layers query); simpl.
    + tauto.
    + split; discriminate.
  - exact All.
  - rewrite findLayerByName_find, find_hd_filter,
      <- searchLayersByName_filter, All.
    apply infoNodes_head.
Qed.

(** X8.  The exact search of [findLayerByName] returns the first layer,
    in document order, whose name is the query, character for character.
    It finds nothing exactly when no layer of the tree has that name; and
    whenever it finds a layer, the partial search for the same name finds
    one too. *)
Theorem findLayerByName_exact (layers : list LayerInfo) (query : string) :
  findLayerByName layers query true
  = find (fun l => (name l =? query)%string) (infoNodes layers)
  /\ (forall l, findLayerByName layers query true = Some l ->
        name l = query /\ In l (infoNodes layers)
        /\ In l (searchLayersByName layers query)
        /\ findLayerByName layers query false <> None)
  /\ (findLayerByName layers query true = None
      <-> forall l, In l (infoNodes layers) -> name l <> query).
Proof.
  assert (E : findLayerByName layers query true
              = find (fun l => (name l =? query)%string) (infoNodes layers))
    by apply findLayerByName_find.
  split; [exact E|]. split.
  - intros l H. rewrite E in H. apply find_some in H as [Hin Hn].
    apply String.eqb_eq in Hn.
    assert (Hs : In l (searchLayersByName layers query)).
    { rewrite searchLayersByName_filter, filter_In. split; [exact Hin|].
      unfold nameMatches. rewrite Hn. apply includes_self. }
    repeat split; try assumption.
    rewrite findLayerByName_find, find_hd_filter, <- searchLayersByName_filter.
    destruct (searchLayersByName layers query); [contradiction | discriminate].
  - rewrite E. split.
    + intros H l Hl. apply (find_none _ _ H) in Hl.
      now apply String.eqb_neq in Hl.
    + intros H. destruct (find _ _) as [l|] eqn:Ef; [|reflexivity].
      apply find_some in Ef as [Hin Hn]. apply String.eqb_eq in Hn.
      now elim (H l Hin).
Qed.

Lemma children_extractLayerInfo (layer : Psd.Layer) :
  children (extractLayerInfo layer)
  = match Psd.children layer with
    | Some ((_ :: _) as cs) => Some (map extractLayerInfo cs)
    | _ => None
    end.
Proof. destruct layer; reflexivity. Qed.

Lemma flat_map_map_Forall {A B : Type} (f : A -> B) (na : A -> list A)
  (nb : B -> list B) (xs : list A) :
  Forall (fun x => nb (f x) = map f (na x)) xs ->
  flat_map nb (map f xs) = map f (flat_map na xs).
Proof.
  induction 1 as [|x xs Hx _ IH]; simpl; [reflexivity|].
  now rewrite map_app, Hx, IH.
Qed.

Lemma infoNodes_in_extract (layer : Psd.Layer) :
  infoNodes_in (extractLayerInfo layer) = map extractLayerInfo (rawNodes_in layer).
Proof.
  induction layer as [layer IH] using Psd.Layer_tree_ind.
  rewrite infoNodes_in_eq, rawNodes_in_eq, children_extractLayerInfo.
  simpl map. f_equal.
  destruct (Psd.children layer) as [[|c cs]|]; try reflexivity.
  apply flat_map_map_Forall. now apply IH.
Qed.

Lemma infoNodes_extract (layers : list Psd.Layer) :
  infoNodes (map extractLayerInfo layers) = map extractLayerInfo (rawNodes layers).
Proof.
  apply flat_map_map_Forall, Forall_forall. intros l _. apply infoNodes_in_extract.
Qed.

Lemma is_text_extract (layer : Psd.Layer) :
  is_text (extractLayerInfo layer) = has_field (Psd.text layer).
Proof.
  destruct layer as [n hd op lf tp rt bt tx ch cv vm vf vs ef].
  unfold is_text, extractLayerInfo, layerTypeOf, has_children; simpl.
  destruct tx; [reflexivity|].
  destruct ch as [[|c cs]|]; simpl; try reflexivity;
    destruct cv; simpl; try reflexivity;
    destruct (has_field vm || has_field vs); reflexivity.
Qed.

Lemma filter_map_commute {A B : Type} (f : A -> B) (p : B -> bool) (xs : list A) :
  filter p (map f xs) = map f (filter (fun x => p (f x)) xs).
Proof.
  induction xs as [|x xs IH]; simpl; [reflexivity|].
  rewrite IH. now destruct (p (f x)).
Qed.

Lemma buildLayers_map (psd_children : option (list Psd.Layer)) :
  buildLayers psd_children = map extractLayerInfo (rawLayers psd_children).
Proof. destruct psd_children; reflexivity. Qed.

(** X9.  The canonical tree has one node for every layer of the
    document, in the same order, each built by [extractLayerInfo] from
    its layer; and [getTextLayers] on the canonical tree returns, in
    document order, the nodes built from the layers that have a [text]
    property, wherever they are in the tree. *)
Theorem canonical_tree_node_for_node (psd_children : option (list Psd.Layer)) :
  infoNodes (buildLayers psd_children)
  = map extractLayerInfo (rawNodes (rawLayers psd_children))
  /\ getTextLayers (buildLayers psd_children)
     = map extractLayerInfo
         (filter (fun l => has_field (Psd.text l))
                 (rawNodes (rawLayers psd_children)))
  /\ List.length (infoNodes (buildLayers psd_children))
     = List.length (rawNodes (rawLayers psd_children)).
Proof.
  rewrite buildLayers_map, getTextLayers_filter, infoNodes_extract.
  split; [reflexivity|]. split.
  - rewrite filter_map_commute. f_equal. apply filter_ext.
    intros l. apply is_text_extract.
  - apply length_map.
Qed.

(** X10.  Every node of a canonical tree, at any depth, has a name that
    is not empty; it has a [text] exactly when its type is text; a group
    has children and no text; children, when present, are not empty, and
    only a group or a text node has any. *)
Theorem canonical_tree_node_invariants (psd_children : option (list Psd.Layer)) :
  Forall (fun node =>
    name node <> ""
    /\ (text node <> None <-> type node = LayerType.text)
    /\ (type node = LayerType.group -> children node <> None /\ text node = None)
    /\ children node <> Some []
    /\ (children node <> None ->
        type node = LayerType.group \/ type node = LayerType.text))
    (infoNodes (buildLayers psd_children)).
Proof.
  apply Forall_forall.
  intros node. rewrite buildLayers_map, infoNodes_extract, in_map_iff.
  intros (l & <- & _).
  destruct l as [n hd op lf tp rt bt tx ch cv vm vf vs ef].
  unfold extractLayerInfo, layerTypeOf, has_children; simpl.
  repeat split.
  - destruct n as [[|c n]|]; discriminate.
  - destruct tx; [reflexivity | congruence].
  - destruct tx; [discriminate|]. simpl.
    destruct ch as [[|c cs]|]; simpl; destruct cv; simpl;
      destruct (has_field vm || has_field vs); discriminate.
  - destruct tx; [discriminate|]. destruct ch as [[|c cs]|]; simpl;
      try discriminate; destruct cv; simpl;
      destruct (has_field vm || has_field vs); discriminate.
  - destruct tx; [discriminate | reflexivity].
  - destruct ch as [[|c cs]|]; discriminate.
  - destruct ch as [[|c cs]|]; try congruence. intros _.
    destruct tx; [now right | now left].
Qed.

End InfoWalkFacts.

(* ================================================================== *)
(** * Properties of the printed tree *)
(* ================================================================== *)

Section PrintFacts.

Lemma depth_in_eq (l : LayerInfo) :
  depth_in l = match children l with
               | Some ((_ :: _) as cs) => S (list_max (map depth_in cs))
               | _ => 0%nat
               end.
Proof. destruct l; reflexivity. Qed.

Lemma children_with_children (l : LayerInfo) (cs : option (list LayerInfo)) :
  children (with_children l cs) = cs.
Proof. reflexivity. Qed.

Lemma list_max_map_le {A : Type} (f g : A -> nat) (xs : list A) :
  Forall (fun x => (f x <= g x)%nat) xs ->
  (list_max (map f xs) <= list_max (map g xs))%nat.
Proof.
  induction 1 as [|x xs Hx _ IH]; simpl; [apply le_n|].
  apply Nat.max_le_compat; assumption.
Qed.

Lemma list_max_map_bound {A : Type} (f : A -> nat) (xs : list A) (n : nat) :
  Forall (fun x => (f x <= n)%nat) xs -> (list_max (map f xs) <= n)%nat.
Proof.
  induction 1 as [|x xs Hx _ IH]; simpl; [apply Nat.le_0_l|].
  now apply Nat.max_lub.
Qed.

Lemma limitDepth_in_depth (N : nat) (l : LayerInfo) :
  forall d, (depth_in (limitDepth_in d N l) <= N - d + 1)%nat
            /\ (depth_in (limitDepth_in d N l) <= depth_in l)%nat.
Proof.
  induction l as [l IH] using LayerInfo_tree_ind.
  intros d. rewrite limitDepth_in_eq.
  destruct (N <=? d)%nat eqn:Hcut.
  - rewrite (depth_in_eq l).
    destruct (children l) as [[|c cs]|]; try (split; apply Nat.le_0_l).
    change (depth_in (with_children l (Some [placeholder (List.length (c :: cs))])))
      with 1%nat.
    split; lia.
  - apply Nat.leb_gt in Hcut.
    rewrite (depth_in_eq (with_children _ _)), children_with_children,
      (depth_in_eq l).
    destruct (children l) as [[|c cs]|]; try (split; apply Nat.le_0_l).
    specialize (IH (c :: cs) eq_refl).
    unfold limitDepth. rewrite map_map.
    change (match map (limitDepth_in (S d) N) (c :: cs) with
            | [] => 0%nat
            | _ :: _ =>
                S (list_max (map (fun x => depth_in (limitDepth_in (S d) N x))
                                 (c :: cs)))
            end)
      with (S (list_max (map (fun x => depth_in (limitDepth_in (S d) N x))
                             (c :: cs)))).
    split.
    + assert (H : (list_max (map (fun x => depth_in (limitDepth_in (S d) N x))
                               (c :: cs)) <= N - S d + 1)%nat).
      { apply list_max_map_bound. eapply Forall_impl; [|exact IH].
        intros x Hx. apply Hx. }
      lia.
    + apply le_n_S. apply list_max_map_le. eapply Forall_impl; [|exact IH].
      intros x Hx. apply Hx.
Qed.

Lemma infoNodes_in_nonempty (l : LayerInfo) : (1 <= List.length (infoNodes_in l))%nat.
Proof. rewrite infoNodes_in_eq. simpl. lia. Qed.

Lemma flat_map_length_le {A B : Type} (f g : A -> list B) (xs : list A) :
  Forall (fun x => (List.length (f x) <= List.length (g x))%nat) xs ->
  (List.length (flat_map f xs) <= List.length (flat_map g xs))%nat.
Proof.
  induction 1 as [|x xs Hx _ IH]; simpl; [apply le_n|].
  rewrite !length_app. lia.
Qed.

Lemma limitDepth_in_nodes (N : nat) (l : LayerInfo) :
  forall d, (List.length (infoNodes_in (limitDepth_in d N l))
             <= List.length (infoNodes_in l))%nat.
Proof.
  induction l as [l IH] using LayerInfo_tree_ind.
  intros d. rewrite limitDepth_in_eq.
  destruct (N <=? d)%nat.
  - rewrite (infoNodes_in_eq (with_children _ _)), children_with_children,
      (infoNodes_in_eq l).
    destruct (children l) as [[|c cs]|]; simpl; try lia.
    rewrite length_app. pose proof (infoNodes_in_nonempty c). lia.
  - rewrite (infoNodes_in_eq (with_children _ _)), children_with_children,
      (infoNodes_in_eq l).
    destruct (children l) as [cs|]; simpl; [|lia].
    apply le_n_S. specialize (IH cs eq_refl).
    unfold limitDepth. rewrite flat_map_concat_map, map_map, <- flat_map_concat_map.
    apply flat_map_length_le. eapply Forall_impl; [|exact IH].
    intros x Hx. apply Hx.
Qed.

(** X11.  The listing cut at depth [N] is at most [N + 1] levels deep
    below its top level (the last level holding only placeholders), never
    deeper than the tree and never with more nodes; the top-level layers
    keep their number, order and names. *)
Theorem limitDepth_bounds (layers : list LayerInfo) (N : nat) :
  (treeDepth (limitDepth layers 0 N) <= N + 1)%nat
  /\ (treeDepth (limitDepth layers 0 N) <= treeDepth layers)%nat
  /\ (List.length (infoNodes (limitDepth layers 0 N))
      <= List.length (infoNodes layers))%nat
  /\ map name (limitDepth layers 0 N) = map name layers.
Proof.
  unfold treeDepth, limitDepth, infoNodes. repeat split.
  - rewrite map_map. apply list_max_map_bound, Forall_forall. intros l _.
    destruct (limitDepth_in_depth N l 0) as [H _]. lia.
  - rewrite map_map. apply list_max_map_le, Forall_forall. intros l _.
    apply (limitDepth_in_depth N l 0).
  - rewrite flat_map_concat_map, map_map, <- flat_map_concat_map.
    apply flat_map_length_le, Forall_forall. intros l _.
    apply limitDepth_in_nodes.
  - rewrite map_map. apply map_ext. intros l.
    rewrite limitDepth_in_eq. now destruct (N <=? 0)%nat.
Qed.

(** ** Joining lines *)

Lemma concat_cons_cons (sep x y : string) (ys : list string) :
  String.concat sep (x :: y :: ys) = x ++ sep ++ String.concat sep (y :: ys).
Proof. reflexivity. Qed.

Lemma string_app_assoc (a b c : string) : (a ++ b) ++ c = a ++ b ++ c.
Proof. induction a as [|x a IH]; simpl; [reflexivity | now rewrite IH]. Qed.

Lemma concat_app_cons (sep : string) (xs : list string) (y : string)
  (ys : list string) :
  xs <> [] ->
  String.concat sep (xs ++ y :: ys)%list
  = String.concat sep xs ++ sep ++ String.concat sep (y :: ys).
Proof.
  induction xs as [|x xs IH]; [congruence|]. intros _.
  destruct xs as [|x' xs].
  - reflexivity.
  - change ((x :: x' :: xs) ++ y :: ys)%list
      with (x :: x' :: (xs ++ y :: ys)%list).
    rewrite !concat_cons_cons.
    change (x' :: (xs ++ y :: ys)%list) with ((x' :: xs) ++ y :: ys)%list.
    rewrite IH by discriminate.
    rewrite !string_app_assoc. reflexivity.
Qed.

Lemma same_text_refl (xs : list string) : same_text xs xs.
Proof. split; [tauto | reflexivity]. Qed.

Lemma same_text_app (a b c d : list string) :
  same_text a b -> same_text c d -> same_text (a ++ c)%list (b ++ d)%list.
Proof.
  intros [Hab Eab] [Hcd Ecd]. unfold same_text, Js.join in *.
  destruct a as [|a0 a]; destruct b as [|b0 b];
    try (exfalso; destruct Hab as [H1 H2];
         first [specialize (H1 eq_refl) | specialize (H2 eq_refl)]; discriminate).
  - simpl. split; assumption.
  - destruct c as [|c0 c]; destruct d as [|d0 d];
      try (exfalso; destruct Hcd as [H1 H2];
           first [specialize (H1 eq_refl) | specialize (H2 eq_refl)]; discriminate).
    + rewrite !app_nil_r. split; [split; discriminate | assumption].
    + split; [split; discriminate|].
      rewrite !concat_app_cons by discriminate. now rewrite Eab, Ecd.
Qed.

Lemma same_text_join (ys : list string) :
  ys <> [] -> same_text [Js.join newline ys] ys.
Proof.
  intros H. split; [|reflexivity]. split; [discriminate | congruence].
Qed.

Lemma same_text_trans (a b c : list string) :
  same_text a b -> same_text b c -> same_text a c.
Proof. intros [H1 E1] [H2 E2]. split; [tauto | congruence]. Qed.

Lemma formatLayer_eq (prefix : string) (isLast : bool) (l : LayerInfo) :
  formatLayer prefix isLast l
  = layerLine prefix isLast l
    :: match children l with
       | Some ((_ :: _) as cs) =>
           [Js.join newline (formatLayers (prefix ++ childPrefix isLast) cs)]
       | _ => []
       end.
Proof.
  assert (E : forall ls,
             (fix each (layers : list LayerInfo) : list string :=
                match layers with
                | [] => []
                | l :: rest =>
                    (formatLayer (prefix ++ childPrefix isLast) (is_last rest) l
                     ++ each rest)%list
                end) ls
             = formatLayers (prefix ++ childPrefix isLast) ls).
  { induction ls as [|x xs IH]; simpl; [reflexivity | now rewrite IH]. }
  destruct l as [n t v o b tx ch]; simpl.
  destruct ch as [[|c cs]|]; try reflexivity.
  now rewrite E.
Qed.

Lemma treeLines_in_eq (prefix : string) (isLast : bool) (l : LayerInfo) :
  treeLines_in prefix isLast l
  = layerLine prefix isLast l
    :: match children l with
       | Some cs => treeLines (prefix ++ childPrefix isLast) cs
       | None => []
       end.
Proof.
  destruct l as [n t v o b tx ch]; simpl.
  destruct ch as [cs|]; [|reflexivity].
  f_equal.
  induction cs as [|x xs IH]; simpl; [reflexivity | now rewrite IH].
Qed.

Lemma formatLayers_same_text (layers : list LayerInfo) :
  Forall (fun l => forall prefix isLast,
            same_text (formatLayer prefix isLast l) (treeLines_in prefix isLast l))
         layers ->
  forall prefix, same_text (formatLayers prefix layers) (treeLines prefix layers).
Proof.
  induction 1 as [|l ls Hl _ IH]; intros prefix; simpl.
  - apply same_text_refl.
  - apply same_text_app; [apply Hl | apply IH].
Qed.

Lemma formatLayer_same_text (l : LayerInfo) :
  forall prefix isLast,
    same_text (formatLayer prefix isLast l) (treeLines_in prefix isLast l).
Proof.
  induction l as [l IH] using LayerInfo_tree_ind.
  intros prefix isLast. rewrite formatLayer_eq, treeLines_in_eq.
  apply (same_text_app [_] [_]); [apply same_text_refl|].
  destruct (children l) as [[|c cs]|]; try apply same_text_refl.
  pose proof (formatLayers_same_text (c :: cs) (IH _ eq_refl)
                (prefix ++ childPrefix isLast)) as H.
  eapply same_text_trans; [|exact H].
  apply same_text_join. simpl. rewrite formatLayer_eq. discriminate.
Qed.

Lemma treeLines_nodes (layers : list LayerInfo) :
  Forall (fun l => forall prefix isLast,
            Forall2 (fun line node => exists p b, line = layerLine p b node)
                    (treeLines_in prefix isLast l) (infoNodes_in l))
         layers ->
  forall prefix,
    Forall2 (fun line node => exists p b, line = layerLine p b node)
            (treeLines prefix layers) (infoNodes layers).
Proof.
  induction 1 as [|l ls Hl _ IH]; intros prefix; simpl; [constructor|].
  apply Forall2_app; [apply Hl | apply IH].
Qed.

Lemma treeLines_in_nodes (l : LayerInfo) :
  forall prefix isLast,
    Forall2 (fun line node => exists p b, line = layerLine p b node)
            (treeLines_in prefix isLast l) (infoNodes_in l).
Proof.
  induction l as [l IH] using LayerInfo_tree_ind.
  intros prefix isLast. rewrite treeLines_in_eq, infoNodes_in_eq.
  constructor; [now exists prefix, isLast|].
  destruct (children l) as [cs|]; [|constructor].
  apply treeLines_nodes. now apply IH.
Qed.

(** X12.  The text of [formatLayerTree] is the lines of the tree joined
    by line feeds, one line per layer in document order: the nested
    joins of the recursion flatten, and a layer without children adds no
    empty line. *)
Theorem formatLayerTree_one_line_per_layer (layers : list LayerInfo)
  (prefix : string) :
  formatLayerTree layers prefix = Js.join newline (treeLines prefix layers)
  /\ Forall2 (fun line node => exists p b, line = layerLine p b node)
             (treeLines prefix layers) (infoNodes layers)
  /\ List.length (treeLines prefix layers) = List.length (infoNodes layers).
Proof.
  assert (H : Forall2 (fun line node => exists p b, line = layerLine p b node)
                      (treeLines prefix layers) (infoNodes layers)).
  { apply treeLines_nodes, Forall_forall. intros l _. apply treeLines_in_nodes. }
  split; [|split].
  - unfold formatLayerTree. apply formatLayers_same_text, Forall_forall.
    intros l _. apply formatLayer_same_text.
  - exact H.
  - exact (Forall2_length H).
Qed.

Lemma formatLayers_Forall2 (xs ys : list LayerInfo) :
  Forall2 (fun a b => forall prefix isLast,
             formatLayer prefix isLast a = formatLayer prefix isLast b) xs ys ->
  forall prefix, formatLayers prefix xs = formatLayers prefix ys.
Proof.
  induction 1 as [|a b xs ys Hab Hrest IH]; intros prefix; simpl; [reflexivity|].
  rewrite IH, Hab. now destruct Hrest.
Qed.

Lemma Forall_Forall2 {A B : Type} (P : A -> B -> Prop) (R : A -> B -> Prop)
  (xs : list A) (ys : list B) :
  Forall (fun a => forall b, R a b -> P a b) xs -> Forall2 R xs ys ->
  Forall2 P xs ys.
Proof.
  intros H F. induction F as [|a b xs ys Hab _ IH]; [constructor|].
  inversion H; subst. constructor; auto.
Qed.

(** The printed tree reads the name, the type, the visibility and the
    children of a layer, and nothing else. *)
Lemma formatLayer_same_tree (l : LayerInfo) :
  forall l', same_tree l l' ->
  forall prefix isLast, formatLayer prefix isLast l = formatLayer prefix isLast l'.
Proof.
  induction l as [l IH] using LayerInfo_tree_ind.
  intros l' Hs prefix isLast.
  inversion Hs as [a b Hn Ht Hv _ _ _ Hk]; subst a b.
  rewrite !formatLayer_eq. unfold layerLine. rewrite Hn, Ht, Hv. f_equal.
  unfold childLayers in Hk.
  destruct (children l) as [[|c cs]|] eqn:El;
    destruct (children l') as [[|c' cs']|] eqn:El';
    try reflexivity; try (inversion Hk; fail).
  do 2 f_equal. apply formatLayers_Forall2.
  apply (Forall_Forall2 _ same_tree); [|exact Hk].
  now apply IH.
Qed.

Lemma formatLayerTree_same_tree (xs ys : list LayerInfo) (prefix : string) :
  Forall2 same_tree xs ys -> formatLayerTree xs prefix = formatLayerTree ys prefix.
Proof.
  intros H. unfold formatLayerTree. f_equal. apply formatLayers_Forall2.
  apply (Forall_Forall2 _ same_tree); [|exact H].
  apply Forall_forall. intros l _. apply formatLayer_same_tree.
Qed.

Lemma limitDepth_deep_same (layers : list LayerInfo) (N : nat) :
  (treeDepth layers <= N)%nat -> Forall2 same_tree (limitDepth layers 0 N) layers.
Proof.
  intros HN. unfold limitDepth.
  assert (H : forall l, In l layers -> same_tree (limitDepth_in 0 N l) l).
  { intros l Hl. apply limitDepth_in_deep. now apply (treeDepth_bound layers). }
  clear HN. induction layers as [|l ls IH]; simpl; constructor.
  - apply H. now left.
  - apply IH. intros x Hx. apply H. now right.
Qed.

(** X13.  When the depth given to [list_layers] is at least the depth of
    the tree, the listing is the one printed without a depth,
    character for character: no placeholder line appears, also where the
    tree writes the absence of children as an empty array. *)
Theorem list_layers_depth_beyond_tree (dtoa : float -> string)
  (size : float * float) (layers : list LayerInfo) (N : nat) :
  (treeDepth layers <= N)%nat ->
  formatLayerTree (limitDepth layers 0 N) "" = formatLayerTree layers ""
  /\ list_layers dtoa size layers (Some N) = list_layers dtoa size layers None.
Proof.
  intros HN.
  assert (E : formatLayerTree (limitDepth layers 0 N) "" = formatLayerTree layers "")
    by (apply formatLayerTree_same_tree, limitDepth_deep_same, HN).
  split; [exact E|]. unfold list_layers, layersToShow.
  destruct N as [|N]; [reflexivity|]. now rewrite E.
Qed.

Lemma list_layers_depth_beyond_tree_witness :
  (treeDepth Sample.infoForest <= 2)%nat
  /\ list_layers Sample.no_dtoa (800%float, 600%float) Sample.infoForest (Some 2%nat)
     = list_layers Sample.no_dtoa (800%float, 600%float) Sample.infoForest None.
Proof.
  assert (Hd : (treeDepth Sample.infoForest <= 2)%nat) by (vm_compute; lia).
  split; [exact Hd|].
  apply (list_layers_depth_beyond_tree Sample.no_dtoa (800%float, 600%float)
           Sample.infoForest 2 Hd).
Defined.

End PrintFacts.

(* ================================================================== *)
(** * More properties of the hero section *)
(* ================================================================== *)

Section HeroScopeFacts.

Lemma roles_split {A : Type} (xs : list A) :
  (option_list (nth_error xs 0) ++ option_list (nth_error xs 1) ++ skipn 2 xs)%list
  = xs.
Proof. destruct xs as [|a [|b xs]]; reflexivity. Qed.

Lemma sizeOf_leb_refl (l : LayerInfo) : (sizeOf l <=? sizeOf l)%float = true.
Proof.
  apply descending_leb. destruct (sortsAfter l l) eqn:E; [|reflexivity].
  pose proof (sortsAfter_asym l l E). congruence.
Qed.

Lemma sorted_by_size (texts : list LayerInfo) :
  StronglySorted (fun a b => (sizeOf b <=? sizeOf a)%float = true)
                 (Array_sort sortsAfter texts).
Proof.
  apply (StronglySorted_weaken (fun a b => sortsAfter a b = false)).
  - intros a b. apply descending_leb.
  - apply Array_sort_sorted; [apply sortsAfter_asym | apply sortsAfter_ntrans].
Qed.

(** X14.  Every text layer of the scope gets exactly one role: heading,
    subheading and body together are a rearrangement of the text layers.
    No text layer is larger than the heading, and no body text is larger
    than the subheading.  There is a heading unless the scope has no
    text layer, and a subheading unless it has fewer than two. *)
Theorem hero_roles_partition (size : float * float) (scope : list LayerInfo) :
  let texts := getTextLayers scope in
  let result := categorize size scope in
  Permutation (option_list (heading result) ++ option_list (subheading result)
               ++ body result)%list texts
  /\ (forall h t, heading result = Some h -> In t texts ->
                  (sizeOf t <=? sizeOf h)%float = true)
  /\ (forall sub t, subheading result = Some sub -> In t (body result) ->
                    (sizeOf t <=? sizeOf sub)%float = true)
  /\ (heading result = None <-> texts = [])
  /\ (subheading result = None <-> (List.length texts <= 1)%nat)
  /\ List.length (body result) = (List.length texts - 2)%nat.
Proof.
  intros texts result.
  pose proof (Array_sort_perm sortsAfter texts) as Hperm.
  pose proof (sorted_by_size texts) as Hsorted.
  assert (Hlen := Permutation_length Hperm).
  unfold result, categorize. cbn [heading subheading body].
  fold texts. rewrite skipn_short.
  set (sorted := Array_sort sortsAfter texts) in *.
  split; [now rewrite roles_split|]. split; [|split; [|split; [|split]]].
  - intros h t Hh Ht.
    apply (Permutation_in _ (Permutation_sym Hperm)) in Ht.
    destruct sorted as [|a rest]; [discriminate|]. injection Hh as ->.
    destruct Ht as [<- | Ht]; [apply sizeOf_leb_refl|].
    inversion Hsorted as [|? ? _ Hall]; subst.
    rewrite Forall_forall in Hall. now apply Hall.
  - intros sub t Hs Ht.
    destruct sorted as [|a [|b rest]]; try discriminate. injection Hs as ->.
    simpl in Ht.
    inversion Hsorted as [|? ? Hrest _]; subst.
    inversion Hrest as [|? ? _ Hall]; subst.
    rewrite Forall_forall in Hall. now apply Hall.
  - destruct sorted as [|a rest]; destruct texts as [|t ts]; simpl in *;
      try discriminate; split; try discriminate; reflexivity.
  - destruct sorted as [|a [|b rest]]; simpl in *; rewrite <- Hlen;
      split; try discriminate; try lia; reflexivity.
  - rewrite length_skipn. lia.
Qed.

Lemma findGroup_in_eq (heroGroupName : string) (l : LayerInfo) :
  findGroup_in heroGroupName l
  = if nameMatches heroGroupName false l then Some (scopeOf l)
    else match children l with
         | Some cs => findGroup heroGroupName cs
         | None => None
         end.
Proof.
  destruct l as [n t v o b tx ch]; unfold nameMatches, scopeOf; simpl.
  destruct (includes _ _).
  - now destruct ch.
  - destruct ch as [cs|]; [|reflexivity].
    induction cs as [|c cs IH]; simpl; [reflexivity|].
    now rewrite IH.
Qed.

Lemma findGroup_of_Forall (heroGroupName : string) (layers : list LayerInfo) :
  Forall (fun l => findGroup_in heroGroupName l
                   = option_map scopeOf (findLayerByName_in heroGroupName false l))
         layers ->
  findGroup heroGroupName layers
  = option_map scopeOf (findLayerByName layers heroGroupName false).
Proof.
  induction 1 as [|l ls Hl _ IH]; simpl; [reflexivity|].
  rewrite Hl. now destruct (findLayerByName_in heroGroupName false l).
Qed.

Lemma findGroup_in_found (heroGroupName : string) (l : LayerInfo) :
  findGroup_in heroGroupName l
  = option_map scopeOf (findLayerByName_in heroGroupName false l).
Proof.
  induction l as [l IH] using LayerInfo_tree_ind.
  rewrite findGroup_in_eq, findLayerByName_in_eq.
  destruct (nameMatches heroGroupName false l); [reflexivity|].
  destruct (children l) as [cs|]; [|reflexivity].
  apply findGroup_of_Forall. now apply IH.
Qed.

Lemma findGroup_found (heroGroupName : string) (layers : list LayerInfo) :
  findGroup heroGroupName layers
  = option_map scopeOf (findLayerByName layers heroGroupName false).
Proof.
  apply findGroup_of_Forall, Forall_forall. intros l _. apply findGroup_in_found.
Qed.

(** X15.  The scope of [get_hero_section]: without a group name, or
    with an empty one, the whole document; with a name, the children of
    the layer the partial search of [findLayerByName] finds for it (the
    layer alone when it has no children), and the whole document again
    when no layer name contains it. *)
Theorem get_hero_section_scope (size : float * float) (layers : list LayerInfo) :
  get_hero_section size layers None = categorize size layers
  /\ get_hero_section size layers (Some "") = categorize size layers
  /\ (forall c q,
        let heroGroupName := String c q in
        get_hero_section size layers (Some heroGroupName)
        = categorize size
            match findLayerByName layers heroGroupName false with
            | Some layer => scopeOf layer
            | None => layers
            end
        /\ ((forall l, In l (infoNodes layers) ->
               ~ contains (Js.toLowerCase (name l)) (Js.toLowerCase heroGroupName)) ->
            get_hero_section size layers (Some heroGroupName)
            = categorize size layers)).
Proof.
  split; [reflexivity|]. split; [reflexivity|].
  intros c q heroGroupName.
  assert (E : get_hero_section size layers (Some heroGroupName)
              = categorize size
                  match findLayerByName layers heroGroupName false with
                  | Some layer => scopeOf layer
                  | None => layers
                  end).
  { unfold get_hero_section. cbn [Js.truthy_string Js.or_string heroGroupName].
    rewrite findGroup_found.
    now destruct (findLayerByName layers heroGroupName false). }
  split; [exact E|].
  intros Hnone. rewrite E.
  destruct (findLayerByName layers heroGroupName false) as [l|] eqn:Ef;
    [|reflexivity].
  rewrite findLayerByName_find in Ef. apply find_some in Ef as [Hin Hm].
  unfold nameMatches in Hm. apply includes_spec in Hm.
  now elim (Hnone l Hin).
Qed.

End HeroScopeFacts.

(* ================================================================== *)
(** * More properties of the palette *)
(* ================================================================== *)

Section PaletteFacts.
Import Js.

Lemma traverseColors_eq (l : Psd.Layer) :
  let label := or_string (Psd.name l) "Unnamed" in
  fst (traverseColors l)
  = (layerColors label l
     ++ match Psd.children l with
        | Some cs => flat_map (fun c => fst (traverseColors c)) cs
        | None => []
        end)%list
  /\ snd (traverseColors l)
     = (layerGradients label l
        ++ match Psd.children l with
           | Some cs => flat_map (fun c => snd (traverseColors c)) cs
           | None => []
           end)%list.
Proof.
  destruct l as [n hd op lf tp rt bt tx ch cv vm vf vs ef].
  destruct ch as [cs|]; cbv zeta; simpl; rewrite ?app_nil_r; split; reflexivity.
Qed.

Lemma traverseColors_nodes (l : Psd.Layer) :
  fst (traverseColors l)
  = flat_map (fun x => layerColors (or_string (Psd.name x) "Unnamed") x)
             (rawNodes_in l)
  /\ snd (traverseColors l)
     = flat_map (fun x => layerGradients (or_string (Psd.name x) "Unnamed") x)
                (rawNodes_in l).
Proof.
  induction l as [l IH] using Psd.Layer_tree_ind.
  destruct (traverseColors_eq l) as [E1 E2]. cbv zeta in E1, E2.
  rewrite E1, E2, rawNodes_in_eq. simpl flat_map.
  destruct (Psd.children l) as [cs|]; [|split; reflexivity].
  specialize (IH cs eq_refl).
  split; f_equal.
  - clear E1 E2. induction IH as [|c cs [Hc _] _ IHcs]; simpl; [reflexivity|].
    now rewrite flat_map_app, Hc, IHcs.
  - clear E1 E2. induction IH as [|c cs [_ Hc] _ IHcs]; simpl; [reflexivity|].
    now rewrite flat_map_app, Hc, IHcs.
Qed.

Lemma flat_map_flat_map {A B C : Type} (f : A -> list B) (g : B -> list C)
  (xs : list A) :
  flat_map g (flat_map f xs) = flat_map (fun x => flat_map g (f x)) xs.
Proof.
  induction xs as [|x xs IH]; simpl; [reflexivity|].
  now rewrite flat_map_app, IH.
Qed.

Lemma palette_nodes (layers : list Psd.Layer) :
  solidColors (extractAllColors layers)
  = flat_map (fun x => layerColors (or_string (Psd.name x) "Unnamed") x)
             (rawNodes layers)
  /\ gradients (extractAllColors layers)
     = flat_map (fun x => layerGradients (or_string (Psd.name x) "Unnamed") x)
                (rawNodes layers).
Proof.
  unfold extractAllColors, rawNodes. cbn [solidColors gradients].
  rewrite !flat_map_flat_map. split; apply flat_map_ext; intros l;
    apply (traverseColors_nodes l).
Qed.

Lemma addColor_pushed (label : string) (color : option Color.t) (src : string) :
  Forall (pushed_color label) (addColor label color src).
Proof.
  unfold addColor. destruct (anyColorToHex color) as [h|] eqn:E; constructor;
    [|constructor].
  split; [reflexivity|]. split; [|reflexivity]. now exists color.
Qed.

Lemma filter_some_Forall {B : Type} (P : B -> Prop) (xs : list (option B)) :
  Forall (fun x => match x with Some b => P b | None => True end) xs ->
  Forall P (filter_some xs).
Proof.
  induction 1 as [|[b|] xs Hx _ IH]; simpl; [constructor | | exact IH].
  now constructor.
Qed.

Lemma addGradient_pushed (label : string) (gradient : option Psd.Gradient)
  (src : string) :
  Forall (pushed_gradient label) (addGradient label gradient src).
Proof.
  unfold addGradient. destruct gradient as [g|]; [|constructor].
  destruct (Psd.colorStops g) as [stops|]; [|constructor].
  destruct (filter_some _) as [|h hs] eqn:E; constructor; [|constructor].
  split; [reflexivity|]. split; [discriminate|]. cbn [colors]. rewrite <- E.
  apply filter_some_Forall, Forall_forall. intros x Hx.
  apply in_map_iff in Hx as (stop & <- & _).
  destruct (anyColorToHex (Psd.stop_color stop)) as [h'|] eqn:Eh; [|exact I].
  now exists (Psd.stop_color stop).
Qed.

Lemma forEach_from_Forall {A B : Type} (P : B -> Prop) (f : A -> nat -> list B)
  (xs : list A) :
  (forall a i, Forall P (f a i)) -> forall i, Forall P (forEach_from f i xs).
Proof.
  intros H. induction xs as [|x xs IH]; intros i; simpl; [constructor|].
  apply Forall_app. split; [apply H | apply IH].
Qed.

Lemma colorEffects_pushed (label : string) (v : option (list Psd.Effect))
  (base : string) :
  Forall (pushed_color label) (colorEffects label v base).
Proof.
  apply forEach_from_Forall. intros e i.
  destruct (_ && _); [apply addColor_pushed | constructor].
Qed.

Lemma colorEffect_pushed (label : string) (v : option Psd.Effect) (src : string) :
  Forall (pushed_color label) (colorEffect label v src).
Proof.
  unfold colorEffect. destruct v as [e|]; [|constructor].
  destruct (_ && _); [apply addColor_pushed | constructor].
Qed.

Lemma gradientEffects_pushed (label : string) (v : option (list Psd.Effect))
  (base : string) :
  Forall (pushed_gradient label) (gradientEffects label v base).
Proof.
  apply forEach_from_Forall. intros e i.
  destruct (_ && _); [apply addGradient_pushed | constructor].
Qed.

Lemma layerColors_pushed (label : string) (l : Psd.Layer) :
  Forall (pushed_color label) (layerColors label l).
Proof.
  unfold layerColors. cbv zeta.
  repeat (apply Forall_app; split).
  - destruct (has_field _); [apply addColor_pushed | constructor].
  - destruct (Psd.vectorFill l) as [[c|g|]|];
      try constructor; apply addColor_pushed.
  - destruct (Psd.vectorStroke l) as [st|]; [|constructor].
    destruct (Psd.content st) as [[c|g|]|];
      try constructor; apply addColor_pushed.
  - destruct (Psd.effects l) as [ef|]; [|constructor].
    repeat (apply Forall_app; split);
      first [apply colorEffects_pushed | apply colorEffect_pushed].
Qed.

Lemma layerGradients_pushed (label : string) (l : Psd.Layer) :
  Forall (pushed_gradient label) (layerGradients label l).
Proof.
  unfold layerGradients.
  repeat (apply Forall_app; split).
  - apply addGradient_pushed.
  - destruct (Psd.vectorStroke l) as [st|]; [|constructor].
    apply addGradient_pushed.
  - destruct (Psd.effects l) as [ef|]; [|constructor].
    repeat (apply Forall_app; split); apply gradientEffects_pushed.
Qed.

Lemma Forall_flat_map_each {A B : Type} (P : B -> Prop) (f : A -> list B)
  (xs : list A) :
  (forall x, In x xs -> Forall P (f x)) -> Forall P (flat_map f xs).
Proof.
  intros H. apply Forall_forall. intros y Hy.
  apply in_flat_map in Hy as (x & Hx & Hy).
  specialize (H x Hx). rewrite Forall_forall in H. now apply H.
Qed.

Lemma label_not_empty (v : option string) : or_string v "Unnamed" <> "".
Proof. destruct v as [[|c s]|]; discriminate. Qed.

(** X16.  The palette is, in document order, what
    [extractColorsFromLayer] returns for every layer of the document at
    any depth, labelled with the name of the layer or Unnamed.  So the
    layer name of an entry is never empty and is the label of a layer of
    the document, every hex string is an output of [anyColorToHex], and
    a gradient is recorded only with at least one colour. *)
Theorem palette_by_layer (layers : list Psd.Layer) :
  let palette := extractAllColors layers in
  let label := fun l => or_string (Psd.name l) "Unnamed" in
  solidColors palette
  = flat_map (fun l => fst (extractColorsFromLayer l (label l))) (rawNodes layers)
  /\ gradients palette
     = flat_map (fun l => snd (extractColorsFromLayer l (label l))) (rawNodes layers)
  /\ Forall (fun e => layerName e <> ""
                      /\ (exists l, In l (rawNodes layers) /\ layerName e = label l)
                      /\ exists color, anyColorToHex color = Some (hex e))
            (solidColors palette)
  /\ Forall (fun g => gradientLayerName g <> ""
                      /\ (exists l, In l (rawNodes layers)
                                    /\ gradientLayerName g = label l)
                      /\ colors g <> []
                      /\ Forall (fun h => exists color, anyColorToHex color = Some h)
                                (colors g))
            (gradients palette).
Proof.
  intros palette label. destruct (palette_nodes layers) as [Ec Eg].
  fold palette in Ec, Eg. split; [exact Ec|]. split; [exact Eg|].
  rewrite Ec, Eg. split.
  - apply Forall_flat_map_each. intros l Hl.
    eapply Forall_impl; [|apply layerColors_pushed].
    intros e (Hn & Hh & _). rewrite Hn.
    split; [apply label_not_empty|]. split; [now exists l | exact Hh].
  - apply Forall_flat_map_each. intros l Hl.
    eapply Forall_impl; [|apply layerGradients_pushed].
    intros g (Hn & Hne & Hall). rewrite Hn.
    split; [apply label_not_empty|]. split; [now exists l|]. now split.
Qed.

Lemma upper_hex_digit_value (c : ascii) :
  upper_hex_digit c = true ->
  match hex_digit_value c with
  | Some v => ((0 <=? v) && (v <? 16))%bool = true /\ upper_hex_char v = c
  | None => False
  end.
Proof.
  destruct c as [[] [] [] [] [] [] [] []]; vm_compute;
    first [discriminate | intros _; split; reflexivity].
Qed.

Lemma two_digits_byte (d1 d2 : ascii) :
  upper_hex_digit d1 = true -> upper_hex_digit d2 = true ->
  exists z, 0 <= z <= 255
            /\ parseInt16 (String d1 (String d2 "")) = IInt z
            /\ byte_hex z = String d1 (String d2 "").
Proof.
  intros H1 H2.
  apply upper_hex_digit_value in H1. apply upper_hex_digit_value in H2.
  unfold parseInt16. cbn [parse_hex_prefix].
  destruct (hex_digit_value d1) as [v1|]; [|contradiction].
  destruct (hex_digit_value d2) as [v2|]; [|contradiction].
  destruct H1 as [B1 C1], H2 as [B2 C2].
  apply andb_prop in B1 as [L1 U1]. apply andb_prop in B2 as [L2 U2].
  apply Z.leb_le in L1, L2. apply Z.ltb_lt in U1, U2.
  exists (16 * (16 * 0 + v1) + v2). split; [lia|]. split; [reflexivity|].
  unfold byte_hex.
  assert (Hq : (16 * (16 * 0 + v1) + v2) / 16 = v1)
    by (symmetry; apply (Z.div_unique _ 16 v1 v2); lia).
  assert (Hm : (16 * (16 * 0 + v1) + v2) mod 16 = v2)
    by (symmetry; apply (Z.mod_unique _ 16 v1 v2); lia).
  now rewrite Hq, Hm, C1, C2.
Qed.

(** X17.  In an entry of [solidColors] whose hex string is canonical,
    the [rgb] channels are the three bytes that the hex string spells:
    integers between 0 and 255 whose two-digit uppercase hexadecimal
    forms, put after the number sign, give the hex string back. *)
Theorem solid_color_rgb_matches_hex (layers : list Psd.Layer) :
  Forall (fun e =>
            canonical_hex (hex e) = true ->
            exists r g b,
              0 <= r <= 255 /\ 0 <= g <= 255 /\ 0 <= b <= 255
              /\ rgb e = {| rgb_r := IInt r; rgb_g := IInt g; rgb_b := IInt b |}
              /\ hex e = "#" ++ byte_hex r ++ byte_hex g ++ byte_hex b)
         (solidColors (extractAllColors layers)).
Proof.
  destruct (palette_nodes layers) as [Ec _]. rewrite Ec.
  apply Forall_flat_map_each. intros l _.
  eapply Forall_impl; [|apply layerColors_pushed].
  intros e (_ & _ & Hrgb) Hcanon. rewrite Hrgb.
  destruct (hex e) as [|c0 digits]; [discriminate|]. unfold canonical_hex in Hcanon.
  destruct c0 as [[] [] [] [] [] [] [] []]; try discriminate.
  apply andb_prop in Hcanon as [Hlen Hall]. apply Nat.eqb_eq in Hlen.
  destruct digits as [|d1 [|d2 [|d3 [|d4 [|d5 [|d6 [|d7 rest]]]]]]];
    try discriminate.
  cbn [all_chars] in Hall.
  repeat (apply andb_prop in Hall as [?H Hall]).
  destruct (two_digits_byte d1 d2) as (r & Hr & Pr & Br); try assumption.
  destruct (two_digits_byte d3 d4) as (g & Hg & Pg & Bg); try assumption.
  destruct (two_digits_byte d5 d6) as (b & Hb & Pb & Bb); try assumption.
  exists r, g, b. repeat split; try lia.
  - unfold slice. cbn [Nat.sub substring]. now rewrite Pr, Pg, Pb.
  - rewrite Br, Bg, Bb. reflexivity.
Qed.

End PaletteFacts.

(* ================================================================== *)
(** * Properties of the colour report *)
(* ================================================================== *)

Section ReportFacts.
Import Js.

Lemma existsb_filter_other (x y : string) (xs : list string) :
  x <> y ->
  existsb (String.eqb x) (filter (fun z => negb (z =? y)%string) xs)
  = existsb (String.eqb x) xs.
Proof.
  intros Hne. induction xs as [|z xs IH]; simpl; [reflexivity|].
  destruct (String.eqb_spec z y) as [->|Hzy]; simpl.
  - rewrite IH. destruct (String.eqb_spec x y); [contradiction | reflexivity].
  - now rewrite IH.
Qed.

Lemma filter_snoc {A : Type} (p : A -> bool) (xs : list A) (x : A) :
  filter p (xs ++ [x]) = (filter p xs ++ if p x then [x] else [])%list.
Proof. rewrite filter_app. reflexivity. Qed.

(** Adding a value at the end of the input of a [Set] is the
    [includes]-then-[push] of the grouping loop. *)
Lemma Set_values_snoc (xs : list string) (x : string) :
  Set_values (xs ++ [x]) = pushNew (Set_values xs) x.
Proof.
  induction xs as [|y xs IH]; [reflexivity|].
  change (Set_values ((y :: xs) ++ [x]))
    with (y :: filter (fun z => negb (z =? y)%string) (Set_values (xs ++ [x]))).
  rewrite IH. unfold pushNew. cbn [Set_values existsb].
  destruct (String.eqb_spec x y) as [->|Hne].
  - cbn [orb]. destruct (existsb (String.eqb y) (Set_values xs)); [reflexivity|].
    rewrite filter_snoc, String.eqb_refl. cbn [negb]. now rewrite app_nil_r.
  - cbn [orb]. rewrite (existsb_filter_other x y _ Hne).
    destruct (existsb (String.eqb x) (Set_values xs)); [reflexivity|].
    rewrite filter_snoc. apply String.eqb_neq in Hne. now rewrite Hne.
Qed.

Lemma groupByColor_snoc (solid : list ExtractedColor) (c : ExtractedColor) :
  groupByColor (solid ++ [c]) = recordColor c (groupByColor solid).
Proof. unfold groupByColor. now rewrite fold_left_app. Qed.

Lemma entryOf_other (solid : list ExtractedColor) (c : ExtractedColor)
  (k : string) :
  k <> hex c -> entryOf (solid ++ [c]) k = entryOf solid k.
Proof.
  intros Hne. unfold entryOf. cbv zeta. rewrite filter_snoc.
  destruct (String.eqb_spec (hex c) k) as [E|_]; [now elim Hne|].
  now rewrite app_nil_r.
Qed.

Lemma entryOf_same (solid : list ExtractedColor) (c : ExtractedColor) :
  entryOf (solid ++ [c]) (hex c)
  = (hex c,
     {| entrySources :=
          pushNew (Set_values (map source
                     (filter (fun x => (hex x =? hex c)%string) solid))) (source c);
        entryLayers :=
          pushNew (Set_values (map layerName
                     (filter (fun x => (hex x =? hex c)%string) solid)))
                  (layerName c) |}).
Proof.
  unfold entryOf. cbv zeta. rewrite filter_snoc, String.eqb_refl, !map_app.
  cbn [map]. now rewrite !Set_values_snoc.
Qed.

Lemma recordColor_keys (solid : list ExtractedColor) (c : ExtractedColor)
  (keys : list string) :
  NoDup keys ->
  (existsb (String.eqb (hex c)) keys = false ->
   filter (fun x => (hex x =? hex c)%string) solid = []) ->
  recordColor c (map (entryOf solid) keys)
  = map (entryOf (solid ++ [c])) (pushNew keys (hex c)).
Proof.
  intros Hnd. induction Hnd as [|k ks Hk Hnd IH]; intros Hfresh.
  - unfold pushNew. cbn [existsb map app recordColor].
    rewrite entryOf_same, (Hfresh eq_refl). reflexivity.
  - unfold pushNew. cbn [existsb map].
    change (recordColor c (entryOf solid k :: map (entryOf solid) ks))
      with (if (k =? hex c)%string
            then (k, {| entrySources :=
                          pushNew (entrySources (snd (entryOf solid k))) (source c);
                        entryLayers :=
                          pushNew (entryLayers (snd (entryOf solid k))) (layerName c) |})
                   :: map (entryOf solid) ks
            else entryOf solid k :: recordColor c (map (entryOf solid) ks)).
    rewrite (String.eqb_sym (hex c) k).
    destruct (String.eqb_spec k (hex c)) as [->|Hne]; cbn [orb map].
    + rewrite entryOf_same. f_equal.
      apply map_ext_in. intros k' Hk'. symmetry. apply entryOf_other.
      intros ->. contradiction.
    + rewrite IH.
      * unfold pushNew.
        destruct (existsb (String.eqb (hex c)) ks); cbn [map app];
          now rewrite (entryOf_other solid c k Hne).
      * intros H. apply Hfresh. cbn [existsb].
        rewrite (String.eqb_sym (hex c) k).
        apply String.eqb_neq in Hne. now rewrite Hne.
Qed.

Lemma existsb_eqb_false (x : string) (xs : list string) :
  existsb (String.eqb x) xs = false -> ~ In x xs.
Proof.
  intros H Hin. assert (E : existsb (String.eqb x) xs = true).
  { apply existsb_exists. exists x. split; [exact Hin | apply String.eqb_refl]. }
  congruence.
Qed.

Lemma filter_none {A : Type} (p : A -> bool) (xs : list A) :
  (forall x, In x xs -> p x = false) -> filter p xs = [].
Proof.
  induction xs as [|x xs IH]; intros H; simpl; [reflexivity|].
  rewrite (H x (or_introl eq_refl)). apply IH. intros y Hy. apply H. now right.
Qed.

Lemma groupByColor_entries (solid : list ExtractedColor) :
  groupByColor solid = map (entryOf solid) (Set_values (map hex solid)).
Proof.
  induction solid as [|c solid IH] using rev_ind; [reflexivity|].
  rewrite groupByColor_snoc, IH, map_app. cbn [map].
  rewrite Set_values_snoc. apply recordColor_keys; [apply Set_values_NoDup|].
  intros H. apply existsb_eqb_false in H. rewrite Set_values_in in H.
  apply filter_none. intros x Hx.
  apply String.eqb_neq. intros E. apply H. rewrite <- E. now apply in_map.
Qed.

(** X18.  The grouping of the detailed report has one entry per
    distinct hex string, in the order in which the colours first appear
    in [solidColors]; the entry of a colour lists the distinct sources
    and the distinct layer names of the solid colours with that hex
    string, each in order of first appearance.  The colours grouped are
    those of [uniqueColors], which lists them sorted instead. *)
Theorem groupByColor_first_appearance (layers : list Psd.Layer)
  (solid : list ExtractedColor) :
  groupByColor solid = map (entryOf solid) (Set_values (map hex solid))
  /\ map fst (groupByColor solid) = Set_values (map hex solid)
  /\ NoDup (map fst (groupByColor solid))
  /\ Permutation (map fst (groupByColor (solidColors (extractAllColors layers))))
                 (uniqueColors (extractAllColors layers)).
Proof.
  assert (K : forall s, map fst (groupByColor s) = Set_values (map hex s)).
  { intros s. rewrite groupByColor_entries, map_map. apply map_id. }
  split; [apply groupByColor_entries|]. split; [apply K|]. split.
  - rewrite K. apply Set_values_NoDup.
  - rewrite K. symmetry. apply sort_strings_perm.
Qed.

Lemma join_head_ne (sep : string) (c c' : ascii) (s s' : string)
  (rest : list string) :
  c <> c' -> join sep (String c s :: rest) <> String c' s'.
Proof.
  intros Hne E. destruct rest; simpl in E; injection E as E _; contradiction.
Qed.

Lemma format_cases {A : Type} (P : A -> Prop) (a b c : A) (format : option string) :
  P a -> P b -> P c ->
  P match format with
    | Some "css" => a
    | Some "detailed" => b
    | _ => c
    end.
Proof.
  intros Ha Hb Hc.
  repeat match goal with
         | |- context [match ?x with _ => _ end] => destruct x
         end; assumption.
Qed.

Lemma report_not_message (palette : ColorPalette) (format : option string) :
  match format with
  | Some "css" => cssOutput palette
  | Some "detailed" => detailedOutput palette
  | _ => summaryOutput palette
  end <> "No colors found in this PSD file.".
Proof.
  apply format_cases.
  - unfold cssOutput. cbv zeta. cbn [app]. apply join_head_ne. discriminate.
  - unfold detailedOutput, solidHeading. cbn [app append].
    apply join_head_ne. discriminate.
  - unfold summaryOutput, summaryHeading. cbn [app append].
    apply join_head_ne. discriminate.
Qed.

Lemma uniqueColors_empty (layers : list Psd.Layer) :
  uniqueColors (extractAllColors layers) = []
  <-> solidColors (extractAllColors layers) = [].
Proof.
  unfold extractAllColors. cbn [uniqueColors solidColors].
  set (allColors := flat_map _ layers). split.
  - intros H. pose proof (sort_strings_perm (Set_values (map hex allColors))) as P.
    rewrite H in P. apply Permutation_nil in P.
    destruct allColors; [reflexivity | discriminate].
  - intros ->. reflexivity.
Qed.

(** X19.  [extract_colors] answers that no colours were found exactly
    when the document has no solid colour and no gradient; otherwise it
    prints the report of the format asked for, any format other than css
    and detailed, or none, giving the summary. *)
Theorem extract_colors_empty_message (psd_children : option (list Psd.Layer))
  (format : option string) :
  let palette := extractAllColors (rawLayers psd_children) in
  (extract_colors psd_children format = "No colors found in this PSD file."
   <-> solidColors palette = [] /\ gradients palette = [])
  /\ (solidColors palette <> [] \/ gradients palette <> [] ->
      extract_colors psd_children format
      = match format with
        | Some "css" => cssOutput palette
        | Some "detailed" => detailedOutput palette
        | _ => summaryOutput palette
        end).
Proof.
  intros palette.
  assert (Hdef : extract_colors psd_children format
                 = match uniqueColors palette, gradients palette with
                   | [], [] => "No colors found in this PSD file."
                   | _, _ =>
                       match format with
                       | Some "css" => cssOutput palette
                       | Some "detailed" => detailedOutput palette
                       | _ => summaryOutput palette
                       end
                   end) by reflexivity.
  pose proof (uniqueColors_empty (rawLayers psd_children)) as Hu.
  fold palette in Hu. rewrite Hdef.
  destruct (uniqueColors palette) as [|u us].
  - destruct (gradients palette) as [|g gs].
    + split; [split; [intros _; split; [now apply Hu | reflexivity] | reflexivity]|].
      intros [H|H]; [elim H; now apply Hu | now elim H].
    + split; [|reflexivity]. split.
      * intros H. now apply report_not_message in H.
      * intros [_ H]. discriminate.
  - assert (Hs : solidColors palette <> []).
    { intros E. apply Hu in E. discriminate. }
    split; [|reflexivity]. split.
    + intros H. now apply report_not_message in H.
    + intros [H _]. contradiction.
Qed.

End ReportFacts.

(* ================================================================== *)
(** * More properties of the vector export *)
(* ================================================================== *)

Section PathShapeFacts.
Import Js.
Variable dtoa : float -> string.
Variables width height : float.

Lemma curveCommand_curveTo (knots : list Psd.Knot) (i : nat) :
  curveCommand dtoa knots width height i
  = curveTo dtoa width height (knot_at knots i)
      (knot_at knots ((i + 1) mod List.length knots)).
Proof. reflexivity. Qed.

Lemma curveLoop_seq (knots : list Psd.Knot) (open : bool) (fuel : nat) :
  forall i, (i + fuel = List.length knots)%nat ->
    curveLoop dtoa knots open width height i fuel
    = map (curveCommand dtoa knots width height)
          (seq i ((if open then List.length knots - 1 else List.length knots) - i)).
Proof.
  induction fuel as [|fuel IH]; intros i Hi.
  - replace ((if open then List.length knots - 1 else List.length knots) - i)%nat
      with 0%nat by (destruct open; lia).
    reflexivity.
  - cbn [curveLoop].
    assert (Hlt : (i <? List.length knots)%nat = true) by (apply Nat.ltb_lt; lia).
    rewrite Hlt.
    destruct open; cbn [andb].
    + destruct (Nat.eqb_spec i (List.length knots - 1)) as [E|E].
      * replace (List.length knots - 1 - i)%nat with 0%nat by lia. reflexivity.
      * replace (List.length knots - 1 - i)%nat
          with (S (List.length knots - 1 - S i)) by lia.
        cbn [seq map]. f_equal. apply IH. lia.
    + replace (List.length knots - i)%nat with (S (List.length knots - S i)) by lia.
      cbn [seq map]. f_equal. apply IH. lia.
Qed.

(** X20.  A path of [n] knots, [n] at least 1, gives a move to the
    anchor of the first knot, then one curve from each knot to the next
    one: [n] curves and a close command when the path is closed, the last
    curve going from the last knot back to the first; [n - 1] curves and
    no close command when it is open.  A closed path of one knot is a
    curve from the knot to itself, an open one only the move. *)
Theorem pathCommands_by_knots (bezierPath : Psd.BezierPath) :
  let knots := Psd.knots bezierPath in
  let n := List.length knots in
  let segments := if Psd.open bezierPath then (n - 1)%nat else n in
  pathCommands dtoa bezierPath width height
  = match knots with
    | [] => []
    | firstKnot :: _ =>
        (moveTo dtoa width height firstKnot
         :: map (fun i => curveTo dtoa width height (knot_at knots i)
                            (knot_at knots ((i + 1) mod n)))
                (seq 0 segments)
         ++ (if Psd.open bezierPath then [] else ["Z"]))%list
    end
  /\ (forall i, (i + 1 < n)%nat -> ((i + 1) mod n = i + 1)%nat)
  /\ (n <> 0%nat -> ((n - 1 + 1) mod n = 0)%nat)
  /\ (n <> 0%nat ->
      List.length (pathCommands dtoa bezierPath width height)
      = (1 + segments + if Psd.open bezierPath then 0 else 1)%nat).
Proof.
  intros knots n segments.
  assert (E : pathCommands dtoa bezierPath width height
              = match knots with
                | [] => []
                | firstKnot :: _ =>
                    (moveTo dtoa width height firstKnot
                     :: map (fun i => curveTo dtoa width height (knot_at knots i)
                                        (knot_at knots ((i + 1) mod n)))
                            (seq 0 segments)
                     ++ (if Psd.open bezierPath then [] else ["Z"]))%list
                end).
  { unfold pathCommands. fold knots.
    destruct knots as [|k ks] eqn:Ek; [reflexivity|]. cbv zeta.
    rewrite <- Ek.
    rewrite (curveLoop_seq knots (Psd.open bezierPath) (List.length knots) 0 eq_refl).
    rewrite Nat.sub_0_r. fold n. fold segments.
    change (scale dtoa width (point k 2)) with (xText dtoa width (point k 2)).
    change (scale dtoa height (point k 3)) with (yText dtoa height (point k 3)).
    unfold moveTo. subst n segments. rewrite <- Ek.
    f_equal. f_equal. now destruct (Psd.open bezierPath). }
  split; [exact E|]. split; [|split].
  - intros i Hi. apply Nat.mod_small. exact Hi.
  - intros Hn. replace (n - 1 + 1)%nat with n by lia. apply Nat.Div0.mod_same.
  - intros Hn. rewrite E. destruct knots as [|k ks] eqn:Ek; [now elim Hn|].
    cbn [List.length]. rewrite length_app, length_map, length_seq.
    destruct (Psd.open bezierPath); cbn [List.length]; lia.
Qed.

End PathShapeFacts.

Section StrokeFacts.
Import Js.
Variable dtoa : float -> string.

Lemma or_zero_positive (x : float) :
  (0 <? or_zero (Some x))%float = (0 <? x)%float.
Proof.
  unfold or_zero. destruct (is_nan x || is_zero x)%bool eqn:E; [|reflexivity].
  change (0 <? 0)%float with false. symmetry.
  rewrite ltb_spec. unfold is_nan, is_zero in E.
  rewrite !FloatAxioms.eqb_spec in E.
  change (Prim2SF 0) with (S754_zero false) in *.
  change (Prim2SF PrimFloat.zero) with (S754_zero false) in *.
  destruct (Prim2SF x) as [[|]|[|]| |[|] m e]; try reflexivity; exfalso;
    unfold SFeqb, SFcompare in E; cbn in E; try discriminate;
    rewrite Z.compare_refl, Pos.compare_cont_refl in E; discriminate.
Qed.

Lemma resolvable_color (content : option Psd.VectorContent) :
  truthy_string (vectorContentToColor dtoa content) = resolvable content.
Proof.
  destruct content as [[c|g|]|]; try reflexivity.
  unfold vectorContentToColor, resolvable.
  destruct (has_field (Color.r c)); reflexivity.
Qed.

Lemma svgParts_shape (layer : Psd.Layer) (mask : Psd.VectorMask) (w h : float) :
  svgParts dtoa layer mask w h
  = (firstn 4 (svgParts dtoa layer mask w h)
     ++ (if strokeDrawn layer then
           match Psd.vectorStroke layer with
           | Some st =>
               [ ("        stroke=" ++ dquote
                   ++ or_string (vectorContentToColor dtoa (Psd.content st)) ""
                   ++ dquote)%string;
                 ("        stroke-width=" ++ dquote
                   ++ Number_toString dtoa
                        (or_zero (option_map Psd.value (Psd.lineWidth st)))
                   ++ dquote)%string ]
               ++ (if truthy_string (Psd.lineCapType st)
                   then [("        stroke-linecap=" ++ dquote
                           ++ or_string (Psd.lineCapType st) "" ++ dquote)%string]
                   else [])
               ++ (if truthy_string (Psd.lineJoinType st)
                   then [("        stroke-linejoin=" ++ dquote
                           ++ or_string (Psd.lineJoinType st) "" ++ dquote)%string]
                   else [])
           | None => []
           end
         else [])
     ++ ["  />"; "</svg>"])%list.
Proof.
  unfold svgParts, strokeDrawn. cbv zeta. cbn [firstn app].
  destruct (Psd.vectorStroke layer) as [[content lw cap jn en]|]; [|reflexivity].
  cbn [Psd.content Psd.lineWidth Psd.lineCapType Psd.lineJoinType Psd.strokeEnabled].
  do 4 f_equal.
  destruct content as [content|].
  2:{ cbn [resolvable truthy_string andb]. rewrite andb_false_r. reflexivity. }
  rewrite resolvable_color.
  destruct lw as [[v]|]; cbn [option_map Psd.value].
  2:{ replace (0 <? or_zero None)%float with false by reflexivity.
      rewrite !andb_false_r. reflexivity. }
  rewrite or_zero_positive.
  destruct en as [[|]|]; cbn [negb andb];
    destruct (0 <? v)%float; cbn [andb]; rewrite ?andb_false_r, ?andb_true_r;
    try reflexivity; destruct (resolvable (Some content)); reflexivity.
Qed.

(** X21.  The stroke attributes of the SVG are written exactly when the
    layer has a stroke that is not disabled, whose width is a number
    above zero and whose paint is a solid colour with an [r] field; then
    the first two are the colour and the width.  Otherwise (gradient or
    pattern stroke, colour in another encoding, zero, missing or [NaN]
    width) the document is the four opening lines followed at once by
    the two closing lines. *)
Theorem svgParts_stroke_attributes (layer : Psd.Layer) (mask : Psd.VectorMask)
  (w h : float) :
  let parts := svgParts dtoa layer mask w h in
  (forall content, truthy_string (vectorContentToColor dtoa content)
                   = resolvable content)
  /\ (strokeDrawn layer = false ->
      parts = (firstn 4 parts ++ ["  />"; "</svg>"])%list)
  /\ (strokeDrawn layer = true ->
      exists st c rest,
        Psd.vectorStroke layer = Some st
        /\ Psd.content st = Some (Psd.VColor c)
        /\ (List.length rest <= 2)%nat
        /\ parts
           = (firstn 4 parts
              ++ [ ("        stroke=" ++ dquote
                     ++ or_string (vectorContentToColor dtoa (Some (Psd.VColor c))) ""
                     ++ dquote)%string;
                   ("        stroke-width=" ++ dquote
                     ++ Number_toString dtoa
                          (or_zero (option_map Psd.value (Psd.lineWidth st)))
                     ++ dquote)%string ]
              ++ rest ++ ["  />"; "</svg>"])%list).
Proof.
  intros parts. split; [apply resolvable_color|].
  pose proof (svgParts_shape layer mask w h) as Hshape. fold parts in Hshape.
  split.
  - intros Hd. rewrite Hd in Hshape. exact Hshape.
  - intros Hd. rewrite Hd in Hshape. unfold strokeDrawn in Hd.
    destruct (Psd.vectorStroke layer) as [st|]; [|discriminate].
    apply andb_prop in Hd as [Hd _]. apply andb_prop in Hd as [Hres _].
    destruct (Psd.content st) as [[c|g|]|] eqn:Ec; try discriminate.
    exists st, c.
    exists ((if truthy_string (Psd.lineCapType st)
             then [("        stroke-linecap=" ++ dquote
                     ++ or_string (Psd.lineCapType st) "" ++ dquote)%string]
             else [])
            ++ (if truthy_string (Psd.lineJoinType st)
                then [("        stroke-linejoin=" ++ dquote
                        ++ or_string (Psd.lineJoinType st) "" ++ dquote)%string]
                else []))%list.
    split; [reflexivity|]. split; [exact Ec|]. split.
    + rewrite length_app.
      destruct (truthy_string (Psd.lineCapType st)),
               (truthy_string (Psd.lineJoinType st)); simpl; lia.
    + etransitivity; [exact Hshape|]. f_equal.
Qed.

End StrokeFacts.
